(** * Workers Sentinel: fingerprinting, the per-project shard and ingestion

    A shallow embedding of
      - the fingerprinter, imported as [lib/fingerprint]
        (generateFingerprint and its helpers),
      - [durable-objects/project-state.ts] (the ProjectState shard),
      - extractEvents of [lib/envelope-parser] and
      - handleIngestion, imported as [routes/ingestion],
    followed by the properties established about them.

    Conventions.
      - A JavaScript string is the list of its UTF-16 code units; this is
        what [charCodeAt], [length] and [slice] observe.
      - An optional property ([x?: T], or a JSON value that may be missing
        or null) is an [option]; the empty string is falsy, as in JS.
      - JSON text stored in a column ([metadata], [tags], [data]) is
        represented by the value it encodes.
      - What the JavaScript runtime supplies ([crypto.randomUUID],
        [new Date()], SHA-256, date parsing) is an explicit input. *)

From Stdlib Require Import ZArith List String Ascii Bool Lia Arith Sorted.
Import ListNotations.
Local Open Scope Z_scope.

(** ** JavaScript strings *)

Definition jsstring := list Z.

(** An ASCII literal as a JS string. *)
Definition js (s : string) : jsstring :=
  map (fun a => Z.of_nat (nat_of_ascii a)) (list_ascii_of_string s).

Fixpoint jseqb (a b : jsstring) : bool :=
  match a, b with
  | [], [] => true
  | x :: a', y :: b' => (x =? y) && jseqb a' b'
  | _, _ => false
  end.

(** [a || b] on optional strings: [undefined], [null] and [''] are falsy. *)
Definition truthy (x : option jsstring) : bool :=
  match x with
  | Some (_ :: _) => true
  | _ => false
  end.

Definition or_default (x : option jsstring) (d : jsstring) : jsstring :=
  if truthy x then match x with Some s => s | None => d end else d.

Definition or_else (x y : option jsstring) : option jsstring :=
  if truthy x then x else y.

(** [x || null] for a column value. *)
Definition or_null (x : option jsstring) : option jsstring :=
  if truthy x then x else None.

(** [parts.join(sep)] *)
Fixpoint join (sep : jsstring) (parts : list jsstring) : jsstring :=
  match parts with
  | [] => []
  | [p] => p
  | p :: rest => p ++ sep ++ join sep rest
  end.

(** [s.split(sep)[0]] for a one-unit separator: the part before its
    first occurrence. *)
Fixpoint before (sep : Z) (s : jsstring) : jsstring :=
  match s with
  | [] => []
  | c :: t => if c =? sep then [] else c :: before sep t
  end.

(** Digits of a non-negative number in a base up to sixteen, most
    significant first, as [Number.prototype.toString(radix)] prints an
    integer below 2^53. *)
Definition digit_unit (d : Z) : Z :=
  if d <? 10 then 48 + d else 87 + d.

Fixpoint digits_fuel (fuel : nat) (base n : Z) (acc : jsstring) : jsstring :=
  match fuel with
  | O => acc
  | S k =>
      let acc' := digit_unit (n mod base) :: acc in
      if n / base =? 0 then acc' else digits_fuel k base (n / base) acc'
  end.

Definition digits (base n : Z) : jsstring :=
  digits_fuel (S (Z.to_nat (Z.log2 n))) base n [].

(** [String(n)] for an integer (of magnitude below 10^21, where JS still
    prints plain decimals). *)
Definition String_of_int (n : Z) : jsstring :=
  if n <? 0 then 45 :: digits 10 (- n) else digits 10 n.

(** [s.padStart(width, '0')] *)
Definition padStart0 (width : nat) (s : jsstring) : jsstring :=
  repeat 48 (width - List.length s) ++ s.

(** ** simpleHash (djb2 with xor) *)

(** ECMAScript ToInt32. *)
Definition toInt32 (x : Z) : Z := (x + 2 ^ 31) mod 2 ^ 32 - 2 ^ 31.

(** ECMAScript ToUint32, the effect of [x >>> 0]. *)
Definition toUint32 (x : Z) : Z := x mod 2 ^ 32.

(** One turn of the loop: [hash = (hash * 33) ^ str.charCodeAt(i)]. *)
Definition hash_step (hash c : Z) : Z :=
  Z.lxor (toInt32 (hash * 33)) (toInt32 c).

Definition simpleHash (str : jsstring) : jsstring :=
  let hash := fold_left hash_step str 5381 in
  padStart0 8 (digits 16 (toUint32 hash)).

Definition hashArray (parts : list jsstring) : jsstring :=
  simpleHash (join (js "||") parts).

(** ** Regular expressions of normalizeMessage

    The six patterns are sequences of atoms: one character of a class, a
    greedy bounded repetition of a class, or the word boundary [\b].  The
    matcher below is the usual backtracking one: a repetition first takes
    as many units as it may and gives them back one at a time. *)

Inductive atom :=
| Cls (p : Z -> bool)
| Rep (lo : nat) (hi : option nat) (p : Z -> bool)
| Bnd.

Definition in_range (lo hi c : Z) : bool := (lo <=? c) && (c <=? hi).

Definition is_digit (c : Z) : bool := in_range 48 57 c.
Definition is_upper (c : Z) : bool := in_range 65 90 c.
Definition is_lower (c : Z) : bool := in_range 97 122 c.
Definition is_alnum (c : Z) : bool := is_digit c || is_upper c || is_lower c.

(** [\w] *)
Definition is_word (c : Z) : bool := is_alnum c || (c =? 95).

(** [[0-9a-f]] under the [i] flag. *)
Definition is_hex (c : Z) : bool :=
  is_digit c || in_range 97 102 c || in_range 65 70 c.

(** [\s]: WhiteSpace and LineTerminator of ECMAScript. *)
Definition is_space (c : Z) : bool :=
  in_range 9 13 c || (c =? 32) || (c =? 160) || (c =? 5760)
  || in_range 8192 8202 c || (c =? 8232) || (c =? 8233) || (c =? 8239)
  || (c =? 8287) || (c =? 12288) || (c =? 65279).

Definition one_of (ch : string) (c : Z) : bool :=
  existsb (Z.eqb c) (js ch).

Definition word_at (x : option Z) : bool :=
  match x with
  | Some c => is_word c
  | None => false
  end.

Definition under (hi : option nat) (taken : nat) : bool :=
  match hi with
  | Some h => (taken <? h)%nat
  | None => true
  end.

(** [match_atoms atoms prev s]: the length of the match of [atoms] at the
    start of [s], where [prev] is the unit just before it. *)
Fixpoint match_atoms (atoms : list atom) (prev : option Z) (s : jsstring)
  : option nat :=
  match atoms with
  | [] => Some O
  | Cls p :: rest =>
      match s with
      | c :: t => if p c then option_map S (match_atoms rest (Some c) t) else None
      | [] => None
      end
  | Bnd :: rest =>
      if xorb (word_at prev) (word_at (hd_error s))
      then match_atoms rest prev s else None
  | Rep lo hi p :: rest =>
      (fix rep (taken : nat) (prev : option Z) (s : jsstring) : option nat :=
         let stop := if (lo <=? taken)%nat then match_atoms rest prev s else None in
         match s with
         | c :: t =>
             if p c && under hi taken then
               match rep (S taken) (Some c) t with
               | Some n => Some (S n)
               | None => stop
               end
             else stop
         | [] => stop
         end) O prev s
  end.

(** [s.replace(/atoms/g, rep)] for a pattern that matches no empty
    string: scan left to right, resume after each match. *)
Fixpoint replace_from (atoms : list atom) (rep : jsstring)
         (skip : nat) (prev : option Z) (s : jsstring) : jsstring :=
  match s with
  | [] => []
  | c :: t =>
      match skip with
      | S k => replace_from atoms rep k (Some c) t
      | O =>
          match match_atoms atoms prev s with
          | Some (S n) => rep ++ replace_from atoms rep n (Some c) t
          | _ => c :: replace_from atoms rep O (Some c) t
          end
      end
  end.

Definition replace_all (atoms : list atom) (rep : string) (s : jsstring) : jsstring :=
  replace_from atoms (js rep) O None s.

Definition times (n : nat) (p : Z -> bool) : list atom := repeat (Cls p) n.

Definition re_uuid : list atom :=
  times 8 is_hex ++ [Cls (one_of "-")] ++ times 4 is_hex ++ [Cls (one_of "-")]
  ++ times 4 is_hex ++ [Cls (one_of "-")] ++ times 4 is_hex ++ [Cls (one_of "-")]
  ++ times 12 is_hex.

Definition re_hex_id : list atom := [Bnd; Rep 24 None is_hex; Bnd].

Definition re_number : list atom := [Bnd; Rep 6 None is_digit; Bnd].

Definition re_timestamp : list atom :=
  times 4 is_digit ++ [Cls (one_of "-")] ++ times 2 is_digit ++ [Cls (one_of "-")]
  ++ times 2 is_digit ++ [Cls (one_of "T ")] ++ times 2 is_digit ++ [Cls (one_of ":")]
  ++ times 2 is_digit ++ [Cls (one_of ":")] ++ times 2 is_digit.

Definition re_ip : list atom :=
  [Bnd; Rep 1 (Some 3%nat) is_digit; Cls (one_of ".");
   Rep 1 (Some 3%nat) is_digit; Cls (one_of ".");
   Rep 1 (Some 3%nat) is_digit; Cls (one_of ".");
   Rep 1 (Some 3%nat) is_digit; Bnd].

Definition re_email : list atom :=
  [Bnd; Rep 1 None (fun c => is_alnum c || one_of "._%+-" c); Cls (one_of "@");
   Rep 1 None (fun c => is_alnum c || one_of ".-" c); Cls (one_of ".");
   Rep 2 None (fun c => is_upper c || one_of "|" c || is_lower c); Bnd].

Definition re_spaces : list atom := [Rep 1 None is_space].

Fixpoint trimStart (s : jsstring) : jsstring :=
  match s with
  | c :: t => if is_space c then trimStart t else s
  | [] => []
  end.

Definition trim (s : jsstring) : jsstring :=
  rev (trimStart (rev (trimStart s))).

Definition normalizeMessage (message : jsstring) : jsstring :=
  let m1 := replace_all re_uuid "<uuid>" message in
  let m2 := replace_all re_hex_id "<id>" m1 in
  let m3 := replace_all re_number "<num>" m2 in
  let m4 := replace_all re_timestamp "<timestamp>" m3 in
  let m5 := replace_all re_ip "<ip>" m4 in
  let m6 := replace_all re_email "<email>" m5 in
  let m7 := replace_all re_spaces " " m6 in
  firstn 500 (trim m7).

(** ** Event payloads (types.ts)

    Only the properties the server reads are kept; the payload is stored
    whole, so the others ride along unchanged and play no part below. *)

Record StackFrame := {
  filename : option jsstring;
  function : option jsstring;
  lineno : option Z;
  in_app : option bool
}.

Record Stacktrace := { frames : option (list StackFrame) }.

Record ExceptionValue := {
  type : option jsstring;
  value : option jsstring;
  stacktrace : option Stacktrace
}.

Record ExceptionInterface := { values : option (list ExceptionValue) }.

Module EventUser.
Record t := {
  id : option jsstring;
  email : option jsstring;
  ip_address : option jsstring;
  username : option jsstring
}.
End EventUser.

Record SentryEvent := {
  event_id : option jsstring;
  timestamp : option jsstring;
  platform : option jsstring;
  level : option jsstring;
  transaction : option jsstring;
  release : option jsstring;
  environment : option jsstring;
  tags : option (list (jsstring * jsstring));
  user : option EventUser.t;
  exception : option ExceptionInterface;
  fingerprint : option (list jsstring);
  message : option jsstring
}.

Module IssueMetadata.
Record t := {
  type : jsstring;
  value : jsstring;
  filename : option jsstring;
  function : option jsstring
}.
End IssueMetadata.

(** ** The fingerprinter (lib/fingerprint) *)

(** [f.in_app !== false] *)
Definition in_app_not_false (f : StackFrame) : bool :=
  match in_app f with
  | Some false => false
  | _ => true
  end.

(** [stacktrace?.frames], with its emptiness test. *)
Definition frames_of (st : option Stacktrace) : list StackFrame :=
  match st with
  | Some {| frames := Some fs |} => fs
  | _ => []
  end.

Definition getTopFrames (st : option Stacktrace) (count : nat) : list StackFrame :=
  match frames_of st with
  | [] => []
  | fs =>
      let reversed := rev fs in
      let inAppFrames := filter in_app_not_false reversed in
      match inAppFrames with
      | _ :: _ => firstn count inAppFrames
      | [] => firstn count reversed
      end
  end.

Definition getTopFrame (st : option Stacktrace) : option StackFrame :=
  hd_error (getTopFrames st 1).

(** [if (frame.lineno)]: a number is truthy unless it is zero. *)
Definition truthy_num (n : option Z) : bool :=
  match n with
  | Some z => negb (z =? 0)
  | None => false
  end.

Definition formatFrame (frame : StackFrame) : jsstring :=
  let p1 := if truthy (filename frame)
            then [before 35 (before 63 (or_default (filename frame) []))] else [] in
  let p2 := if truthy (function frame)
            then [or_default (function frame) []] else [] in
  let p3 := match lineno frame with
            | Some n => if truthy_num (Some n) then [String_of_int n] else []
            | None => []
            end in
  join (js ":") (p1 ++ p2 ++ p3).

(** [event.exception?.values && event.exception.values.length > 0], and
    then [values[0]]. *)
Definition first_exception (event : SentryEvent) : option ExceptionValue :=
  match exception event with
  | Some {| values := Some (exc :: _) |} => Some exc
  | _ => None
  end.

Definition default_token : jsstring := js "{{ default }}".

Definition generateFingerprint (event : SentryEvent) : jsstring :=
  let nonDefault :=
    match fingerprint event with
    | Some fp => filter (fun f => negb (jseqb f default_token)) fp
    | None => []
    end in
  match nonDefault with
  | _ :: _ => hashArray nonDefault
  | [] =>
      match first_exception event with
      | Some exc =>
          let parts :=
            [or_default (type exc) (js "Error");
             normalizeMessage (or_default (value exc) [])]
            ++ map formatFrame (getTopFrames (stacktrace exc) 3) in
          hashArray parts
      | None =>
          if truthy (message event) then
            hashArray [or_default (level event) (js "error");
                       normalizeMessage (or_default (message event) [])]
          else
            hashArray [match event_id event with Some e => e | None => js "" end]
      end
  end.

(** [value.length > n ? value.slice(0, n - 3) + '...' : value] *)
Definition truncate (n : nat) (s : jsstring) : jsstring :=
  if (n <? List.length s)%nat then firstn (n - 3) s ++ js "..." else s.

Definition extractTitle (event : SentryEvent) : jsstring :=
  match first_exception event with
  | Some exc =>
      or_default (type exc) (js "Error") ++ js ": "
      ++ truncate 100 (or_default (value exc) [])
  | None =>
      if truthy (message event)
      then truncate 128 (or_default (message event) [])
      else js "Unknown Error"
  end.

Definition extractCulprit (event : SentryEvent) : option jsstring :=
  if truthy (transaction event) then transaction event
  else
    match first_exception event with
    | Some exc =>
        match getTopFrame (stacktrace exc) with
        | Some frame =>
            let p1 := if truthy (filename frame)
                      then [or_default (filename frame) []] else [] in
            let p2 := if truthy (function frame)
                         && negb (jseqb (or_default (function frame) []) (js "<anonymous>"))
                      then [js "in " ++ or_default (function frame) []] else [] in
            let p3 := match lineno frame with
                      | Some n => if truthy_num (Some n)
                                  then [js "at line " ++ String_of_int n] else []
                      | None => []
                      end in
            match p1 ++ p2 ++ p3 with
            | [] => None
            | parts => Some (join (js " ") parts)
            end
        | None => None
        end
    | None => None
    end.

Definition extractMetadata (event : SentryEvent) : IssueMetadata.t :=
  match first_exception event with
  | Some exc =>
      let top := getTopFrame (stacktrace exc) in
      {| IssueMetadata.type := or_default (type exc) (js "Error");
         IssueMetadata.value := firstn 200 (or_default (value exc) []);
         IssueMetadata.filename :=
           match top with Some frame => filename frame | None => None end;
         IssueMetadata.function :=
           match top with Some frame => function frame | None => None end |}
  | None =>
      if truthy (message event) then
        {| IssueMetadata.type := js "Message";
           IssueMetadata.value := firstn 200 (or_default (message event) []);
           IssueMetadata.filename := None;
           IssueMetadata.function := None |}
      else
        {| IssueMetadata.type := js "Error";
           IssueMetadata.value := [];
           IssueMetadata.filename := None;
           IssueMetadata.function := None |}
  end.

(** ** The shard's tables (SCHEMA of project-state.ts)

    A table is the list of its rows in insertion order. *)

Module Issues.
Record row := {
  id : jsstring;
  fingerprint : jsstring;
  title : jsstring;
  culprit : option jsstring;
  level : jsstring;
  platform : jsstring;
  first_seen : jsstring;
  last_seen : jsstring;
  count : Z;
  user_count : Z;
  status : jsstring;
  metadata : IssueMetadata.t
}.

Definition set_seen (now : jsstring) (r : row) : row :=
  {| id := id r; fingerprint := fingerprint r; title := title r;
     culprit := culprit r; level := level r; platform := platform r;
     first_seen := first_seen r; last_seen := now; count := count r + 1;
     user_count := user_count r; status := status r; metadata := metadata r |}.

Definition bump_user_count (r : row) : row :=
  {| id := id r; fingerprint := fingerprint r; title := title r;
     culprit := culprit r; level := level r; platform := platform r;
     first_seen := first_seen r; last_seen := last_seen r; count := count r;
     user_count := user_count r + 1; status := status r; metadata := metadata r |}.

Definition set_status (st : jsstring) (r : row) : row :=
  {| id := id r; fingerprint := fingerprint r; title := title r;
     culprit := culprit r; level := level r; platform := platform r;
     first_seen := first_seen r; last_seen := last_seen r; count := count r;
     user_count := user_count r; status := st; metadata := metadata r |}.
End Issues.

Module Events.
Record row := {
  id : jsstring;
  issue_id : jsstring;
  timestamp : jsstring;
  received_at : jsstring;
  level : jsstring;
  platform : option jsstring;
  environment : option jsstring;
  release : option jsstring;
  transaction_name : option jsstring;
  user_id : option jsstring;
  user_email : option jsstring;
  user_ip : option jsstring;
  tags : option (list (jsstring * jsstring));
  data : SentryEvent
}.
End Events.

Module IssueStats.
Record row := {
  issue_id : jsstring;
  bucket : jsstring;
  count : Z
}.

Definition bump (r : row) : row :=
  {| issue_id := issue_id r; bucket := bucket r; count := count r + 1 |}.
End IssueStats.

Module IssueUsers.
Record row := {
  issue_id : jsstring;
  user_hash : jsstring;
  first_seen : jsstring;
  last_seen : jsstring
}.

Definition set_last_seen (now : jsstring) (r : row) : row :=
  {| issue_id := issue_id r; user_hash := user_hash r;
     first_seen := first_seen r; last_seen := now |}.
End IssueUsers.

Record Shard := {
  issues : list Issues.row;
  events : list Events.row;
  issue_stats : list IssueStats.row;
  issue_users : list IssueUsers.row
}.

Definition empty_shard : Shard :=
  {| issues := []; events := []; issue_stats := []; issue_users := [] |}.

(** ** Statements run against the shard

    [sql.exec] either returns or throws; what earlier statements of the
    same request wrote stays written, since the handlers open no
    transaction and catch nothing.  The foreign keys of the schema are
    taken as enforced, as the handler of delete expects ("Delete cascade
    handles events, stats, users"). *)

Inductive Thrown :=
| IssuesConstraint      (* INSERT INTO issues rejected *)
| EventsConstraint      (* INSERT INTO events rejected *)
| StatsConstraint       (* INSERT INTO issue_stats rejected *)
| UsersConstraint       (* INSERT INTO issue_users rejected *)
| InvalidDate           (* toISOString of an invalid Date *)
| NotOneRow.            (* cursor.one() without exactly one row *)

Inductive Outcome (A : Type) :=
| Returned (a : A)
| Threw (e : Thrown).
Arguments Returned {A} a.
Arguments Threw {A} e.

Definition Sql (A : Type) : Type := Shard -> Shard * Outcome A.

Definition ret {A} (a : A) : Sql A := fun s => (s, Returned a).

Definition throw {A} (e : Thrown) : Sql A := fun s => (s, Threw e).

Definition bind {A B} (m : Sql A) (f : A -> Sql B) : Sql B :=
  fun s =>
    match m s with
    | (s', Returned a) => f a s'
    | (s', Threw e) => (s', Threw e)
    end.

Declare Scope sql_scope.
Delimit Scope sql_scope with sql.
Notation "x <- m ;; k" := (bind m (fun x => k))
  (at level 61, m at next level, right associativity) : sql_scope.
Notation "m ;; k" := (bind m (fun _ => k))
  (at level 61, right associativity) : sql_scope.
Local Open Scope sql_scope.

Definition select {A} (f : Shard -> A) : Sql A := fun s => (s, Returned (f s)).

Definition with_issues (f : list Issues.row -> list Issues.row) : Sql unit :=
  fun s => ({| issues := f (issues s); events := events s;
               issue_stats := issue_stats s; issue_users := issue_users s |},
            Returned tt).

Definition with_events (f : list Events.row -> list Events.row) : Sql unit :=
  fun s => ({| issues := issues s; events := f (events s);
               issue_stats := issue_stats s; issue_users := issue_users s |},
            Returned tt).

Definition with_stats (f : list IssueStats.row -> list IssueStats.row) : Sql unit :=
  fun s => ({| issues := issues s; events := events s;
               issue_stats := f (issue_stats s); issue_users := issue_users s |},
            Returned tt).

Definition with_users (f : list IssueUsers.row -> list IssueUsers.row) : Sql unit :=
  fun s => ({| issues := issues s; events := events s;
               issue_stats := issue_stats s; issue_users := f (issue_users s) |},
            Returned tt).

(** [UPDATE t SET ... WHERE p] *)
Definition update_where {R} (p : R -> bool) (f : R -> R) (rows : list R) : list R :=
  map (fun r => if p r then f r else r) rows.

(** [DELETE FROM t WHERE p] *)
Definition delete_where {R} (p : R -> bool) (rows : list R) : list R :=
  filter (fun r => negb (p r)) rows.

Definition has_id (i : jsstring) (r : Issues.row) : bool := jseqb (Issues.id r) i.

Definition of_issue (i : jsstring) (e : Events.row) : bool :=
  jseqb (Events.issue_id e) i.

(** [SELECT id, count FROM issues WHERE fingerprint = ?], first row. *)
Definition select_issue_by_fingerprint (fp : jsstring) : Sql (option Issues.row) :=
  select (fun s => find (fun r => jseqb (Issues.fingerprint r) fp) (issues s)).

(** [UPDATE issues SET last_seen = ?, count = count + 1 WHERE id = ?] *)
Definition update_issue_seen (now issueId : jsstring) : Sql unit :=
  with_issues (update_where (has_id issueId) (Issues.set_seen now)).

(** [INSERT INTO issues]: [id] is the primary key and [fingerprint] is
    UNIQUE. *)
Definition insert_issue (r : Issues.row) : Sql unit :=
  clash <- select (fun s =>
    existsb (fun x => jseqb (Issues.id x) (Issues.id r)
                      || jseqb (Issues.fingerprint x) (Issues.fingerprint r))
            (issues s)) ;;
  if clash then throw IssuesConstraint else with_issues (fun rows => rows ++ [r]).

(** [INSERT INTO events]: [id] is the primary key and [issue_id]
    references [issues(id)]. *)
Definition insert_event (r : Events.row) : Sql unit :=
  clash <- select (fun s =>
    existsb (fun x => jseqb (Events.id x) (Events.id r)) (events s)
    || negb (existsb (has_id (Events.issue_id r)) (issues s))) ;;
  if clash then throw EventsConstraint else with_events (fun rows => rows ++ [r]).

Definition stat_key (issueId bucket : jsstring) (r : IssueStats.row) : bool :=
  jseqb (IssueStats.issue_id r) issueId && jseqb (IssueStats.bucket r) bucket.

(** [INSERT INTO issue_stats ... VALUES (?, ?, 1)
     ON CONFLICT (issue_id, bucket) DO UPDATE SET count = count + 1];
    [issue_id] references [issues(id)]. *)
Definition upsert_stat (issueId bucket : jsstring) : Sql unit :=
  orphan <- select (fun s => negb (existsb (has_id issueId) (issues s))) ;;
  if orphan then throw StatsConstraint else
  with_stats (fun rows =>
    if existsb (stat_key issueId bucket) rows
    then update_where (stat_key issueId bucket) IssueStats.bump rows
    else rows ++ [{| IssueStats.issue_id := issueId;
                     IssueStats.bucket := bucket;
                     IssueStats.count := 1 |}]).

Definition user_key (issueId userHash : jsstring) (r : IssueUsers.row) : bool :=
  jseqb (IssueUsers.issue_id r) issueId && jseqb (IssueUsers.user_hash r) userHash.

(** [UPDATE issue_users SET last_seen = ? WHERE issue_id = ? AND user_hash = ?] *)
Definition update_user_seen (now issueId userHash : jsstring) : Sql unit :=
  with_users (update_where (user_key issueId userHash) (IssueUsers.set_last_seen now)).

(** [INSERT INTO issue_users]: [(issue_id, user_hash)] is the primary key
    and [issue_id] references [issues(id)]. *)
Definition insert_user (r : IssueUsers.row) : Sql unit :=
  clash <- select (fun s =>
    existsb (user_key (IssueUsers.issue_id r) (IssueUsers.user_hash r)) (issue_users s)
    || negb (existsb (has_id (IssueUsers.issue_id r)) (issues s))) ;;
  if clash then throw UsersConstraint else with_users (fun rows => rows ++ [r]).

(** [UPDATE issues SET user_count = user_count + 1 WHERE id = ?] *)
Definition bump_user_count (issueId : jsstring) : Sql unit :=
  with_issues (update_where (has_id issueId) Issues.bump_user_count).

(** [UPDATE issues SET status = ? WHERE id = ?] *)
Definition update_issue_status (st issueId : jsstring) : Sql unit :=
  with_issues (update_where (has_id issueId) (Issues.set_status st)).

(** [DELETE FROM issues WHERE id = ?]; the three dependent tables
    declare [ON DELETE CASCADE]. *)
Definition delete_issue (issueId : jsstring) : Sql unit :=
  fun s =>
    ({| issues := delete_where (has_id issueId) (issues s);
        events := delete_where (of_issue issueId) (events s);
        issue_stats :=
          delete_where (fun r => jseqb (IssueStats.issue_id r) issueId) (issue_stats s);
        issue_users :=
          delete_where (fun r => jseqb (IssueUsers.issue_id r) issueId) (issue_users s) |},
     Returned tt).

(** ** The shard's handlers (class ProjectState) *)

(** What one call of [handleIngest] draws from the runtime. *)
Record Drawn := {
  now : jsstring;               (* new Date().toISOString() *)
  randomUUID_event : jsstring;  (* crypto.randomUUID() for the event id *)
  randomUUID_issue : jsstring   (* crypto.randomUUID() for a new issue *)
}.

Record IngestResult := {
  eventId : jsstring;
  issueId : jsstring
}.

Section Handlers.

(** Lower-case hex of the SHA-256 digest of the UTF-8 encoding. *)
Variable sha256_hex : jsstring -> jsstring.

(** [new Date(timestamp)], [setMinutes(0, 0, 0)], [toISOString()];
    [None] when the date is invalid, where [toISOString] throws. *)
Variable Date_hour_start : jsstring -> option jsstring.

(** [cursor.one()] on a result without exactly one row.  The runtime
    documents that it throws; the handlers test its result as if it
    were null.  [one_throws = true] is the documented behaviour,
    [false] the one the handlers are written for. *)
Variable one_throws : bool.

Definition one {A} (rows : list A) : Sql (option A) :=
  match rows with
  | [r] => ret (Some r)
  | [] => if one_throws then throw NotOneRow else ret None
  | r :: _ => if one_throws then throw NotOneRow else ret (Some r)
  end.

Definition getHourBucket (timestamp : jsstring) : Sql jsstring :=
  match Date_hour_start timestamp with
  | Some b => ret b
  | None => throw InvalidDate
  end.

Definition hashUserIdentifier (user : option EventUser.t) : option jsstring :=
  match user with
  | None => None
  | Some u =>
      let identifier :=
        or_else (EventUser.id u)
          (or_else (EventUser.email u)
             (or_else (EventUser.ip_address u) (EventUser.username u))) in
      if truthy identifier
      then Some (firstn 32 (sha256_hex (or_default identifier [])))
      else None
  end.

(** Lines 145-162: the row of a new issue. *)
Definition new_issue (event : SentryEvent) (rt : Drawn) : Issues.row :=
  {| Issues.id := randomUUID_issue rt;
     Issues.fingerprint := generateFingerprint event;
     Issues.title := extractTitle event;
     Issues.culprit := extractCulprit event;
     Issues.level := or_default (level event) (js "error");
     Issues.platform := or_default (platform event) (js "javascript");
     Issues.first_seen := now rt;
     Issues.last_seen := now rt;
     Issues.count := 1;
     Issues.user_count := 0;
     Issues.status := js "unresolved";
     Issues.metadata := extractMetadata event |}.

(** Lines 133-163: find the issue of this fingerprint and bump it, or
    create it.  Yields the issue id. *)
Definition ingest_issue (event : SentryEvent) (rt : Drawn) : Sql jsstring :=
  existingIssue <- select_issue_by_fingerprint (generateFingerprint event) ;;
  match existingIssue with
  | Some existing =>
      update_issue_seen (now rt) (Issues.id existing) ;;
      ret (Issues.id existing)
  | None =>
      insert_issue (new_issue event rt) ;;
      ret (randomUUID_issue rt)
  end.

(** Lines 166-183: the row of the event. *)
Definition event_row (event : SentryEvent) (rt : Drawn) (issueId : jsstring)
  : Events.row :=
  {| Events.id := or_default (event_id event) (randomUUID_event rt);
     Events.issue_id := issueId;
     Events.timestamp := or_default (timestamp event) (now rt);
     Events.received_at := now rt;
     Events.level := or_default (level event) (js "error");
     Events.platform := or_null (platform event);
     Events.environment := or_null (environment event);
     Events.release := or_null (release event);
     Events.transaction_name := or_null (transaction event);
     Events.user_id :=
       match user event with Some u => or_null (EventUser.id u) | None => None end;
     Events.user_email :=
       match user event with Some u => or_null (EventUser.email u) | None => None end;
     Events.user_ip :=
       match user event with Some u => or_null (EventUser.ip_address u) | None => None end;
     Events.tags := tags event;
     Events.data := event |}.

(** Lines 185-193: the hourly bucket. *)
Definition ingest_stats (event : SentryEvent) (rt : Drawn) (issueId : jsstring)
  : Sql unit :=
  bucket <- getHourBucket (or_default (timestamp event) (now rt)) ;;
  upsert_stat issueId bucket.

(** Lines 195-222: unique users. *)
Definition ingest_user (event : SentryEvent) (rt : Drawn) (issueId : jsstring)
  : Sql unit :=
  match user event with
  | Some u =>
      let userHash := hashUserIdentifier (Some u) in
      if truthy userHash then
        rows <- select (fun s =>
          filter (user_key issueId (or_default userHash [])) (issue_users s)) ;;
        existingUser <- one rows ;;
        match existingUser with
        | Some _ => update_user_seen (now rt) issueId (or_default userHash [])
        | None =>
            insert_user
              {| IssueUsers.issue_id := issueId;
                 IssueUsers.user_hash := or_default userHash [];
                 IssueUsers.first_seen := now rt;
                 IssueUsers.last_seen := now rt |} ;;
            bump_user_count issueId
        end
      else ret tt
  | None => ret tt
  end.

Definition handleIngest (event : SentryEvent) (rt : Drawn) : Sql IngestResult :=
  issueId <- ingest_issue event rt ;;
  insert_event (event_row event rt issueId) ;;
  ingest_stats event rt issueId ;;
  ingest_user event rt issueId ;;
  ret {| eventId := or_default (event_id event) (randomUUID_event rt);
         issueId := issueId |}.

End Handlers.

(** ** Reading issues back *)

Module Issue.
(** The [Issue] object of types.ts, as [rowToIssue] builds it. *)
Record t := {
  id : jsstring;
  fingerprint : jsstring;
  title : jsstring;
  culprit : option jsstring;
  level : jsstring;
  platform : jsstring;
  firstSeen : jsstring;
  lastSeen : jsstring;
  count : Z;
  userCount : Z;
  status : jsstring;
  metadata : IssueMetadata.t
}.
End Issue.

Definition rowToIssue (row : Issues.row) : Issue.t :=
  {| Issue.id := Issues.id row;
     Issue.fingerprint := Issues.fingerprint row;
     Issue.title := Issues.title row;
     Issue.culprit := Issues.culprit row;
     Issue.level := Issues.level row;
     Issue.platform := Issues.platform row;
     Issue.firstSeen := Issues.first_seen row;
     Issue.lastSeen := Issues.last_seen row;
     Issue.count := Issues.count row;
     Issue.userCount := Issues.user_count row;
     Issue.status := Issues.status row;
     Issue.metadata := Issues.metadata row |}.

(** A JavaScript value, as far as a property of an [Issue] can be one. *)
Inductive JsValue :=
| JsUndefined
| JsNull
| JsString (s : jsstring)
| JsNumber (n : Z)
| JsObject (m : IssueMetadata.t).

Definition js_opt (x : option jsstring) : JsValue :=
  match x with
  | Some s => JsString s
  | None => JsNull
  end.

(** [issue[key]]: property names are those of the object, case and all. *)
Definition Issue_get (key : jsstring) (i : Issue.t) : JsValue :=
  if jseqb key (js "id") then JsString (Issue.id i)
  else if jseqb key (js "fingerprint") then JsString (Issue.fingerprint i)
  else if jseqb key (js "title") then JsString (Issue.title i)
  else if jseqb key (js "culprit") then js_opt (Issue.culprit i)
  else if jseqb key (js "level") then JsString (Issue.level i)
  else if jseqb key (js "platform") then JsString (Issue.platform i)
  else if jseqb key (js "firstSeen") then JsString (Issue.firstSeen i)
  else if jseqb key (js "lastSeen") then JsString (Issue.lastSeen i)
  else if jseqb key (js "count") then JsNumber (Issue.count i)
  else if jseqb key (js "userCount") then JsNumber (Issue.userCount i)
  else if jseqb key (js "status") then JsString (Issue.status i)
  else if jseqb key (js "metadata") then JsObject (Issue.metadata i)
  else JsUndefined.

(** *** JSON text of the metadata column *)

Definition is_high_surrogate (c : Z) : bool := in_range 55296 56319 c.
Definition is_low_surrogate (c : Z) : bool := in_range 56320 57343 c.

Definition json_escape_unit (c : Z) : jsstring :=
  if c =? 8 then js "\b"
  else if c =? 9 then js "\t"
  else if c =? 10 then js "\n"
  else if c =? 12 then js "\f"
  else if c =? 13 then js "\r"
  else if c =? 34 then [92; 34]
  else if c =? 92 then [92; 92]
  else if (c <? 32) || is_high_surrogate c || is_low_surrogate c
       then js "\u" ++ padStart0 4 (digits 16 c)
  else [c].

(** QuoteJSONString without the quotes: a surrogate pair is copied, a
    lone surrogate is escaped. *)
Fixpoint json_escape (s : jsstring) : jsstring :=
  match s with
  | [] => []
  | c :: t =>
      match t with
      | d :: t' =>
          if is_high_surrogate c && is_low_surrogate d
          then c :: d :: json_escape t'
          else json_escape_unit c ++ json_escape t
      | [] => json_escape_unit c
      end
  end.

Definition json_string (s : jsstring) : jsstring := [34] ++ json_escape s ++ [34].

Definition json_member (key : string) (v : option jsstring) : jsstring :=
  match v with
  | Some s => js "," ++ json_string (js key) ++ js ":" ++ json_string s
  | None => []
  end.

(** [JSON.stringify(metadata)] *)
Definition metadata_text (m : IssueMetadata.t) : jsstring :=
  js "{" ++ json_string (js "type") ++ js ":" ++ json_string (IssueMetadata.type m)
  ++ json_member "value" (Some (IssueMetadata.value m))
  ++ json_member "filename" (IssueMetadata.filename m)
  ++ json_member "function" (IssueMetadata.function m)
  ++ js "}".

(** *** SQL values, comparison and LIKE *)

Inductive SqlValue :=
| SqlNull
| SqlInteger (n : Z)
| SqlText (s : jsstring).

(** Text is compared unit by unit.  SQLite compares the bytes of the
    UTF-8 encoding, which is the same order as long as no character
    outside the Basic Multilingual Plane is involved. *)
Fixpoint text_compare (a b : jsstring) : comparison :=
  match a, b with
  | [], [] => Eq
  | [], _ :: _ => Lt
  | _ :: _, [] => Gt
  | x :: a', y :: b' =>
      match x ?= y with
      | Eq => text_compare a' b'
      | c => c
      end
  end.

(** NULL sorts first, then numbers, then text. *)
Definition sql_compare (a b : SqlValue) : comparison :=
  match a, b with
  | SqlNull, SqlNull => Eq
  | SqlNull, _ => Lt
  | _, SqlNull => Gt
  | SqlInteger x, SqlInteger y => x ?= y
  | SqlInteger _, SqlText _ => Lt
  | SqlText _, SqlInteger _ => Gt
  | SqlText x, SqlText y => text_compare x y
  end.

Definition ascii_lower (c : Z) : Z := if is_upper c then c + 32 else c.

(** [text LIKE pat]: [%] is any run, [_] any one character, letters of
    ASCII match without regard to case. *)
Fixpoint like (pat text : jsstring) {struct pat} : bool :=
  match pat with
  | [] => match text with [] => true | _ :: _ => false end
  | c :: pat' =>
      if c =? 37 then
        (fix any (t : jsstring) : bool :=
           like pat' t || match t with [] => false | _ :: t' => any t' end) text
      else
        match text with
        | [] => false
        | x :: text' =>
            ((c =? 95) || (ascii_lower x =? ascii_lower c)) && like pat' text'
        end
  end.

Definition like_opt (pat : jsstring) (text : option jsstring) : bool :=
  match text with
  | Some t => like pat t
  | None => false
  end.

(** A column of [issues]: how to read it, and whether its declared
    type is INTEGER. *)
Record Column := {
  col_value : Issues.row -> SqlValue;
  col_integer : bool
}.

Definition text_column (f : Issues.row -> jsstring) : option Column :=
  Some {| col_value := fun r => SqlText (f r); col_integer := false |}.

Definition integer_column (f : Issues.row -> Z) : option Column :=
  Some {| col_value := fun r => SqlInteger (f r); col_integer := true |}.

Definition issues_column (name : jsstring) : option Column :=
  if jseqb name (js "id") then text_column Issues.id
  else if jseqb name (js "fingerprint") then text_column Issues.fingerprint
  else if jseqb name (js "title") then text_column Issues.title
  else if jseqb name (js "culprit") then
    Some {| col_value := fun r => match Issues.culprit r with
                                  | Some s => SqlText s
                                  | None => SqlNull
                                  end;
            col_integer := false |}
  else if jseqb name (js "level") then text_column Issues.level
  else if jseqb name (js "platform") then text_column Issues.platform
  else if jseqb name (js "first_seen") then text_column Issues.first_seen
  else if jseqb name (js "last_seen") then text_column Issues.last_seen
  else if jseqb name (js "count") then integer_column Issues.count
  else if jseqb name (js "user_count") then integer_column Issues.user_count
  else if jseqb name (js "status") then text_column Issues.status
  else if jseqb name (js "metadata") then
    text_column (fun r => metadata_text (Issues.metadata r))
  else None.

(** A decimal integer literal of at most eighteen digits. *)
Definition parse_digits (s : jsstring) : option Z :=
  if forallb is_digit s && (0 <? List.length s)%nat && (List.length s <=? 18)%nat
  then Some (fold_left (fun acc c => acc * 10 + (c - 48)) s 0)
  else None.

Definition parse_integer (s : jsstring) : option Z :=
  match s with
  | c :: t =>
      if c =? 45 then option_map Z.opp (parse_digits t)
      else if c =? 43 then parse_digits t
      else parse_digits s
  | [] => None
  end.

(** [a < b] in a WHERE clause: a comparison with NULL selects nothing. *)
Definition sql_lt (a b : SqlValue) : bool :=
  match a with
  | SqlNull => false
  | _ => match sql_compare a b with Lt => true | _ => false end
  end.

(** [column < ?] with the cursor bound as text.  Against an INTEGER
    column SQLite first turns a numeric-looking text into a number; the
    model follows that for integer literals and declines the rest. *)
Definition below_cursor (col : Column) (cursor : jsstring)
  : option (Issues.row -> bool) :=
  if col_integer col then
    match parse_integer cursor with
    | Some n => Some (fun r => sql_lt (col_value col r) (SqlInteger n))
    | None => None
    end
  else Some (fun r => sql_lt (col_value col r) (SqlText cursor)).

(** [ORDER BY key DESC]; rows with equal keys stay in table order. *)
Fixpoint insert_desc (key : Issues.row -> SqlValue) (r : Issues.row)
         (sorted : list Issues.row) : list Issues.row :=
  match sorted with
  | [] => [r]
  | x :: rest =>
      match sql_compare (key x) (key r) with
      | Lt => r :: sorted
      | _ => x :: insert_desc key r rest
      end
  end.

Definition order_by_desc (key : Issues.row -> SqlValue) (rows : list Issues.row)
  : list Issues.row :=
  fold_left (fun acc r => insert_desc key r acc) rows [].

(** [LIMIT n]: a negative limit means no limit. *)
Definition sql_limit {A} (n : Z) (rows : list A) : list A :=
  if n <? 0 then rows else firstn (Z.to_nat n) rows.

(** [rows.slice(0, end)] *)
Definition slice0 {A} (end_ : Z) (rows : list A) : list A :=
  let len := Z.of_nat (List.length rows) in
  let stop := if end_ <? 0 then Z.max (len + end_) 0 else Z.min end_ len in
  firstn (Z.to_nat stop) rows.

Module GetIssues.
(** The body of an [/issues] request, and its answer. *)
Record request := {
  status : option jsstring;
  level : option jsstring;
  query : option jsstring;
  sort : option jsstring;
  cursor : option jsstring;
  limit : option Z
}.

Record response := {
  issues : list Issue.t;
  nextCursor : JsValue;
  hasMore : bool
}.
End GetIssues.

(** [Math.min(limit || 25, 100)] *)
Definition pageLimit_of (limit : option Z) : Z :=
  Z.min (match limit with
         | Some l => if l =? 0 then 25 else l
         | None => 25
         end) 100.

Definition when_given (x : option jsstring) (p : jsstring -> Issues.row -> bool)
  : Issues.row -> bool :=
  fun r => if truthy x then p (or_default x []) r else true.

(** The rows the SELECT of [handleGetIssues] yields.  [None]: the
    request is outside the model, because [sort] is spliced into the SQL
    text and is not one of the twelve column names in lower case, or
    because [below_cursor] declines. *)
Definition select_issues (req : GetIssues.request) (s : Shard)
  : option (list Issues.row) :=
  let pageLimit := pageLimit_of (GetIssues.limit req) in
  let sortField := or_default (GetIssues.sort req) (js "last_seen") in
  match issues_column sortField with
  | None => None
  | Some col =>
      let below :=
        if truthy (GetIssues.cursor req)
        then below_cursor col (or_default (GetIssues.cursor req) [])
        else Some (fun _ => true) in
      match below with
      | None => None
      | Some below =>
          let pattern := js "%" ++ or_default (GetIssues.query req) [] ++ js "%" in
          let matching :=
            filter (fun r =>
              when_given (GetIssues.status req)
                (fun v r => jseqb (Issues.status r) v) r
              && when_given (GetIssues.level req)
                   (fun v r => jseqb (Issues.level r) v) r
              && when_given (GetIssues.query req)
                   (fun _ r => like pattern (Issues.title r)
                               || like_opt pattern (Issues.culprit r)) r
              && below r)
              (issues s) in
          Some (sql_limit (pageLimit + 1) (order_by_desc (col_value col) matching))
      end
  end.

Definition handleGetIssues (req : GetIssues.request) (s : Shard)
  : option GetIssues.response :=
  let pageLimit := pageLimit_of (GetIssues.limit req) in
  let sortField := or_default (GetIssues.sort req) (js "last_seen") in
  match select_issues req s with
  | None => None
  | Some rows =>
      let hasMore := Z.of_nat (List.length rows) >? pageLimit in
      let issues := map rowToIssue (slice0 pageLimit rows) in
      let nextCursor :=
        match hasMore, rev issues with
        | true, last :: _ => Issue_get sortField last
        | _, _ => JsUndefined
        end in
      Some {| GetIssues.issues := issues;
              GetIssues.nextCursor := nextCursor;
              GetIssues.hasMore := hasMore |}
  end.

Inductive UpdateResponse :=
| MissingIssueId                       (* 400 missing_issue_id *)
| NoUpdates                            (* 400 no_updates *)
| Updated (issue : option Issue.t).    (* 200 { issue } *)

Inductive DeleteResponse :=
| DeleteMissingIssueId                 (* 400 missing_issue_id *)
| Deleted.                             (* 200 { success: true } *)

Section ReadWrite.

Variable one_throws : bool.

Definition handleUpdateIssue (issueId : jsstring) (status : option jsstring)
  : Sql UpdateResponse :=
  match issueId with
  | [] => ret MissingIssueId
  | _ :: _ =>
      if truthy status then
        update_issue_status (or_default status []) issueId ;;
        rows <- select (fun s => filter (has_id issueId) (issues s)) ;;
        row <- one one_throws rows ;;
        ret (Updated (option_map rowToIssue row))
      else ret NoUpdates
  end.

Definition handleDeleteIssue (issueId : jsstring) : Sql DeleteResponse :=
  match issueId with
  | [] => ret DeleteMissingIssueId
  | _ :: _ => delete_issue issueId ;; ret Deleted
  end.

End ReadWrite.

(** ** The ingestion coordinator (routes/ingestion)

    Authentication and the decoding of the body involve the registry and
    the JSON parser; the model starts from the decoded body. *)

Module EnvelopeItem.
Record t := {
  type : jsstring;
  payload : SentryEvent
}.
End EnvelopeItem.

Record ParsedEnvelope := { items : list EnvelopeItem.t }.

Definition with_event_id (i : jsstring) (e : SentryEvent) : SentryEvent :=
  {| event_id := Some i; timestamp := timestamp e; platform := platform e;
     level := level e; transaction := transaction e; release := release e;
     environment := environment e; tags := tags e; user := user e;
     exception := exception e; fingerprint := fingerprint e;
     message := message e |}.

Definition with_timestamp (t : jsstring) (e : SentryEvent) : SentryEvent :=
  {| event_id := event_id e; timestamp := Some t; platform := platform e;
     level := level e; transaction := transaction e; release := release e;
     environment := environment e; tags := tags e; user := user e;
     exception := exception e; fingerprint := fingerprint e;
     message := message e |}.

(** [extractEvents]; [drawn k] is what the runtime hands out at the
    [k]-th item: a UUID and the current time. *)
Fixpoint extractEvents_from (k : nat) (drawn : nat -> jsstring * jsstring)
         (items : list EnvelopeItem.t) : list SentryEvent :=
  match items with
  | [] => []
  | item :: rest =>
      if jseqb (EnvelopeItem.type item) (js "event")
         || jseqb (EnvelopeItem.type item) (js "transaction")
      then
        let event := EnvelopeItem.payload item in
        let event :=
          if truthy (event_id event) then event
          else with_event_id
                 (filter (fun c => negb (c =? 45)) (fst (drawn k))) event in
        let event :=
          if truthy (timestamp event) then event
          else with_timestamp (snd (drawn k)) event in
        event :: extractEvents_from (S k) drawn rest
      else extractEvents_from (S k) drawn rest
  end.

Definition extractEvents (drawn : nat -> jsstring * jsstring)
           (envelope : ParsedEnvelope) : list SentryEvent :=
  extractEvents_from O drawn (items envelope).

(** The decoded request body: one raw JSON event (legacy store
    endpoint) or an envelope. *)
Inductive Body :=
| RawEvent (event : SentryEvent)
| Envelope (envelope : ParsedEnvelope).

(** Lines 251-262: the events of a body. *)
Definition events_of_body (parse_drawn : nat -> jsstring * jsstring) (body : Body)
  : list SentryEvent :=
  match body with
  | RawEvent event => [event]
  | Envelope envelope => extractEvents parse_drawn envelope
  end.

Module IngestionResponse.
Record t := {
  id : option jsstring;
  message : option jsstring
}.
End IngestionResponse.

Section Coordinator.

Variable sha256_hex : jsstring -> jsstring.
Variable Date_hour_start : jsstring -> option jsstring.
Variable one_throws : bool.

(** The loop over the events: each is sent to the shard in turn; what
    the shard answers to the [k]-th one is kept in order. *)
Fixpoint ingest_each (k : nat) (drawn : nat -> Drawn) (events : list SentryEvent)
         (s : Shard) : Shard * list (Outcome IngestResult) :=
  match events with
  | [] => (s, [])
  | event :: rest =>
      let (s1, answer) :=
        handleIngest sha256_hex Date_hour_start one_throws event (drawn k) s in
      let (s2, answers) := ingest_each (S k) drawn rest s1 in
      (s2, answer :: answers)
  end.

(** [results]: the bodies of the answers with [response.ok]. *)
Fixpoint results_of (answers : list (Outcome IngestResult)) : list IngestResult :=
  match answers with
  | [] => []
  | Returned r :: rest => r :: results_of rest
  | Threw _ :: rest => results_of rest
  end.

(** [firstResult?.eventId || events[0]?.event_id || null] *)
Definition response_id (results : list IngestResult) (events : list SentryEvent)
  : option jsstring :=
  or_null
    (or_else (option_map eventId (hd_error results))
             (match hd_error events with
              | Some e => event_id e
              | None => None
              end)).

Definition handleIngestion (body : Body) (parse_drawn : nat -> jsstring * jsstring)
           (drawn : nat -> Drawn) (s : Shard) : Shard * IngestionResponse.t :=
  let events := events_of_body parse_drawn body in
  match events with
  | [] => (s, {| IngestionResponse.id := None;
                 IngestionResponse.message := Some (js "No events in envelope") |})
  | _ :: _ =>
      let (s', answers) := ingest_each O drawn events s in
      (s', {| IngestionResponse.id := response_id (results_of answers) events;
              IngestionResponse.message := None |})
  end.

(** ** Sequences of writes on one shard *)

Inductive Op :=
| Ingest (event : SentryEvent) (rt : Drawn)
| UpdateIssue (issueId : jsstring) (status : option jsstring)
| DeleteIssue (issueId : jsstring).

Definition step (s : Shard) (op : Op) : Shard :=
  match op with
  | Ingest event rt =>
      fst (handleIngest sha256_hex Date_hour_start one_throws event rt s)
  | UpdateIssue issueId status => fst (handleUpdateIssue one_throws issueId status s)
  | DeleteIssue issueId => fst (handleDeleteIssue issueId s)
  end.

Definition run (ops : list Op) (s : Shard) : Shard := fold_left step ops s.

End Coordinator.


(** ** More of the envelope parser *)

(** [s.startsWith(p)] *)
Fixpoint startsWith (p s : jsstring) : bool :=
  match p, s with
  | [], _ => true
  | x :: p', y :: s' => (x =? y) && startsWith p' s'
  | _ :: _, [] => false
  end.

(** [s.split(sep)] for a one-unit separator; never empty. *)
Fixpoint split_on (sep : Z) (s : jsstring) : list jsstring :=
  match s with
  | [] => [[]]
  | c :: t =>
      if c =? sep then [] :: split_on sep t
      else
        match split_on sep t with
        | p :: ps => (c :: p) :: ps
        | [] => [[c]]
        end
  end.

(** The loop of [extractKeyFromAuthHeader]: [const [key, value] =
    part.trim().split('=')], and the first [sentry_key] decides, also
    when its value is undefined. *)
Fixpoint scan_auth_parts (parts : list jsstring) : option jsstring :=
  match parts with
  | [] => None
  | part :: rest =>
      match split_on 61 (trim part) with
      | key :: more =>
          if jseqb key (js "sentry_key") then hd_error more
          else scan_auth_parts rest
      | [] => scan_auth_parts rest
      end
  end.

Definition extractKeyFromAuthHeader (header : jsstring) : option jsstring :=
  if startsWith (js "Sentry ") header
  then scan_auth_parts (split_on 44 (skipn 7 header))
  else None.

(** ** More of the shard: reading *)

(** [ORDER BY key DESC] and [ORDER BY key ASC] on any table; rows with
    equal keys stay in table order. *)
Fixpoint place_desc {R} (key : R -> SqlValue) (r : R) (sorted : list R) : list R :=
  match sorted with
  | [] => [r]
  | x :: rest =>
      match sql_compare (key x) (key r) with
      | Lt => r :: sorted
      | _ => x :: place_desc key r rest
      end
  end.

Definition sort_desc {R} (key : R -> SqlValue) (rows : list R) : list R :=
  fold_left (fun acc r => place_desc key r acc) rows [].

Inductive GetIssueResponse :=
| IssueNotFound                                         (* 404 issue_not_found *)
| IssueFound (issue : Issue.t) (stats : list (jsstring * Z)).

(** [handleGetIssue]: the issue and its 168 latest hourly buckets. *)
Definition handleGetIssue (issueId : jsstring) (s : Shard) : GetIssueResponse :=
  match filter (has_id issueId) (issues s) with
  | [] => IssueNotFound
  | row :: _ =>
      let statsRows :=
        sql_limit 168
          (sort_desc (fun r => SqlText (IssueStats.bucket r))
             (filter (fun r => jseqb (IssueStats.issue_id r) issueId) (issue_stats s))) in
      IssueFound (rowToIssue row)
        (map (fun r => (IssueStats.bucket r, IssueStats.count r)) statsRows)
  end.

Module GetIssueEvents.
Record request := {
  issueId : jsstring;
  cursor : option jsstring;
  limit : option Z
}.

Record response := {
  events : list SentryEvent;
  nextCursor : option jsstring;
  hasMore : bool
}.
End GetIssueEvents.



Inductive GetEventResponse :=
| EventNotFound                                         (* 404 event_not_found *)
| EventFound (event : SentryEvent) (issueId : jsstring).

Definition handleGetEvent (eventId : jsstring) (s : Shard) : GetEventResponse :=
  match filter (fun r => jseqb (Events.id r) eventId) (events s) with
  | [] => EventNotFound
  | row :: _ => EventFound (Events.data row) (Events.issue_id row)
  end.





Module GetStats.
Record response := {
  total : Z;
  series : list (jsstring * Z)
}.
End GetStats.

Section Stats.

(** [new Date(text).getTime()], [None] for an invalid date;
    [new Date().getTime()]; [new Date(ms).toISOString()], [None] where
    it throws because [ms] is out of the range of dates. *)
Variable Date_parse : jsstring -> option Z.
Variable Date_now : Z.
Variable toISOString : Z -> option jsstring.


End Stats.

(** ** More of the coordinator *)

Section KeyResolution.

(** [atob]; [None] when it throws on invalid base64. *)
Variable atob : jsstring -> option jsstring.

(** Lines 181-213 of [handleIngestion]: the key from the query
    parameter, the [X-Sentry-Auth] header or basic authorization, in
    that order; [None] is the 401 [missing_auth]. *)
Definition resolvePublicKey (sentry_key x_sentry_auth authorization : option jsstring)
  : option jsstring :=
  let publicKey := if truthy sentry_key then sentry_key else None in
  let publicKey :=
    if truthy publicKey then publicKey
    else if truthy x_sentry_auth
         then extractKeyFromAuthHeader (or_default x_sentry_auth [])
         else publicKey in
  let publicKey :=
    if truthy publicKey then publicKey
    else
      match authorization with
      | Some header =>
          if startsWith (js "Basic ") header then
            match atob (skipn 6 header) with
            | Some decoded => hd_error (split_on 58 decoded)
            | None => publicKey
            end
          else publicKey
      | None => publicKey
      end in
  if truthy publicKey then publicKey else None.

End KeyResolution.

Module Rpc.
(** What [SentinelRpc.captureEnvelope] resolves to. *)
Record result := {
  status : Z;
  eventId : option jsstring
}.
End Rpc.

Section RpcEntry.

Variable sha256_hex : jsstring -> jsstring.
Variable Date_hour_start : jsstring -> option jsstring.
Variable one_throws : bool.

(** The loop of [captureEnvelope]: the id of the first accepted event is
    kept, [if (response.ok && !firstEventId)]. *)
Fixpoint capture_each (k : nat) (drawn : nat -> Drawn) (events : list SentryEvent)
         (firstEventId : option jsstring) (s : Shard) : Shard * option jsstring :=
  match events with
  | [] => (s, firstEventId)
  | event :: rest =>
      let (s1, answer) :=
        handleIngest sha256_hex Date_hour_start one_throws event (drawn k) s in
      let firstEventId :=
        match answer with
        | Returned r => if truthy firstEventId then firstEventId else Some (eventId r)
        | Threw _ => firstEventId
        end in
      capture_each (S k) drawn rest firstEventId s1
  end.

(** [captureEnvelope] once the DSN is checked against the registry. *)
Definition captureEnvelope (envelope : ParsedEnvelope)
           (parse_drawn : nat -> jsstring * jsstring) (drawn : nat -> Drawn)
           (s : Shard) : Shard * Rpc.result :=
  match extractEvents parse_drawn envelope with
  | [] => (s, {| Rpc.status := 200; Rpc.eventId := None |})
  | events =>
      let (s', firstEventId) := capture_each O drawn events None s in
      (s', {| Rpc.status := 200; Rpc.eventId := firstEventId |})
  end.

End RpcEntry.
(** * Specification-side definitions *)

(** ** The fingerprinter *)

(** The grouping rule in the words of the specification. *)

Definition is_custom_token (f : jsstring) : bool := negb (jseqb f default_token).

(** "a non-empty list of fingerprint tokens with at least one token not
    equal to the literal" *)
Definition has_explicit_fingerprint (e : SentryEvent) : bool :=
  match fingerprint e with
  | Some fp => existsb is_custom_token fp
  | None => false
  end.

Definition explicit_tokens (e : SentryEvent) : list jsstring :=
  match fingerprint e with
  | Some fp => filter is_custom_token fp
  | None => []
  end.

(** "[type, normalized_message, frame1, frame2, frame3]" *)
Definition exception_tuple (exc : ExceptionValue) : list jsstring :=
  or_default (type exc) (js "Error")
  :: normalizeMessage (or_default (value exc) [])
  :: map formatFrame (getTopFrames (stacktrace exc) 3).

(** "[level_or_"error", normalized_message]" *)
Definition message_tuple (e : SentryEvent) : list jsstring :=
  [or_default (level e) (js "error");
   normalizeMessage (or_default (message e) [])].

Definition grouping_tuple (e : SentryEvent) : list jsstring :=
  if has_explicit_fingerprint e then explicit_tokens e
  else
    match first_exception e with
    | Some exc => exception_tuple exc
    | None =>
        if truthy (message e) then message_tuple e
        else [match event_id e with Some i => i | None => [] end]
    end.


(** ** The shard *)

Definition events_of (s : Shard) (issueId : jsstring) : list Events.row :=
  filter (of_issue issueId) (events s).

(** Count consistency: [I.count == |{events with issue_id = I}|]. *)
Definition count_consistent (s : Shard) : Prop :=
  forall r, In r (issues s) ->
    Issues.count r = Z.of_nat (List.length (events_of s (Issues.id r))).

(** Every event belongs to an issue of the shard. *)
Definition events_reference_issues (s : Shard) : Prop :=
  forall e, In e (events s) -> In (Events.issue_id e) (map Issues.id (issues s)).

(** The two together: what the counters of a shard should satisfy. *)
Definition well_counted (s : Shard) : Prop :=
  count_consistent s /\ events_reference_issues s.

(** What an ingest leaves alone on the row of a known issue. *)
Definition frame_of (r : Issues.row) :=
  (Issues.id r, Issues.fingerprint r, Issues.title r, Issues.culprit r,
   Issues.level r, Issues.platform r, Issues.first_seen r, Issues.status r,
   Issues.metadata r).

(** Everything on an issue row but its user count. *)
Definition core_of (r : Issues.row) :=
  (frame_of r, Issues.last_seen r, Issues.count r).

Definition id_count (r : Issues.row) := (Issues.id r, Issues.count r).

(** A statement keeps a relation between the shard before and after it,
    whether it returns or throws. *)
Definition keeps {A} (R : Shard -> Shard -> Prop) (m : Sql A) : Prop :=
  forall s, R s (fst (m s)).

(** The issues keep their frame. *)
Definition same_frames (s s' : Shard) : Prop :=
  map frame_of (issues s') = map frame_of (issues s).

(** Events are untouched and the issues differ in user counts at most. *)
Definition same_core (s s' : Shard) : Prop :=
  events s' = events s /\ map core_of (issues s') = map core_of (issues s).

Definition valid_status (st : jsstring) : bool :=
  jseqb st (js "unresolved") || jseqb st (js "resolved") || jseqb st (js "ignored").

(** Status closure. *)
Definition status_closed (s : Shard) : Prop :=
  forall r, In r (issues s) -> valid_status (Issues.status r) = true.

Definition closed_to_closed (s s' : Shard) : Prop :=
  status_closed s -> status_closed s'.

(** The op, if it is an update that sets a status, sets one of the three. *)
Definition sets_valid_status (op : Op) : bool :=
  match op with
  | UpdateIssue _ st => if truthy st then valid_status (or_default st []) else true
  | _ => true
  end.

(** No user count of an issue already there has changed. *)
Definition user_counts_kept (s s' : Shard) : Prop :=
  forall r, In r (issues s) ->
    exists r', In r' (issues s') /\ Issues.id r' = Issues.id r
               /\ Issues.user_count r' = Issues.user_count r.

(** The retry of a stored event as section 4.3 words it: it succeeds,
    and leaves events and all counters as they were. *)
Definition idempotent_success (s : Shard) (res : Shard * Outcome IngestResult)
  : Prop :=
  (exists r, snd res = Returned r)
  /\ events (fst res) = events s
  /\ map Issues.count (issues (fst res)) = map Issues.count (issues s)
  /\ issue_stats (fst res) = issue_stats s
  /\ map Issues.user_count (issues (fst res)) = map Issues.user_count (issues s).

Definition is_thrown {A} (o : Outcome A) : bool :=
  match o with
  | Threw _ => true
  | Returned _ => false
  end.

Definition thrown_by_events {A} (o : Outcome A) : bool :=
  match o with
  | Threw EventsConstraint => true
  | _ => false
  end.

Section Runs.

Variable sha256_hex : jsstring -> jsstring.
Variable Date_hour_start : jsstring -> option jsstring.
Variable one_throws : bool.

(** The op is an ingest whose event insert is rejected. *)
Definition event_rejected (s : Shard) (op : Op) : bool :=
  match op with
  | Ingest event rt =>
      thrown_by_events
        (snd (handleIngest sha256_hex Date_hour_start one_throws event rt s))
  | _ => false
  end.

(** No ingest of the run has its event insert rejected. *)
Fixpoint no_event_rejected (ops : list Op) (s : Shard) : bool :=
  match ops with
  | [] => true
  | op :: rest =>
      negb (event_rejected s op)
      && no_event_rejected rest (step sha256_hex Date_hour_start one_throws s op)
  end.

End Runs.

Definition is_event_item (item : EnvelopeItem.t) : bool :=
  jseqb (EnvelopeItem.type item) (js "event")
  || jseqb (EnvelopeItem.type item) (js "transaction").

(** ** Sample data *)

Module Sample.

(** A stand-in for the digest and the usual hour bucket of an ISO
    timestamp in UTC. *)
Definition sha (s : jsstring) : jsstring := firstn 64 (s ++ repeat 48 64).

Definition hour (t : jsstring) : option jsstring :=
  if (List.length t =? 24)%nat then Some (firstn 13 t ++ js ":00:00.000Z") else None.

Definition blank : SentryEvent :=
  {| event_id := None; timestamp := None; platform := None; level := None;
     transaction := None; release := None; environment := None; tags := None;
     user := None; exception := None; fingerprint := None; message := None |}.

Definition with_message (m : string) (e : SentryEvent) : SentryEvent :=
  {| event_id := event_id e; timestamp := timestamp e; platform := platform e;
     level := level e; transaction := transaction e; release := release e;
     environment := environment e; tags := tags e; user := user e;
     exception := exception e; fingerprint := fingerprint e;
     message := Some (js m) |}.

Definition with_exception (v : ExceptionValue) (e : SentryEvent) : SentryEvent :=
  {| event_id := event_id e; timestamp := timestamp e; platform := platform e;
     level := level e; transaction := transaction e; release := release e;
     environment := environment e; tags := tags e; user := user e;
     exception := Some {| values := Some [v] |}; fingerprint := fingerprint e;
     message := message e |}.

Definition with_user (u : string) (e : SentryEvent) : SentryEvent :=
  {| event_id := event_id e; timestamp := timestamp e; platform := platform e;
     level := level e; transaction := transaction e; release := release e;
     environment := environment e; tags := tags e;
     user := Some {| EventUser.id := Some (js u); EventUser.email := None;
                     EventUser.ip_address := None; EventUser.username := None |};
     exception := exception e; fingerprint := fingerprint e;
     message := message e |}.

(** An event with the given id and message, stamped 10:20:30. *)
Definition msg_event (i m : string) : SentryEvent :=
  with_message m
    (with_timestamp (js "2024-01-01T10:20:30.000Z") (with_event_id (js i) blank)).

Definition at_ (t issue : string) : Drawn :=
  {| now := js t;
     randomUUID_event := js "0b0e7a52-1c1b-4f0e-9d57-5b3a6c1f2e00";
     randomUUID_issue := js issue |}.

Definition boom : SentryEvent := msg_event "e1" "boom".
Definition bang : SentryEvent := msg_event "e2" "bang".

(** One issue, one event. *)
Definition after_boom : Shard :=
  fst (handleIngest sha hour true boom (at_ "2024-01-01T10:20:31.000Z" "issue-1")
         empty_shard).

(** The same payload sent again an hour later. *)
Definition retried : Shard * Outcome IngestResult :=
  handleIngest sha hour true boom (at_ "2024-01-01T11:20:31.000Z" "issue-2")
    after_boom.

(** The issue marked resolved, and the same error reported once more
    (a new event id, and a user this time). *)
Definition resolved_boom : Shard :=
  fst (handleUpdateIssue true (js "issue-1") (Some (js "resolved")) after_boom).

Definition boom_again : SentryEvent := with_user "u1" (msg_event "e3" "boom").

(** An update with a status outside the three. *)
Definition wontfix : list Op :=
  [Ingest boom (at_ "2024-01-01T10:20:31.000Z" "issue-1");
   UpdateIssue (js "issue-1") (Some (js "wontfix"))].

(** An envelope with a session, the stored event [e1] once more, and a
    new event; and what the runtime hands out while it is handled. *)
Definition item (t : string) (e : SentryEvent) : EnvelopeItem.t :=
  {| EnvelopeItem.type := js t; EnvelopeItem.payload := e |}.

Definition retry_then_bang : Body :=
  Envelope {| items := [item "session" blank; item "event" boom; item "event" bang] |}.

Definition parse_drawn (k : nat) : jsstring * jsstring :=
  (js "6f1c2d3e-0000-4000-8000-00000000000" ++ String_of_int (Z.of_nat k),
   js "2024-01-01T12:00:00.000Z").

Definition drawn (k : nat) : Drawn :=
  {| now := js "2024-01-01T12:00:00.000Z";
     randomUUID_event := js "0b0e7a52-1c1b-4f0e-9d57-5b3a6c1f2e00";
     randomUUID_issue := js "issue-1" ++ String_of_int (Z.of_nat k) |}.

(** Two issues, the second seen later than the first. *)
Definition two_issues : Shard :=
  fst (handleIngest sha hour true bang (at_ "2024-01-01T11:00:00.000Z" "issue-2")
         after_boom).

Definition first_page : GetIssues.request :=
  {| GetIssues.status := None; GetIssues.level := None; GetIssues.query := None;
     GetIssues.sort := None; GetIssues.cursor := None;
     GetIssues.limit := Some 1 |}.

(** The frames of scenario 1 and the two messages of scenario 3. *)
Definition handleClick : StackFrame :=
  {| filename := Some (js "app.js"); function := Some (js "handleClick");
     lineno := Some 42; in_app := Some true |}.

Definition request_failed (uuid : string) : SentryEvent :=
  with_exception
    {| type := Some (js "TypeError");
       value := Some (js "Request " ++ js uuid ++ js " failed");
       stacktrace := Some {| frames := Some [handleClick] |} |}
    blank.

Definition failed_a : SentryEvent :=
  with_event_id (js "a1")
    (request_failed "abc12345-1234-1234-1234-1234567890ab").

Definition failed_b : SentryEvent :=
  with_event_id (js "b2")
    (request_failed "def67890-4321-4321-4321-0987654321fe").

(** A library frame, and one whose [in_app] is not given. *)
Definition callCallback : StackFrame :=
  {| filename := Some (js "react.js"); function := Some (js "callCallback");
     lineno := Some 100; in_app := Some false |}.

Definition unmarked : StackFrame :=
  {| filename := Some (js "util.js"); function := Some (js "retry");
     lineno := Some 7; in_app := None |}.

(** The [n]-th of a series of events, each with a fingerprint of its own. *)
Definition numbered (n : nat) : Op :=
  let tag := String_of_int (Z.of_nat n) in
  Ingest
    {| event_id := Some (js "event-" ++ tag);
       timestamp := Some (js "2024-01-01T10:20:30.000Z");
       platform := None; level := None; transaction := None; release := None;
       environment := None; tags := None; user := None; exception := None;
       fingerprint := Some [js "series"; tag]; message := None |}
    {| now := js "2024-01-01T10:20:31.000Z";
       randomUUID_event := js "unused";
       randomUUID_issue := js "issue-" ++ tag |}.

(** A shard with 103 issues. *)
Definition crowded : Shard :=
  run sha hour true (map numbered (seq 0 103)) empty_shard.

Definition minus_two : GetIssues.request :=
  {| GetIssues.status := None; GetIssues.level := None; GetIssues.query := None;
     GetIssues.sort := None; GetIssues.cursor := None;
     GetIssues.limit := Some (-2) |}.

End Sample.

(** ** Further notions *)

(** [[0-9a-f]] *)
Definition is_lower_hex (c : Z) : bool := is_digit c || in_range 97 102 c.

Definition no_unit (p : Z -> bool) (s : jsstring) : bool :=
  forallb (fun c => negb (p c)) s.

Definition is_comma (c : Z) : bool := c =? 44.
Definition is_equals (c : Z) : bool := c =? 61.
Definition is_colon (c : Z) : bool := c =? 58.
Definition is_dash (c : Z) : bool := c =? 45.

(** What [extractEvents] makes of the payload of the [k]-th item. *)
Definition completed (parse_drawn : nat -> jsstring * jsstring) (k : nat)
           (event : SentryEvent) : SentryEvent :=
  let event :=
    if truthy (event_id event) then event
    else with_event_id (filter (fun c => negb (c =? 45)) (fst (parse_drawn k))) event in
  if truthy (timestamp event) then event else with_timestamp (snd (parse_drawn k)) event.

(** *** Keys and references of the schema *)

Definition stat_id (r : IssueStats.row) := (IssueStats.issue_id r, IssueStats.bucket r).

Definition user_id_of (r : IssueUsers.row) :=
  (IssueUsers.issue_id r, IssueUsers.user_hash r).

(** PRIMARY KEY and UNIQUE of the four tables. *)
Definition keys_unique (s : Shard) : Prop :=
  NoDup (map Issues.id (issues s))
  /\ NoDup (map Issues.fingerprint (issues s))
  /\ NoDup (map Events.id (events s))
  /\ NoDup (map stat_id (issue_stats s))
  /\ NoDup (map user_id_of (issue_users s)).

(** FOREIGN KEY of the three dependent tables. *)
Definition references_hold (s : Shard) : Prop :=
  (forall e, In e (events s) -> In (Events.issue_id e) (map Issues.id (issues s)))
  /\ (forall r, In r (issue_stats s) ->
        In (IssueStats.issue_id r) (map Issues.id (issues s)))
  /\ (forall r, In r (issue_users s) ->
        In (IssueUsers.issue_id r) (map Issues.id (issues s))).

Definition well_keyed (s : Shard) : Prop := keys_unique s /\ references_hold s.

Definition keeps_well_keyed (s s' : Shard) : Prop := well_keyed s -> well_keyed s'.

(** *** Users of an issue *)

Definition users_of (s : Shard) (issueId : jsstring) : list IssueUsers.row :=
  filter (fun u => jseqb (IssueUsers.issue_id u) issueId) (issue_users s).

(** User consistency: [I.user_count == |{rows of issue_users with
    issue_id = I}|]. *)
Definition user_consistent (s : Shard) : Prop :=
  forall r, In r (issues s) ->
    Issues.user_count r = Z.of_nat (List.length (users_of s (Issues.id r))).

Definition users_counted (s : Shard) : Prop :=
  user_consistent s
  /\ (forall u, In u (issue_users s) ->
        In (IssueUsers.issue_id u) (map Issues.id (issues s))).

Definition keeps_users_counted (s s' : Shard) : Prop :=
  users_counted s -> users_counted s'.

Definition id_user_count (r : Issues.row) := (Issues.id r, Issues.user_count r).

(** Issues keep id and user count, user rows keep their issue. *)
Definition same_user_view (s s' : Shard) : Prop :=
  map id_user_count (issues s') = map id_user_count (issues s)
  /\ map IssueUsers.issue_id (issue_users s') = map IssueUsers.issue_id (issue_users s).

(** *** Hourly buckets of an issue *)

Definition in_issue (issueId : jsstring) (r : IssueStats.row) : bool :=
  jseqb (IssueStats.issue_id r) issueId.

Definition sum_counts (rows : list IssueStats.row) : Z :=
  fold_right (fun r acc => IssueStats.count r + acc) 0 rows.

Definition buckets_of (s : Shard) (issueId : jsstring) : list IssueStats.row :=
  filter (in_issue issueId) (issue_stats s).

(** Bucket consistency: [sum(hourly_bucket.count where issue_id = I) ==
    I.count]. *)
Definition bucket_consistent (s : Shard) : Prop :=
  forall r, In r (issues s) ->
    Issues.count r = sum_counts (buckets_of s (Issues.id r)).

(** The ingest got as far as the event but not past the bucket. *)
Definition stats_missed {A} (o : Outcome A) : bool :=
  match o with
  | Threw EventsConstraint | Threw InvalidDate | Threw StatsConstraint => true
  | _ => false
  end.

(** Issues keep id and count, the buckets are untouched. *)
Definition same_bucket_view (s s' : Shard) : Prop :=
  map id_count (issues s') = map id_count (issues s)
  /\ issue_stats s' = issue_stats s.

Section MoreRuns.

Variable sha256_hex : jsstring -> jsstring.
Variable Date_hour_start : jsstring -> option jsstring.
Variable one_throws : bool.

Definition bucket_missed (s : Shard) (op : Op) : bool :=
  match op with
  | Ingest event rt =>
      stats_missed (snd (handleIngest sha256_hex Date_hour_start one_throws event rt s))
  | _ => false
  end.

(** No ingest of the run stops between its issue and its bucket. *)
Fixpoint no_bucket_missed (ops : list Op) (s : Shard) : bool :=
  match ops with
  | [] => true
  | op :: rest =>
      negb (bucket_missed s op)
      && no_bucket_missed rest (step sha256_hex Date_hour_start one_throws s op)
  end.

End MoreRuns.

(** *** Order of a page *)

(** [a] may stand before [b] under [ORDER BY ... DESC]. *)
Definition not_below (a b : SqlValue) : Prop := sql_compare a b <> Lt.

Definition key_not_below {R} (key : R -> SqlValue) (a b : R) : Prop :=
  not_below (key a) (key b).



Definition Issue_with_status (st : jsstring) (i : Issue.t) : Issue.t :=
  {| Issue.id := Issue.id i; Issue.fingerprint := Issue.fingerprint i;
     Issue.title := Issue.title i; Issue.culprit := Issue.culprit i;
     Issue.level := Issue.level i; Issue.platform := Issue.platform i;
     Issue.firstSeen := Issue.firstSeen i; Issue.lastSeen := Issue.lastSeen i;
     Issue.count := Issue.count i; Issue.userCount := Issue.userCount i;
     Issue.status := st; Issue.metadata := Issue.metadata i |}.

(** Everything on an issue row but its status. *)
Definition but_status (r : Issues.row) :=
  (Issues.id r, Issues.fingerprint r, Issues.title r, Issues.culprit r,
   Issues.level r, Issues.platform r, Issues.first_seen r, Issues.last_seen r,
   Issues.count r, Issues.user_count r, Issues.metadata r).


Module More.

(** The header the SDKs send, for a version and a key. *)
Definition sdk_auth_header (version key : jsstring) : jsstring :=
  js "Sentry sentry_version=" ++ version ++ js ", sentry_key=" ++ key.

Definition hex_key : jsstring := js "0f1e2d3c4b5a69788796a5b4c3d2e1f0".


(** A retried event followed by a new one, as an envelope. *)
Definition retry_then_bang : ParsedEnvelope :=
  {| items := [Sample.item "session" Sample.blank;
               Sample.item "event" Sample.boom;
               Sample.item "event" Sample.bang] |}.

End More.
(** * Properties *)

(** ** Strings *)

Lemma jseqb_refl (a : jsstring) : jseqb a a = true.
Proof.
  induction a as [|x a IH]; simpl; [reflexivity|].
  rewrite Z.eqb_refl. exact IH.
Qed.

Lemma jseqb_eq (a b : jsstring) : jseqb a b = true <-> a = b.
Proof.
  split.
  - revert b. induction a as [|x a IH]; destruct b as [|y b]; simpl;
      try discriminate; [reflexivity|].
    intros H. apply andb_true_iff in H. destruct H as [Hxy Hab].
    apply Z.eqb_eq in Hxy. subst y. f_equal. apply IH. exact Hab.
  - intros ->. apply jseqb_refl.
Qed.

Lemma jseqb_neq (a b : jsstring) : jseqb a b = false <-> a <> b.
Proof.
  split.
  - intros H E. apply jseqb_eq in E. congruence.
  - intros H. destruct (jseqb a b) eqn:E; [|reflexivity].
    apply jseqb_eq in E. contradiction.
Qed.

Lemma jseqb_sym (a b : jsstring) : jseqb a b = jseqb b a.
Proof.
  destruct (jseqb a b) eqn:E.
  - apply jseqb_eq in E. subst. symmetry. apply jseqb_refl.
  - symmetry. apply jseqb_neq. apply jseqb_neq in E. congruence.
Qed.

(** ** The fingerprinter *)

Lemma filter_nil_existsb {A} (p : A -> bool) (l : list A) :
  filter p l = [] <-> existsb p l = false.
Proof.
  induction l as [|x l IH]; simpl; [tauto|].
  destruct (p x); simpl; [split; discriminate | exact IH].
Qed.

Lemma generateFingerprint_tuple (e : SentryEvent) :
  generateFingerprint e = hashArray (grouping_tuple e).
Proof.
  unfold generateFingerprint, grouping_tuple, has_explicit_fingerprint,
    explicit_tokens.
  destruct (fingerprint e) as [fp|].
  - fold is_custom_token.
    change (fun f : jsstring => negb (jseqb f default_token)) with is_custom_token.
    destruct (filter is_custom_token fp) as [|t ts] eqn:F.
    + apply filter_nil_existsb in F. rewrite F.
      destruct (first_exception e); [reflexivity|].
      destruct (truthy (message e)); reflexivity.
    + assert (X : existsb is_custom_token fp = true).
      { destruct (existsb is_custom_token fp) eqn:X; [reflexivity|].
        apply filter_nil_existsb in X. congruence. }
      rewrite X. reflexivity.
  - destruct (first_exception e); [reflexivity|].
    destruct (truthy (message e)); reflexivity.
Qed.



(** C6.  Fingerprinting is a function of the grouping tuple: two events
    with the same tuple (after normalization of the message) get the
    same fingerprint, unit for unit. *)
Theorem generateFingerprint_same_tuple (e1 e2 : SentryEvent) :
  grouping_tuple e1 = grouping_tuple e2 ->
  generateFingerprint e1 = generateFingerprint e2.
Proof.
  intros H. rewrite !generateFingerprint_tuple, H. reflexivity.
Qed.

Lemma generateFingerprint_same_tuple_witness :
  grouping_tuple Sample.failed_a = grouping_tuple Sample.failed_b
  /\ Sample.failed_a <> Sample.failed_b
  /\ generateFingerprint Sample.failed_a = generateFingerprint Sample.failed_b.
Proof.
  split; [vm_compute; reflexivity|].
  split; [intros E; apply (f_equal event_id) in E; vm_compute in E; discriminate|].
  apply (generateFingerprint_same_tuple Sample.failed_a Sample.failed_b).
  vm_compute. reflexivity.
Defined.

Lemma in_app_not_false_iff (f : StackFrame) :
  in_app_not_false f = false <-> in_app f = Some false.
Proof.
  unfold in_app_not_false.
  destruct (in_app f) as [[|]|]; split; intros H; congruence.
Qed.

Lemma filter_nil_forall {A} (p : A -> bool) (l : list A) :
  filter p l = [] -> forall x, In x l -> p x = false.
Proof.
  intros H x Hx. destruct (p x) eqn:E; [|reflexivity].
  assert (I : In x (filter p l)) by (apply filter_In; auto).
  rewrite H in I. destruct I.
Qed.

Lemma getTopFrames_some_in_app (fs : list StackFrame) (n : nat) :
  filter in_app_not_false (rev fs) <> [] ->
  getTopFrames (Some {| frames := Some fs |}) n
  = firstn n (filter in_app_not_false (rev fs)).
Proof.
  intros H. unfold getTopFrames. simpl frames_of.
  destruct fs as [|f fs]; [exfalso; apply H; reflexivity|].
  destruct (filter in_app_not_false (rev (f :: fs))); [contradiction|reflexivity].
Qed.

Lemma getTopFrames_none_in_app (fs : list StackFrame) (n : nat) :
  Forall (fun f => in_app f = Some false) fs ->
  getTopFrames (Some {| frames := Some fs |}) n = firstn n (rev fs).
Proof.
  intros H. unfold getTopFrames. simpl frames_of.
  destruct fs as [|f fs]; [destruct n; reflexivity|].
  destruct (filter in_app_not_false (rev (f :: fs))) as [|g gs] eqn:F; [reflexivity|].
  assert (I : In g (filter in_app_not_false (rev (f :: fs)))) by (rewrite F; left; reflexivity).
  apply filter_In in I. destruct I as [I T].
  apply in_rev in I. rewrite Forall_forall in H.
  apply H in I. apply in_app_not_false_iff in I. congruence.
Qed.

(** C10.  A frame whose [in_app] is absent counts as in-app: as soon as
    one frame has no [in_app], the frames are taken from the in-app ones,
    that frame among them; and the fall-back to all frames is taken only
    when every frame has [in_app] set to [false]. *)
Theorem getTopFrames_absent_in_app (fs : list StackFrame) (n : nat) :
  (Forall (fun f => in_app f = Some false) fs
   \/ getTopFrames (Some {| frames := Some fs |}) n
      = firstn n (filter in_app_not_false (rev fs)))
  /\ (forall f, In f fs -> in_app f = None ->
      In f (filter in_app_not_false (rev fs))
      /\ getTopFrames (Some {| frames := Some fs |}) n
         = firstn n (filter in_app_not_false (rev fs))).
Proof.
  split.
  - destruct (filter in_app_not_false (rev fs)) as [|g gs] eqn:F.
    + left. apply Forall_forall. intros f Hf.
      apply in_app_not_false_iff.
      apply (filter_nil_forall _ _ F). apply in_rev in Hf. exact Hf.
    + right. rewrite <- F. apply getTopFrames_some_in_app. congruence.
  - intros f Hf Habs.
    assert (I : In f (filter in_app_not_false (rev fs))).
    { apply filter_In. split; [apply in_rev in Hf; exact Hf|].
      unfold in_app_not_false. rewrite Habs. reflexivity. }
    split; [exact I|].
    apply getTopFrames_some_in_app. intros E. rewrite E in I. destruct I.
Qed.

Lemma getTopFrames_absent_in_app_witness :
  getTopFrames
    (Some {| frames := Some [Sample.unmarked; Sample.callCallback] |}) 3
  = [Sample.unmarked].
Proof.
  destruct (getTopFrames_absent_in_app [Sample.unmarked; Sample.callCallback] 3)
    as [_ H].
  destruct (H Sample.unmarked) as [_ E].
  - simpl. left. reflexivity.
  - reflexivity.
  - rewrite E. reflexivity.
Defined.

(** ** Statements and what they keep *)

Lemma bind_run {A B} (m : Sql A) (f : A -> Sql B) (s : Shard) :
  bind m f s =
    match m s with
    | (s', Returned a) => f a s'
    | (s', Threw e) => (s', Threw e)
    end.
Proof. reflexivity. Qed.

Section Keeps.

Variable R : Shard -> Shard -> Prop.
Hypothesis R_refl : forall s, R s s.
Hypothesis R_trans : forall a b c, R a b -> R b c -> R a c.

Lemma keeps_ret {A} (a : A) : keeps R (ret a).
Proof. intros s. apply R_refl. Qed.

Lemma keeps_throw {A} (e : Thrown) : keeps R (@throw A e).
Proof. intros s. apply R_refl. Qed.

Lemma keeps_select {A} (f : Shard -> A) : keeps R (select f).
Proof. intros s. apply R_refl. Qed.

Lemma keeps_bind {A B} (m : Sql A) (f : A -> Sql B) :
  keeps R m -> (forall a, keeps R (f a)) -> keeps R (bind m f).
Proof.
  intros Hm Hf s. rewrite bind_run.
  specialize (Hm s). destruct (m s) as [s' [a|e]]; simpl in *.
  - apply R_trans with s'; [exact Hm | apply Hf].
  - exact Hm.
Qed.

Lemma keeps_one {A} (o : bool) (rows : list A) : keeps R (one o rows).
Proof.
  unfold one.
  destruct rows as [|r [|r' rows]]; try destruct o;
    first [apply keeps_ret | apply keeps_throw].
Qed.

Lemma keeps_getHourBucket (date : jsstring -> option jsstring) (t : jsstring) :
  keeps R (getHourBucket date t).
Proof.
  unfold getHourBucket. destruct (date t); [apply keeps_ret | apply keeps_throw].
Qed.

End Keeps.

Lemma map_update_where {X Y} (g : X -> Y) (p : X -> bool) (f : X -> X) (rows : list X) :
  (forall r, g (f r) = g r) -> map g (update_where p f rows) = map g rows.
Proof.
  intros H. unfold update_where. rewrite map_map.
  apply map_ext. intros r. destruct (p r); [apply H | reflexivity].
Qed.

Lemma same_core_refl (s : Shard) : same_core s s.
Proof. split; reflexivity. Qed.

Lemma same_core_trans (a b c : Shard) : same_core a b -> same_core b c -> same_core a c.
Proof. intros [E1 C1] [E2 C2]. split; congruence. Qed.

Lemma same_frames_refl (s : Shard) : same_frames s s.
Proof. reflexivity. Qed.

Lemma same_frames_trans (a b c : Shard) :
  same_frames a b -> same_frames b c -> same_frames a c.
Proof. unfold same_frames. congruence. Qed.

Lemma same_core_frames (s s' : Shard) : same_core s s' -> same_frames s s'.
Proof.
  intros [_ C]. unfold same_frames.
  apply (f_equal (map (fun c => fst (fst c)))) in C.
  rewrite !map_map in C. exact C.
Qed.

Create HintDb shard.

#[local] Hint Resolve same_core_refl same_core_trans same_frames_refl
  same_frames_trans : shard.

Lemma keeps_core_frames {A} (m : Sql A) : keeps same_core m -> keeps same_frames m.
Proof. intros H s. apply same_core_frames. apply H. Qed.

Lemma upsert_stat_core (issueId bucket : jsstring) :
  keeps same_core (upsert_stat issueId bucket).
Proof.
  intros s. unfold upsert_stat, select, throw, with_stats. rewrite bind_run.
  destruct (negb (existsb (has_id issueId) (issues s))); split; reflexivity.
Qed.

Lemma update_user_seen_core (now issueId userHash : jsstring) :
  keeps same_core (update_user_seen now issueId userHash).
Proof. intros s. split; reflexivity. Qed.

Lemma insert_user_core (r : IssueUsers.row) : keeps same_core (insert_user r).
Proof.
  intros s. unfold insert_user, select, throw, with_users. rewrite bind_run.
  match goal with |- context [if ?c then _ else _] => destruct c end;
    split; reflexivity.
Qed.

Lemma bump_user_count_core (issueId : jsstring) :
  keeps same_core (bump_user_count issueId).
Proof.
  intros s. split; [reflexivity|]. simpl.
  apply map_update_where. intros r. reflexivity.
Qed.

Lemma ingest_stats_core date event rt issueId :
  keeps same_core (ingest_stats date event rt issueId).
Proof.
  unfold ingest_stats. apply keeps_bind; eauto with shard.
  - apply keeps_getHourBucket; eauto with shard.
  - intros b. apply upsert_stat_core.
Qed.

Lemma ingest_user_core sha o event rt issueId :
  keeps same_core (ingest_user sha o event rt issueId).
Proof.
  unfold ingest_user.
  destruct (user event) as [u|]; [|apply keeps_ret; eauto with shard].
  cbv zeta. destruct (truthy (hashUserIdentifier sha (Some u)));
    [|apply keeps_ret; eauto with shard].
  apply keeps_bind; eauto with shard.
  { apply keeps_select; eauto with shard. }
  intros rows. apply keeps_bind; eauto with shard.
  { apply keeps_one; eauto with shard. }
  intros [x|].
  - apply update_user_seen_core.
  - apply keeps_bind; eauto with shard.
    + apply insert_user_core.
    + intros _. apply bump_user_count_core.
Qed.

(** What follows the event insert. *)
Lemma ingest_rest_core sha date o event rt issueId (res : IngestResult) :
  keeps same_core
    (ingest_stats date event rt issueId ;;
     ingest_user sha o event rt issueId ;;
     ret res).
Proof.
  apply keeps_bind; eauto with shard.
  { apply ingest_stats_core. }
  intros _. apply keeps_bind; eauto with shard.
  { apply ingest_user_core. }
  intros _. apply keeps_ret; eauto with shard.
Qed.

Lemma insert_event_frames (r : Events.row) : keeps same_frames (insert_event r).
Proof.
  intros s. unfold insert_event, select, throw, with_events. rewrite bind_run.
  match goal with |- context [if ?c then _ else _] => destruct c end; reflexivity.
Qed.

Lemma update_issue_seen_frames (now issueId : jsstring) :
  keeps same_frames (update_issue_seen now issueId).
Proof.
  intros s. unfold same_frames. simpl.
  apply map_update_where. intros r. reflexivity.
Qed.

(** The two ways through [ingest_issue]. *)
Lemma handleIngest_known sha date o event rt s existing :
  find (fun r => jseqb (Issues.fingerprint r) (generateFingerprint event)) (issues s)
  = Some existing ->
  handleIngest sha date o event rt s =
    (update_issue_seen (now rt) (Issues.id existing) ;;
     insert_event (event_row event rt (Issues.id existing)) ;;
     ingest_stats date event rt (Issues.id existing) ;;
     ingest_user sha o event rt (Issues.id existing) ;;
     ret {| eventId := or_default (event_id event) (randomUUID_event rt);
            issueId := Issues.id existing |}) s.
Proof.
  intros H. unfold handleIngest, ingest_issue, select_issue_by_fingerprint, select.
  rewrite !bind_run. rewrite H. reflexivity.
Qed.

Lemma handleIngest_new sha date o event rt s :
  find (fun r => jseqb (Issues.fingerprint r) (generateFingerprint event)) (issues s)
  = None ->
  handleIngest sha date o event rt s =
    (insert_issue (new_issue event rt) ;;
     insert_event (event_row event rt (randomUUID_issue rt)) ;;
     ingest_stats date event rt (randomUUID_issue rt) ;;
     ingest_user sha o event rt (randomUUID_issue rt) ;;
     ret {| eventId := or_default (event_id event) (randomUUID_event rt);
            issueId := randomUUID_issue rt |}) s.
Proof.
  intros H. unfold handleIngest, ingest_issue, select_issue_by_fingerprint, select.
  rewrite !bind_run. rewrite H. rewrite !bind_run.
  destruct (insert_issue _ s) as [s1 [[]|e]]; reflexivity.
Qed.

(** C7.  An ingest whose fingerprint matches an issue of the shard
    leaves, on every issue row, the id, fingerprint, title, culprit,
    level, platform, first_seen, status and metadata as they were, and
    adds or removes no issue; this holds whether the ingest returns or
    throws on the way. *)
Theorem ingest_known_issue_frame sha date o event rt s existing :
  find (fun r => jseqb (Issues.fingerprint r) (generateFingerprint event)) (issues s)
  = Some existing ->
  map frame_of (issues (fst (handleIngest sha date o event rt s)))
  = map frame_of (issues s).
Proof.
  intros H. rewrite (handleIngest_known sha date o event rt s existing H).
  change (same_frames s
    (fst ((update_issue_seen (now rt) (Issues.id existing) ;;
           insert_event (event_row event rt (Issues.id existing)) ;;
           ingest_stats date event rt (Issues.id existing) ;;
           ingest_user sha o event rt (Issues.id existing) ;;
           ret {| eventId := or_default (event_id event) (randomUUID_event rt);
                  issueId := Issues.id existing |}) s))).
  revert s H. intros s _.
  apply keeps_bind; eauto with shard.
  { apply update_issue_seen_frames. }
  intros _. apply keeps_bind; eauto with shard.
  { apply insert_event_frames. }
  intros _. apply keeps_core_frames. apply ingest_rest_core.
Qed.

Lemma ingest_known_issue_frame_witness :
  map frame_of
    (issues (fst (handleIngest Sample.sha Sample.hour true Sample.boom_again
                    (Sample.at_ "2024-01-01T12:00:00.000Z" "issue-9")
                    Sample.resolved_boom)))
  = map frame_of (issues Sample.resolved_boom)
  /\ map Issues.status (issues Sample.resolved_boom) = [js "resolved"].
Proof.
  split; [|vm_compute; reflexivity].
  eapply ingest_known_issue_frame.
  vm_compute. reflexivity.
Defined.

(** ** A retried event *)

Lemma or_default_some (x d : jsstring) : x <> [] -> or_default (Some x) d = x.
Proof. destruct x; [congruence | reflexivity]. Qed.

Lemma insert_event_clash (r : Events.row) (s : Shard) :
  (exists x, In x (events s) /\ Events.id x = Events.id r) ->
  insert_event r s = (s, Threw EventsConstraint).
Proof.
  intros [x [Hx E]]. unfold insert_event, select. rewrite bind_run.
  assert (C : existsb (fun x => jseqb (Events.id x) (Events.id r)) (events s) = true).
  { apply existsb_exists. exists x. split; [exact Hx|]. apply jseqb_eq. exact E. }
  rewrite C. reflexivity.
Qed.

Lemma update_where_in {X} (p : X -> bool) (f : X -> X) (rows : list X) (r : X) :
  In r rows -> In (if p r then f r else r) (update_where p f rows).
Proof.
  intros H. unfold update_where.
  apply (in_map (fun r => if p r then f r else r)) in H. exact H.
Qed.

Lemma insert_issue_run (r : Issues.row) (s : Shard) :
  insert_issue r s =
    if existsb (fun x => jseqb (Issues.id x) (Issues.id r)
                         || jseqb (Issues.fingerprint x) (Issues.fingerprint r))
               (issues s)
    then (s, Threw IssuesConstraint)
    else ({| issues := issues s ++ [r]; events := events s;
             issue_stats := issue_stats s; issue_users := issue_users s |},
          Returned tt).
Proof.
  unfold insert_issue, select. rewrite bind_run.
  match goal with |- context [if ?c then _ else _] => destruct c end; reflexivity.
Qed.

Lemma retry_known sha date o event rt s existing :
  find (fun r => jseqb (Issues.fingerprint r) (generateFingerprint event)) (issues s)
  = Some existing ->
  (exists x, In x (events s)
             /\ Events.id x = Events.id (event_row event rt (Issues.id existing))) ->
  handleIngest sha date o event rt s =
    (fst (update_issue_seen (now rt) (Issues.id existing) s), Threw EventsConstraint).
Proof.
  intros F C. rewrite (handleIngest_known sha date o event rt s existing F).
  rewrite bind_run. cbn [update_issue_seen with_issues fst].
  rewrite bind_run. rewrite insert_event_clash; [reflexivity | exact C].
Qed.

Lemma retry_new sha date o event rt s :
  find (fun r => jseqb (Issues.fingerprint r) (generateFingerprint event)) (issues s)
  = None ->
  (exists x, In x (events s)
             /\ Events.id x = Events.id (event_row event rt (randomUUID_issue rt))) ->
  handleIngest sha date o event rt s = (s, Threw IssuesConstraint)
  \/ handleIngest sha date o event rt s =
       ({| issues := issues s ++ [new_issue event rt]; events := events s;
           issue_stats := issue_stats s; issue_users := issue_users s |},
        Threw EventsConstraint).
Proof.
  intros F C. rewrite (handleIngest_new sha date o event rt s F).
  rewrite bind_run, insert_issue_run.
  match goal with |- context [if ?c then _ else _] => destruct c end.
  - left. reflexivity.
  - right. rewrite bind_run. rewrite insert_event_clash; [reflexivity | exact C].
Qed.

(** C2 as stated fails on the retry of [boom]: the shard throws. *)
Lemma retry_is_no_success :
  ~ idempotent_success Sample.after_boom Sample.retried.
Proof.
  intros [[r H] _]. vm_compute in H. discriminate.
Qed.

(** C2, amended.  The retry of an event whose id is already stored does
    not complete: a constraint rejects it, at the event insert or, when
    the issue id drawn is taken, at the issue insert before it.  The
    events, the stored one included, the hourly buckets, the user rows
    and the user count of every issue are as before. *)
Theorem retry_is_rejected sha date o event rt s E stored :
  event_id event = Some E -> E <> [] ->
  In stored (events s) -> Events.id stored = E ->
  (snd (handleIngest sha date o event rt s) = Threw EventsConstraint
   \/ snd (handleIngest sha date o event rt s) = Threw IssuesConstraint)
  /\ events (fst (handleIngest sha date o event rt s)) = events s
  /\ issue_stats (fst (handleIngest sha date o event rt s)) = issue_stats s
  /\ issue_users (fst (handleIngest sha date o event rt s)) = issue_users s
  /\ user_counts_kept s (fst (handleIngest sha date o event rt s)).
Proof.
  intros HE Hne Hin Hid.
  assert (C : forall i, exists x, In x (events s)
                                  /\ Events.id x = Events.id (event_row event rt i)).
  { intros i. exists stored. split; [exact Hin|].
    simpl. rewrite HE, Hid. symmetry. apply or_default_some. exact Hne. }
  destruct (find (fun r => jseqb (Issues.fingerprint r) (generateFingerprint event))
              (issues s)) as [existing|] eqn:F.
  - rewrite (retry_known sha date o event rt s existing F (C _)).
    cbn [fst snd update_issue_seen with_issues issues events issue_stats issue_users].
    repeat split; auto.
    intros r Hr.
    exists (if has_id (Issues.id existing) r then Issues.set_seen (now rt) r else r).
    split; [apply update_where_in; exact Hr|].
    destruct (has_id (Issues.id existing) r); split; reflexivity.
  - destruct (retry_new sha date o event rt s F (C _)) as [H|H]; rewrite H;
      cbn [fst snd issues events issue_stats issue_users].
    + split; [right; reflexivity|]. repeat split.
      intros r Hr. exists r. auto.
    + split; [left; reflexivity|]. repeat split.
      intros r Hr. exists r. split; [apply in_or_app; left; exact Hr|auto].
Qed.

Lemma retry_is_rejected_witness :
  snd Sample.retried = Threw EventsConstraint
  /\ events (fst Sample.retried) = events Sample.after_boom.
Proof.
  destruct (retry_is_rejected Sample.sha Sample.hour true Sample.boom
              (Sample.at_ "2024-01-01T11:20:31.000Z" "issue-2") Sample.after_boom
              (js "e1")
              (event_row Sample.boom
                 (Sample.at_ "2024-01-01T10:20:31.000Z" "issue-1") (js "issue-1")))
    as [[H|H] [E _]].
  - reflexivity.
  - discriminate.
  - vm_compute. left. reflexivity.
  - reflexivity.
  - split; [exact H | exact E].
  - vm_compute in H. discriminate.
Defined.

(** ** Count consistency *)

Lemma filter_app_one {X} (p : X -> bool) (l : list X) (x : X) :
  filter p (l ++ [x]) = filter p l ++ (if p x then [x] else []).
Proof. rewrite filter_app. reflexivity. Qed.

Lemma filter_filter_implied {X} (p q : X -> bool) (l : list X) :
  (forall x, p x = true -> q x = true) -> filter p (filter q l) = filter p l.
Proof.
  intros H. induction l as [|x l IH]; simpl; [reflexivity|].
  destruct (q x) eqn:Q; simpl.
  - rewrite IH. reflexivity.
  - destruct (p x) eqn:P; [apply H in P; congruence | exact IH].
Qed.

Lemma filter_none {X} (p : X -> bool) (l : list X) :
  (forall x, In x l -> p x = false) -> filter p l = [].
Proof.
  intros H. induction l as [|x l IH]; simpl; [reflexivity|].
  rewrite (H x (or_introl eq_refl)). apply IH. intros y Hy. apply H. right. exact Hy.
Qed.

Lemma has_id_in (i : jsstring) (rows : list Issues.row) :
  existsb (has_id i) rows = true <-> In i (map Issues.id rows).
Proof.
  rewrite existsb_exists, in_map_iff. unfold has_id.
  split; intros [r [A B]]; exists r.
  - apply jseqb_eq in B. auto.
  - split; [exact B | apply jseqb_eq; exact A].
Qed.

Lemma id_count_of_core (l l' : list Issues.row) :
  map core_of l' = map core_of l -> map id_count l' = map id_count l.
Proof.
  intros C.
  apply (f_equal (map (fun c =>
    (fst (fst (fst (fst (fst (fst (fst (fst (fst (fst c))))))))), snd c)))) in C.
  rewrite !map_map in C. exact C.
Qed.

(** The counters only look at the events and at id and count of each
    issue. *)
Lemma well_counted_same (s s' : Shard) :
  events s' = events s ->
  map id_count (issues s') = map id_count (issues s) ->
  well_counted s -> well_counted s'.
Proof.
  intros E M [C Rf]. split.
  - intros r' Hr'. unfold events_of. rewrite E.
    apply (in_map id_count) in Hr'. rewrite M in Hr'.
    apply in_map_iff in Hr'. destruct Hr' as [r [Eq Hr]].
    injection Eq as Ei Ec. rewrite <- Ei, <- Ec. apply C. exact Hr.
  - intros e He. rewrite E in He. specialize (Rf e He).
    assert (I : forall l, map Issues.id l = map fst (map id_count l))
      by (intros l; rewrite map_map; reflexivity).
    rewrite (I (issues s')), M, <- I. exact Rf.
Qed.

Lemma well_counted_core (s s' : Shard) :
  same_core s s' -> well_counted s -> well_counted s'.
Proof.
  intros [E C]. apply well_counted_same; [exact E | apply id_count_of_core; exact C].
Qed.

(** An event stored for an issue that has just been bumped. *)
Lemma well_counted_bumped (s : Shard) (now i : jsstring) (row : Events.row) :
  well_counted s ->
  Events.issue_id row = i ->
  In i (map Issues.id (issues s)) ->
  well_counted
    {| issues := update_where (has_id i) (Issues.set_seen now) (issues s);
       events := events s ++ [row];
       issue_stats := issue_stats s; issue_users := issue_users s |}.
Proof.
  intros [C Rf] Hi Hin. split.
  - intros r' Hr'. unfold events_of. cbn [issues events] in *.
    unfold update_where in Hr'. apply in_map_iff in Hr'.
    destruct Hr' as [r [Eq Hr]]. specialize (C r Hr). unfold events_of in C.
    rewrite filter_app_one, length_app.
    unfold of_issue at 2. rewrite Hi.
    destruct (has_id i r) eqn:H; subst r'.
    + unfold has_id in H. apply jseqb_eq in H. cbn [Issues.id Issues.count Issues.set_seen].
      rewrite H, jseqb_refl. simpl List.length. rewrite <- H. lia.
    + unfold has_id in H. rewrite jseqb_sym, H. simpl List.length. lia.
  - intros e He. cbn [issues events] in *.
    rewrite (map_update_where Issues.id) by (intros r; reflexivity).
    apply in_app_or in He. destruct He as [He|[<-|[]]].
    + apply Rf. exact He.
    + rewrite Hi. exact Hin.
Qed.

(** An event stored for an issue that has just been created. *)
Lemma well_counted_created (s : Shard) (r : Issues.row) (row : Events.row) :
  well_counted s ->
  Events.issue_id row = Issues.id r ->
  ~ In (Issues.id r) (map Issues.id (issues s)) ->
  Issues.count r = 1 ->
  well_counted
    {| issues := issues s ++ [r];
       events := events s ++ [row];
       issue_stats := issue_stats s; issue_users := issue_users s |}.
Proof.
  intros [C Rf] Hi Hnew H1. split.
  - intros x Hx. unfold events_of. cbn [issues events] in *.
    rewrite filter_app_one, length_app. unfold of_issue at 2. rewrite Hi.
    apply in_app_or in Hx. destruct Hx as [Hx|[<-|[]]].
    + assert (N : jseqb (Issues.id r) (Issues.id x) = false).
      { apply jseqb_neq. intros Eq. apply Hnew. rewrite Eq.
        apply in_map. exact Hx. }
      rewrite N. simpl List.length. specialize (C x Hx). unfold events_of in C. lia.
    + rewrite jseqb_refl, H1.
      rewrite filter_none; [reflexivity|].
      intros e He. unfold of_issue. apply jseqb_neq. intros Eq.
      apply Hnew. rewrite <- Eq. apply Rf. exact He.
  - intros e He. cbn [issues events] in *. rewrite map_app.
    apply in_or_app. apply in_app_or in He. destruct He as [He|[<-|[]]].
    + left. apply Rf. exact He.
    + right. rewrite Hi. left. reflexivity.
Qed.

Lemma well_counted_deleted (s : Shard) (i : jsstring) :
  well_counted s -> well_counted (fst (delete_issue i s)).
Proof.
  intros [C Rf]. split.
  - intros r Hr. unfold events_of. cbn [delete_issue fst issues events] in *.
    unfold delete_where in *. apply filter_In in Hr. destruct Hr as [Hr Hn].
    rewrite filter_filter_implied.
    + apply C. exact Hr.
    + intros e He. unfold of_issue in *. apply jseqb_eq in He.
      rewrite He. unfold has_id in Hn. exact Hn.
  - intros e He. cbn [delete_issue fst issues events] in *.
    unfold delete_where in *. apply filter_In in He. destruct He as [He Hn].
    specialize (Rf e He). apply in_map_iff in Rf. destruct Rf as [r [Eq Hr]].
    apply in_map_iff. exists r. split; [exact Eq|].
    apply filter_In. split; [exact Hr|].
    unfold has_id, of_issue in *. rewrite Eq. exact Hn.
Qed.

Lemma insert_event_run (r : Events.row) (s : Shard) :
  insert_event r s =
    if existsb (fun x => jseqb (Events.id x) (Events.id r)) (events s)
       || negb (existsb (has_id (Events.issue_id r)) (issues s))
    then (s, Threw EventsConstraint)
    else ({| issues := issues s; events := events s ++ [r];
             issue_stats := issue_stats s; issue_users := issue_users s |},
          Returned tt).
Proof.
  unfold insert_event, select. rewrite bind_run.
  match goal with |- context [if ?c then _ else _] => destruct c end; reflexivity.
Qed.

(** An ingest keeps the counters right unless its event insert is
    rejected. *)
Lemma ingest_well_counted sha date o event rt s :
  well_counted s ->
  thrown_by_events (snd (handleIngest sha date o event rt s)) = false ->
  well_counted (fst (handleIngest sha date o event rt s)).
Proof.
  intros W.
  destruct (find (fun r => jseqb (Issues.fingerprint r) (generateFingerprint event))
              (issues s)) as [existing|] eqn:F.
  - rewrite (handleIngest_known sha date o event rt s existing F).
    rewrite bind_run. cbn [update_issue_seen with_issues].
    rewrite bind_run, insert_event_run.
    match goal with |- context [if ?c then _ else _] => destruct c end;
      [simpl; discriminate|].
    intros _. cbn [issues events issue_stats issue_users].
    eapply well_counted_core; [apply ingest_rest_core|].
    apply well_counted_bumped; [exact W | reflexivity |].
    apply find_some in F. apply in_map. apply F.
  - rewrite (handleIngest_new sha date o event rt s F).
    rewrite bind_run, insert_issue_run.
    destruct (existsb _ (issues s)) eqn:K; [intros _; exact W|].
    rewrite bind_run, insert_event_run.
    match goal with |- context [if ?c then _ else _] => destruct c end;
      [simpl; discriminate|].
    intros _. cbn [issues events issue_stats issue_users].
    eapply well_counted_core; [apply ingest_rest_core|].
    apply well_counted_created; [exact W | reflexivity | | reflexivity].
    intros I. apply in_map_iff in I. destruct I as [x [Ex Hx]].
    assert (T : existsb
      (fun x => jseqb (Issues.id x) (Issues.id (new_issue event rt))
                || jseqb (Issues.fingerprint x) (Issues.fingerprint (new_issue event rt)))
      (issues s) = true).
    { apply existsb_exists. exists x. split; [exact Hx|].
      apply orb_true_iff. left. apply jseqb_eq. exact Ex. }
    congruence.
Qed.

Lemma update_well_counted o issueId status s :
  well_counted s -> well_counted (fst (handleUpdateIssue o issueId status s)).
Proof.
  revert s.
  change (keeps (fun s s' => well_counted s -> well_counted s')
            (handleUpdateIssue o issueId status)).
  assert (Rr : forall s : Shard, well_counted s -> well_counted s) by auto.
  assert (Rt : forall a b c : Shard,
            (well_counted a -> well_counted b) ->
            (well_counted b -> well_counted c) -> well_counted a -> well_counted c)
    by auto.
  unfold handleUpdateIssue.
  destruct issueId as [|c i]; [apply keeps_ret; exact Rr|].
  destruct (truthy status); [|apply keeps_ret; exact Rr].
  apply keeps_bind; [exact Rt | |].
  { intros s. apply well_counted_same; [reflexivity|].
    simpl. apply map_update_where. intros r. reflexivity. }
  intros _. apply keeps_bind; [exact Rt | apply keeps_select; exact Rr |].
  intros rows. apply keeps_bind; [exact Rt | apply keeps_one; exact Rr |].
  intros row. apply keeps_ret; exact Rr.
Qed.

Lemma delete_well_counted issueId s :
  well_counted s -> well_counted (fst (handleDeleteIssue issueId s)).
Proof.
  intros W. unfold handleDeleteIssue.
  destruct issueId as [|c i]; [exact W|].
  rewrite bind_run.
  pose proof (well_counted_deleted s (c :: i) W) as D.
  destruct (delete_issue (c :: i) s) as [s' [[]|e]]; exact D.
Qed.

Lemma step_well_counted sha date o s op :
  well_counted s ->
  event_rejected sha date o s op = false ->
  well_counted (step sha date o s op).
Proof.
  intros W N. destruct op as [event rt|issueId status|issueId]; simpl in *.
  - apply ingest_well_counted; assumption.
  - apply update_well_counted. exact W.
  - apply delete_well_counted. exact W.
Qed.

(** Count consistency holds along every run of ingests, updates and
    deletes in which no event insert is rejected. *)
Lemma run_well_counted sha date o ops s :
  well_counted s ->
  no_event_rejected sha date o ops s = true ->
  well_counted (run sha date o ops s).
Proof.
  revert s. induction ops as [|op ops IH]; intros s W N; simpl in *; [exact W|].
  apply andb_true_iff in N. destruct N as [N1 N2].
  apply negb_true_iff in N1.
  apply IH; [apply step_well_counted; assumption | exact N2].
Qed.

Lemma empty_well_counted : well_counted empty_shard.
Proof. split; intros x []. Qed.

(** C1.  The invariant is broken by an ingest that fails partway.  The
    shard holding the one event [e1] is consistent; the retry of [e1]
    bumps the issue to count 2 and is then rejected at the event insert;
    the issue keeps count 2 with a single event. *)
Theorem count_drifts_when_event_rejected :
  count_consistent Sample.after_boom
  /\ snd Sample.retried = Threw EventsConstraint
  /\ map id_count (issues (fst Sample.retried)) = [(js "issue-1", 2)]
  /\ List.length (events_of (fst Sample.retried) (js "issue-1")) = 1%nat
  /\ ~ count_consistent (fst Sample.retried).
Proof.
  split.
  { intros r Hr. vm_compute in Hr. destruct Hr as [<-|[]]. vm_compute. reflexivity. }
  split; [vm_compute; reflexivity|].
  split; [vm_compute; reflexivity|].
  split; [vm_compute; reflexivity|].
  intros C.
  assert (I : exists r, In r (issues (fst Sample.retried))).
  { vm_compute. eexists. left. reflexivity. }
  destruct I as [r Hr]. specialize (C r Hr).
  vm_compute in Hr. destruct Hr as [<-|[]]. vm_compute in C. discriminate.
Qed.

(** ** Status closure *)

Lemma status_closed_frames (s s' : Shard) :
  same_frames s s' -> status_closed s -> status_closed s'.
Proof.
  unfold same_frames. intros F C r' Hr'.
  apply (in_map frame_of) in Hr'. rewrite F in Hr'.
  apply in_map_iff in Hr'. destruct Hr' as [r [Eq Hr]].
  injection Eq as _ _ _ _ _ _ _ Es _. rewrite <- Es. apply C. exact Hr.
Qed.

Lemma closed_refl (s : Shard) : closed_to_closed s s.
Proof. intros H. exact H. Qed.

Lemma closed_trans (a b c : Shard) :
  closed_to_closed a b -> closed_to_closed b c -> closed_to_closed a c.
Proof. unfold closed_to_closed. auto. Qed.

Lemma keeps_frames_closed {A} (m : Sql A) :
  keeps same_frames m -> keeps closed_to_closed m.
Proof. intros H s C. eapply status_closed_frames; [apply H | exact C]. Qed.

Lemma ingest_issue_closed event rt : keeps closed_to_closed (ingest_issue event rt).
Proof.
  unfold ingest_issue.
  apply keeps_bind; [exact closed_trans | apply keeps_select; exact closed_refl |].
  intros [existing|].
  - apply keeps_bind; [exact closed_trans | | intros _; apply keeps_ret; exact closed_refl].
    apply keeps_frames_closed. apply update_issue_seen_frames.
  - apply keeps_bind; [exact closed_trans | | intros _; apply keeps_ret; exact closed_refl].
    intros s C. rewrite insert_issue_run.
    match goal with |- context [if ?c then _ else _] => destruct c end; [exact C|].
    intros r Hr. cbn [fst issues] in Hr.
    apply in_app_or in Hr. destruct Hr as [Hr|[<-|[]]]; [apply C; exact Hr|].
    reflexivity.
Qed.

Lemma handleIngest_closed sha date o event rt :
  keeps closed_to_closed (handleIngest sha date o event rt).
Proof.
  unfold handleIngest.
  apply keeps_bind; [exact closed_trans | apply ingest_issue_closed |].
  intros i. apply keeps_frames_closed.
  apply keeps_bind; [exact same_frames_trans | apply insert_event_frames |].
  intros _. apply keeps_core_frames. apply ingest_rest_core.
Qed.

(** [update_issue] writes the status it is given. *)
Lemma handleUpdateIssue_stores o issueId st s r :
  issueId <> [] -> st <> [] ->
  In r (issues (fst (handleUpdateIssue o issueId (Some st) s))) ->
  Issues.id r = issueId ->
  Issues.status r = st.
Proof.
  intros Hi Hs Hr Eid. unfold handleUpdateIssue in Hr.
  destruct issueId as [|c i]; [congruence|].
  destruct st as [|d st]; [congruence|].
  cbn [truthy] in Hr. rewrite bind_run in Hr.
  cbn [update_issue_status with_issues] in Hr.
  rewrite bind_run in Hr. cbn [select] in Hr. rewrite bind_run in Hr.
  match type of Hr with context [one o ?rows] =>
    assert (K : fst (one o rows
      {| issues := update_where (has_id (c :: i))
                     (Issues.set_status (or_default (Some (d :: st)) []))
                     (issues s);
         events := events s; issue_stats := issue_stats s;
         issue_users := issue_users s |})
      = {| issues := update_where (has_id (c :: i))
                     (Issues.set_status (or_default (Some (d :: st)) []))
                     (issues s);
         events := events s; issue_stats := issue_stats s;
         issue_users := issue_users s |})
      by (unfold one; destruct rows as [|x [|y rows']]; destruct o; reflexivity);
    destruct (one o rows _) as [s1 [row|e]]
  end; cbn [fst] in K; subst s1; cbn [fst ret issues] in Hr.
  all: unfold update_where in Hr; apply in_map_iff in Hr;
    destruct Hr as [x [Eq Hx]];
    destruct (has_id (c :: i) x) eqn:H; subst r;
    [ reflexivity
    | unfold has_id in H; apply jseqb_neq in H; contradiction ].
Qed.

Lemma handleUpdateIssue_closed o issueId status :
  (if truthy status then valid_status (or_default status []) else true) = true ->
  keeps closed_to_closed (handleUpdateIssue o issueId status).
Proof.
  intros V. unfold handleUpdateIssue.
  destruct issueId as [|c i]; [apply keeps_ret; exact closed_refl|].
  destruct (truthy status); [|apply keeps_ret; exact closed_refl].
  apply keeps_bind; [exact closed_trans | |].
  { intros s C r Hr. cbn [update_issue_status with_issues fst issues] in Hr.
    unfold update_where in Hr. apply in_map_iff in Hr.
    destruct Hr as [x [Eq Hx]].
    destruct (has_id (c :: i) x); subst r; [exact V | apply C; exact Hx]. }
  intros _. apply keeps_bind; [exact closed_trans | apply keeps_select; exact closed_refl |].
  intros rows. apply keeps_bind; [exact closed_trans | apply keeps_one; exact closed_refl |].
  intros row. apply keeps_ret; exact closed_refl.
Qed.

Lemma handleDeleteIssue_closed issueId :
  keeps closed_to_closed (handleDeleteIssue issueId).
Proof.
  unfold handleDeleteIssue.
  destruct issueId as [|c i]; [apply keeps_ret; exact closed_refl|].
  apply keeps_bind; [exact closed_trans | | intros _; apply keeps_ret; exact closed_refl].
  intros s C r Hr. cbn [delete_issue fst issues] in Hr.
  unfold delete_where in Hr. apply filter_In in Hr. apply C. apply Hr.
Qed.

(** C4 as stated fails: any text can be stored as a status. *)
Lemma status_not_closed :
  ~ status_closed (run Sample.sha Sample.hour true Sample.wontfix empty_shard).
Proof.
  intros C.
  assert (I : exists r, In r (issues (run Sample.sha Sample.hour true
                                        Sample.wontfix empty_shard))).
  { vm_compute. eexists. left. reflexivity. }
  destruct I as [r Hr]. specialize (C r Hr).
  vm_compute in Hr. destruct Hr as [<-|[]]. vm_compute in C. discriminate.
Qed.

(** C4, amended.  [update_issue] stores the status it is given, whatever
    it is; ingest creates issues as [unresolved] and never rewrites a
    status.  So after any run from the empty shard in which every status
    passed to [update_issue] is one of [unresolved], [resolved],
    [ignored], every stored status is one of the three. *)
Theorem status_closed_under_valid_updates sha date o ops :
  forallb sets_valid_status ops = true ->
  status_closed (run sha date o ops empty_shard).
Proof.
  assert (G : forall ops s, forallb sets_valid_status ops = true ->
                            status_closed s -> status_closed (run sha date o ops s)).
  { clear ops. induction ops as [|op ops IH]; intros s V C; simpl in *; [exact C|].
    apply andb_true_iff in V. destruct V as [V1 V2].
    apply IH; [exact V2|].
    destruct op as [event rt|issueId status|issueId]; simpl in *.
    - apply handleIngest_closed. exact C.
    - apply handleUpdateIssue_closed; assumption.
    - apply handleDeleteIssue_closed. exact C. }
  intros V. apply G; [exact V|]. intros r [].
Qed.

Lemma status_closed_under_valid_updates_witness :
  status_closed
    (run Sample.sha Sample.hour true
       [Ingest Sample.boom (Sample.at_ "2024-01-01T10:20:31.000Z" "issue-1");
        UpdateIssue (js "issue-1") (Some (js "resolved"));
        Ingest Sample.boom_again (Sample.at_ "2024-01-01T12:00:00.000Z" "issue-9")]
       empty_shard).
Proof.
  apply (status_closed_under_valid_updates Sample.sha Sample.hour true).
  vm_compute. reflexivity.
Defined.

(** ** Pages of issues *)

(** The objects built by [rowToIssue] have no property named after the
    columns [last_seen], [first_seen] and [user_count]. *)
Lemma Issue_get_column_names (i : Issue.t) :
  Issue_get (js "last_seen") i = JsUndefined
  /\ Issue_get (js "first_seen") i = JsUndefined
  /\ Issue_get (js "user_count") i = JsUndefined.
Proof. repeat split. Qed.

(** With the default sort no page carries a cursor. *)
Lemma default_sort_has_no_cursor (req : GetIssues.request) (s : Shard) resp :
  truthy (GetIssues.sort req) = false ->
  handleGetIssues req s = Some resp ->
  GetIssues.nextCursor resp = JsUndefined.
Proof.
  intros D H. unfold handleGetIssues in H.
  destruct (select_issues req s) as [rows|]; [|discriminate].
  injection H as <-. cbn [GetIssues.nextCursor].
  unfold or_default. rewrite D.
  destruct (_ >? _); [|reflexivity].
  destruct (rev _) as [|last rest]; [reflexivity|].
  apply Issue_get_column_names.
Qed.

(** Where the column and the property share their name the cursor is
    the value of the last issue of the page. *)
Lemma title_sort_cursor (req : GetIssues.request) (s : Shard) resp last :
  GetIssues.sort req = Some (js "title") ->
  handleGetIssues req s = Some resp ->
  GetIssues.hasMore resp = true ->
  hd_error (rev (GetIssues.issues resp)) = Some last ->
  GetIssues.nextCursor resp = JsString (Issue.title last).
Proof.
  intros S H M L. unfold handleGetIssues in H.
  destruct (select_issues req s) as [rows|]; [|discriminate].
  injection H as <-. cbn [GetIssues.nextCursor GetIssues.hasMore GetIssues.issues] in *.
  rewrite M. rewrite S.
  destruct (rev _) as [|x rest]; [discriminate|].
  injection L as ->. reflexivity.
Qed.

(** C3.  With the default sort the cursor is not the [last_seen] of the
    last issue returned.  Two issues, [limit = 1]: two rows are selected,
    the page holds the later issue and [hasMore] is set, but
    [nextCursor] is undefined, because the page is made of [Issue]
    objects, whose property is [lastSeen], and is read under the column
    name [last_seen]. *)
Theorem next_cursor_undefined_on_default_sort :
  option_map (@List.length Issues.row)
    (select_issues Sample.first_page Sample.two_issues) = Some 2%nat
  /\ exists resp,
       handleGetIssues Sample.first_page Sample.two_issues = Some resp
       /\ GetIssues.hasMore resp = true
       /\ map Issue.lastSeen (GetIssues.issues resp) = [js "2024-01-01T11:00:00.000Z"]
       /\ GetIssues.nextCursor resp = JsUndefined
       /\ GetIssues.nextCursor resp <> JsString (js "2024-01-01T11:00:00.000Z").
Proof.
  split; [vm_compute; reflexivity|].
  eexists. split; [vm_compute; reflexivity|].
  cbn [GetIssues.hasMore GetIssues.issues GetIssues.nextCursor].
  repeat split. discriminate.
Qed.

Lemma slice0_length {A} (n : Z) (rows : list A) :
  0 <= n -> (List.length (slice0 n rows) <= Z.to_nat n)%nat.
Proof.
  intros H. unfold slice0.
  destruct (n <? 0) eqn:N; [apply Z.ltb_lt in N; lia|].
  rewrite length_firstn. lia.
Qed.

Lemma pageLimit_of_cap (limit : option Z) : pageLimit_of limit <= 100.
Proof. unfold pageLimit_of. lia. Qed.

Lemma pageLimit_of_default : pageLimit_of None = 25.
Proof. reflexivity. Qed.

(** The cap holds for every limit from [-1] up. *)
Lemma page_within_cap (req : GetIssues.request) (s : Shard) resp :
  handleGetIssues req s = Some resp ->
  -1 <= pageLimit_of (GetIssues.limit req) ->
  (List.length (GetIssues.issues resp)
   <= Z.to_nat (Z.max 0 (pageLimit_of (GetIssues.limit req))))%nat
  /\ (List.length (GetIssues.issues resp) <= 100)%nat.
Proof.
  intros H L. unfold handleGetIssues in H.
  destruct (select_issues req s) as [rows|] eqn:Sel; [|discriminate].
  injection H as <-. cbn [GetIssues.issues]. rewrite length_map.
  pose proof (pageLimit_of_cap (GetIssues.limit req)) as Cap.
  assert (G : (List.length (slice0 (pageLimit_of (GetIssues.limit req)) rows)
               <= Z.to_nat (Z.max 0 (pageLimit_of (GetIssues.limit req))))%nat).
  { destruct (Z.eq_dec (pageLimit_of (GetIssues.limit req)) (-1)) as [E|NE].
    - unfold select_issues in Sel.
      destruct (issues_column _); [|discriminate].
      destruct (if truthy (GetIssues.cursor req) then _ else _); [|discriminate].
      injection Sel as <-. rewrite E. simpl. unfold slice0. simpl.
      reflexivity.
    - rewrite Z.max_r by lia. apply slice0_length. lia. }
  split; [exact G | lia].
Qed.

(** C9.  A negative limit escapes the cap.  [limit = -2] gives
    [LIMIT -1], which in SQLite is no limit, and [slice(0, -2)] drops the
    last two rows only: of 103 issues, 101 are returned. *)
Theorem negative_limit_escapes_cap :
  List.length (issues Sample.crowded) = 103%nat
  /\ pageLimit_of (GetIssues.limit Sample.minus_two) = -2
  /\ exists resp,
       handleGetIssues Sample.minus_two Sample.crowded = Some resp
       /\ List.length (GetIssues.issues resp) = 101%nat
       /\ ~ (List.length (GetIssues.issues resp) <= 100)%nat.
Proof.
  split; [vm_compute; reflexivity|].
  split; [reflexivity|].
  destruct (handleGetIssues Sample.minus_two Sample.crowded) as [resp|] eqn:H.
  - exists resp. split; [reflexivity|].
    assert (L : List.length (GetIssues.issues resp) = 101%nat).
    { apply (f_equal (option_map (fun r => List.length (GetIssues.issues r)))) in H.
      vm_compute in H. injection H as H. symmetry. exact H. }
    split; [exact L | lia].
  - vm_compute in H. discriminate.
Qed.

(** ** The coordinator's answer *)

Lemma handleIngest_eventId sha date o event rt s r :
  snd (handleIngest sha date o event rt s) = Returned r ->
  eventId r = or_default (event_id event) (randomUUID_event rt).
Proof.
  unfold handleIngest. rewrite bind_run.
  destruct (ingest_issue event rt s) as [s1 [i|e]]; [|discriminate].
  rewrite bind_run.
  destruct (insert_event _ s1) as [s2 [[]|e]]; [|discriminate].
  rewrite bind_run.
  destruct (ingest_stats _ _ _ _ s2) as [s3 [[]|e]]; [|discriminate].
  rewrite bind_run.
  destruct (ingest_user _ _ _ _ _ s3) as [s4 [[]|e]]; [|discriminate].
  simpl. intros H. injection H as <-. reflexivity.
Qed.

Lemma ingest_each_run sha date o k drawn event rest s :
  ingest_each sha date o k drawn (event :: rest) s =
    (fst (ingest_each sha date o (S k) drawn rest
            (fst (handleIngest sha date o event (drawn k) s))),
     snd (handleIngest sha date o event (drawn k) s)
     :: snd (ingest_each sha date o (S k) drawn rest
               (fst (handleIngest sha date o event (drawn k) s)))).
Proof.
  simpl. destruct (handleIngest sha date o event (drawn k) s) as [s1 a].
  simpl. destruct (ingest_each sha date o (S k) drawn rest s1). reflexivity.
Qed.

(** The [j]-th answer is the shard's answer to the [j]-th event. *)
Lemma ingest_each_nth sha date o drawn events :
  forall k s j r,
    nth_error (snd (ingest_each sha date o k drawn events s)) j = Some (Returned r) ->
    exists e, nth_error events j = Some e
              /\ eventId r = or_default (event_id e) (randomUUID_event (drawn (k + j)%nat)).
Proof.
  induction events as [|event rest IH]; intros k s j r H.
  - destruct j; discriminate.
  - rewrite ingest_each_run in H. cbn [snd] in H. destruct j as [|j].
    + simpl in H. injection H as H. exists event. split; [reflexivity|].
      rewrite Nat.add_0_r. eapply handleIngest_eventId. exact H.
    + simpl in H. apply IH in H. destruct H as [e [He Hr]].
      exists e. split; [exact He|].
      rewrite Nat.add_succ_r. exact Hr.
Qed.

Lemma results_of_thrown (pre rest : list (Outcome IngestResult)) :
  forallb is_thrown pre = true -> results_of (pre ++ rest) = results_of rest.
Proof.
  induction pre as [|[r|e] pre IH]; simpl; intros H;
    [reflexivity | discriminate | apply IH; exact H].
Qed.

Lemma results_of_all_thrown (answers : list (Outcome IngestResult)) :
  forallb is_thrown answers = true -> results_of answers = [].
Proof.
  intros H. rewrite <- (app_nil_r answers). rewrite results_of_thrown; auto.
Qed.

Lemma or_default_nonempty (x : option jsstring) (d : jsstring) :
  d <> [] -> or_default x d <> [].
Proof.
  intros H. unfold or_default.
  destruct x as [[|c t]|]; simpl; try exact H. discriminate.
Qed.

Lemma extractEvents_none parse_drawn (its : list EnvelopeItem.t) :
  existsb is_event_item its = false ->
  forall k, extractEvents_from k parse_drawn its = [].
Proof.
  induction its as [|it its IH]; intros H k; simpl in *; [reflexivity|].
  apply orb_false_iff in H. destruct H as [H1 H2].
  unfold is_event_item in H1. rewrite H1. apply IH. exact H2.
Qed.

Lemma handleIngestion_id_run sha date o body pd drawn s :
  IngestionResponse.id (snd (handleIngestion sha date o body pd drawn s)) =
    match events_of_body pd body with
    | [] => None
    | _ :: _ =>
        response_id
          (results_of (snd (ingest_each sha date o 0 drawn (events_of_body pd body) s)))
          (events_of_body pd body)
    end.
Proof.
  unfold handleIngestion.
  destruct (events_of_body pd body) as [|e es]; [reflexivity|].
  destruct (ingest_each sha date o 0 drawn (e :: es) s). reflexivity.
Qed.

(** C8.  The answer to an ingestion request carries as [id]: the event
    id under which the shard stored the first event it accepted; the
    incoming event id of the first event when the shard accepted none;
    null when the envelope holds no event or transaction item. *)
Theorem handleIngestion_id sha date o body pd drawn s :
  (forall pre r post,
      snd (ingest_each sha date o 0 drawn (events_of_body pd body) s)
      = pre ++ Returned r :: post ->
      forallb is_thrown pre = true ->
      randomUUID_event (drawn (List.length pre)) <> [] ->
      IngestionResponse.id (snd (handleIngestion sha date o body pd drawn s))
      = Some (eventId r)
      /\ exists e, nth_error (events_of_body pd body) (List.length pre) = Some e
                   /\ eventId r = or_default (event_id e)
                                    (randomUUID_event (drawn (List.length pre))))
  /\ (forallb is_thrown
        (snd (ingest_each sha date o 0 drawn (events_of_body pd body) s)) = true ->
      IngestionResponse.id (snd (handleIngestion sha date o body pd drawn s))
      = or_null (match hd_error (events_of_body pd body) with
                 | Some e => event_id e
                 | None => None
                 end))
  /\ (forall envelope, body = Envelope envelope ->
      existsb is_event_item (items envelope) = false ->
      IngestionResponse.id (snd (handleIngestion sha date o body pd drawn s)) = None).
Proof.
  rewrite handleIngestion_id_run. repeat split.
  - destruct (events_of_body pd body) as [|e0 es] eqn:Ev.
    { simpl in H. destruct pre; discriminate. }
    rewrite H, results_of_thrown by assumption. simpl results_of.
    unfold response_id. cbn [hd_error option_map].
    assert (N : eventId r <> []).
    { assert (X : nth_error (snd (ingest_each sha date o 0 drawn (e0 :: es) s))
                    (List.length pre) = Some (Returned r)).
      { rewrite H. rewrite nth_error_app2 by lia. rewrite Nat.sub_diag. reflexivity. }
      apply ingest_each_nth in X. destruct X as [e [_ X]]. rewrite X.
      apply or_default_nonempty. assumption. }
    destruct (eventId r) as [|c t]; [congruence|]. reflexivity.
  - apply (ingest_each_nth sha date o drawn (events_of_body pd body) O s).
    rewrite H. rewrite nth_error_app2 by lia. rewrite Nat.sub_diag. reflexivity.
  - intros H. destruct (events_of_body pd body) as [|e0 es]; [reflexivity|].
    rewrite results_of_all_thrown by assumption.
    unfold response_id. cbn [hd_error option_map].
    unfold or_else. reflexivity.
  - intros envelope -> H. cbn [events_of_body]. unfold extractEvents.
    rewrite extractEvents_none by assumption. reflexivity.
Qed.

Lemma handleIngestion_id_witness :
  IngestionResponse.id
    (snd (handleIngestion Sample.sha Sample.hour true Sample.retry_then_bang
            Sample.parse_drawn Sample.drawn Sample.after_boom))
  = Some (js "e2").
Proof.
  destruct (handleIngestion_id Sample.sha Sample.hour true Sample.retry_then_bang
              Sample.parse_drawn Sample.drawn Sample.after_boom) as [H _].
  destruct (H [Threw EventsConstraint]
              {| eventId := js "e2"; issueId := js "issue-11" |} [])
    as [E _].
  - vm_compute. reflexivity.
  - reflexivity.
  - vm_compute. discriminate.
  - exact E.
Defined.

(** * Further properties *)

(** ** The hash *)

Lemma digit_unit_hex (d : Z) : 0 <= d < 16 -> is_lower_hex (digit_unit d) = true.
Proof.
  intros H. unfold digit_unit, is_lower_hex, is_digit, in_range.
  destruct (d <? 10) eqn:E.
  - apply Z.ltb_lt in E. apply orb_true_iff. left.
    apply andb_true_iff. split; apply Z.leb_le; lia.
  - apply Z.ltb_ge in E. apply orb_true_iff. right.
    apply andb_true_iff. split; apply Z.leb_le; lia.
Qed.

Lemma digits_fuel_hex (fuel : nat) :
  forall n acc, 0 <= n -> forallb is_lower_hex acc = true ->
                forallb is_lower_hex (digits_fuel fuel 16 n acc) = true.
Proof.
  induction fuel as [|fuel IH]; intros n acc Hn Hacc; simpl; [exact Hacc|].
  assert (D : forallb is_lower_hex (digit_unit (n mod 16) :: acc) = true).
  { simpl. rewrite Hacc, digit_unit_hex; [reflexivity|].
    apply Z.mod_pos_bound. lia. }
  destruct (n / 16 =? 0); [exact D|].
  apply IH; [apply Z.div_pos; lia | exact D].
Qed.

Lemma digits_fuel_length (fuel : nat) :
  forall (k : nat) n acc, (1 <= k)%nat -> 0 <= n < 16 ^ Z.of_nat k ->
    (List.length (digits_fuel fuel 16 n acc) <= List.length acc + k)%nat.
Proof.
  induction fuel as [|fuel IH]; intros k n acc Hk Hn; simpl; [lia|].
  destruct (n / 16 =? 0) eqn:E; [simpl; lia|].
  apply Z.eqb_neq in E.
  destruct k as [|k]; [lia|].
  destruct k as [|k].
  { exfalso. apply E. apply Z.div_small. simpl in Hn. lia. }
  specialize (IH (S k) (n / 16) (digit_unit (n mod 16) :: acc)).
  simpl List.length in IH.
  assert (B : 0 <= n / 16 < 16 ^ Z.of_nat (S k)).
  { split; [apply Z.div_pos; lia|].
    apply Z.div_lt_upper_bound; [lia|].
    replace (16 * 16 ^ Z.of_nat (S k)) with (16 ^ Z.of_nat (S (S k))); [lia|].
    rewrite (Nat2Z.inj_succ (S k)), Z.pow_succ_r by lia. reflexivity. }
  specialize (IH ltac:(lia) B). lia.
Qed.

(** X1.  A fingerprint is eight lower-case hex digits, whatever is
    hashed. *)
Theorem simpleHash_format (str : jsstring) :
  List.length (simpleHash str) = 8%nat
  /\ forallb is_lower_hex (simpleHash str) = true.
Proof.
  unfold simpleHash, padStart0, digits.
  set (h := toUint32 (fold_left hash_step str 5381)).
  assert (Hh : 0 <= h < 16 ^ Z.of_nat 8).
  { unfold h, toUint32. change (16 ^ Z.of_nat 8) with (2 ^ 32).
    apply Z.mod_pos_bound. lia. }
  pose proof (digits_fuel_length (S (Z.to_nat (Z.log2 h))) 8 h [] ltac:(lia) Hh) as L.
  change (List.length (@nil Z)) with O in L.
  split.
  - rewrite length_app, repeat_length. lia.
  - rewrite forallb_app. apply andb_true_iff. split.
    + clear. induction (8 - _)%nat; simpl; auto.
    + apply digits_fuel_hex; [lia | reflexivity].
Qed.

(** ** Titles, culprits and metadata *)


Lemma truthy_nonempty (x : option jsstring) (d : jsstring) :
  truthy x = true -> or_default x d <> [].
Proof.
  unfold or_default. destruct x as [[|c t]|]; simpl; discriminate.
Qed.



Lemma join_nonempty (sep : jsstring) (parts : list jsstring) :
  parts <> [] -> Forall (fun p => p <> []) parts -> join sep parts <> [].
Proof.
  intros N F. destruct parts as [|p rest]; [congruence|].
  inversion F as [|? ? Hp _]; subst.
  simpl. destruct rest as [|q rest']; [exact Hp|].
  intros E. apply app_eq_nil in E. destruct E as [E _]. contradiction.
Qed.

(** X3.  The culprit is the transaction when the event has one; without
    a transaction and without an exception there is none; and a culprit
    is never the empty string. *)
Theorem extractCulprit_cases (event : SentryEvent) :
  (truthy (transaction event) = true -> extractCulprit event = transaction event)
  /\ (truthy (transaction event) = false -> first_exception event = None ->
      extractCulprit event = None)
  /\ extractCulprit event <> Some [].
Proof.
  unfold extractCulprit. repeat split.
  - intros T. rewrite T. reflexivity.
  - intros T X. rewrite T, X. reflexivity.
  - destruct (truthy (transaction event)) eqn:T.
    { destruct (transaction event) as [[|c t]|]; simpl in T; discriminate. }
    destruct (first_exception event) as [exc|]; [|discriminate].
    destruct (getTopFrame (stacktrace exc)) as [frame|]; [|discriminate].
    match goal with |- context [match ?l with [] => None | _ => _ end] =>
      assert (F : Forall (fun p : jsstring => p <> []) l); [|destruct l as [|p ps] eqn:L]
    end.
    { apply Forall_app. split; [|apply Forall_app; split].
      - destruct (truthy (filename frame)) eqn:Fn; [|constructor].
        constructor; [|constructor]. apply truthy_nonempty. exact Fn.
      - destruct (_ && _); constructor; [discriminate | constructor].
      - destruct (lineno frame) as [n|]; [|constructor].
        destruct (truthy_num (Some n)); constructor; [discriminate | constructor]. }
    + discriminate.
    + intros E. injection E as E.
      apply (join_nonempty (js " ") (p :: ps)); [discriminate | exact F | exact E].
Qed.

Lemma extractCulprit_cases_witness :
  extractCulprit Sample.failed_a = Some (js "app.js in handleClick at line 42")
  /\ extractCulprit Sample.boom = None.
Proof.
  split; [vm_compute; reflexivity|].
  destruct (extractCulprit_cases Sample.boom) as [_ [H _]].
  apply H; reflexivity.
Defined.

(** ** The authentication header *)

Lemma startsWith_app (p s : jsstring) : startsWith p (p ++ s) = true.
Proof.
  induction p as [|x p IH]; simpl; [reflexivity|].
  rewrite Z.eqb_refl. exact IH.
Qed.

Lemma split_on_nonempty (sep : Z) (s : jsstring) : split_on sep s <> [].
Proof.
  destruct s as [|c t]; simpl; [discriminate|].
  destruct (c =? sep); [discriminate|].
  destruct (split_on sep t); discriminate.
Qed.

(** Splitting at the first separator. *)
Lemma split_on_app (sep : Z) (a b : jsstring) :
  forallb (fun c => negb (c =? sep)) a = true ->
  split_on sep (a ++ sep :: b) = a :: split_on sep b.
Proof.
  induction a as [|x a IH]; simpl; intros H.
  - rewrite Z.eqb_refl. reflexivity.
  - apply andb_true_iff in H. destruct H as [Hx Ha].
    apply negb_true_iff in Hx. rewrite Hx, (IH Ha). reflexivity.
Qed.

Lemma split_on_none (sep : Z) (a : jsstring) :
  forallb (fun c => negb (c =? sep)) a = true -> split_on sep a = [a].
Proof.
  induction a as [|x a IH]; simpl; intros H; [reflexivity|].
  apply andb_true_iff in H. destruct H as [Hx Ha].
  apply negb_true_iff in Hx. rewrite Hx, (IH Ha). reflexivity.
Qed.

Lemma trimStart_id (s : jsstring) : no_unit is_space s = true -> trimStart s = s.
Proof.
  destruct s as [|c t]; simpl; [reflexivity|].
  intros H. apply andb_true_iff in H. destruct H as [Hc _].
  apply negb_true_iff in Hc. rewrite Hc. reflexivity.
Qed.

Lemma trim_id (s : jsstring) : no_unit is_space s = true -> trim s = s.
Proof.
  intros H. unfold trim. rewrite (trimStart_id s H).
  rewrite trimStart_id; [apply rev_involutive|].
  unfold no_unit in *. rewrite forallb_forall in *.
  intros c Hc. apply H. apply in_rev. exact Hc.
Qed.

Lemma no_unit_app (p : Z -> bool) (a b : jsstring) :
  no_unit p (a ++ b) = no_unit p a && no_unit p b.
Proof. apply forallb_app. Qed.

(** X4.  The key comes back out of the header the SDKs send, whatever
    the version and the key are, as long as they hold no comma, no
    white space and, for the key, no equals sign. *)
Theorem extractKeyFromAuthHeader_sdk (version key : jsstring) :
  no_unit is_comma version = true -> no_unit is_space version = true ->
  no_unit is_comma key = true -> no_unit is_space key = true ->
  no_unit is_equals key = true ->
  extractKeyFromAuthHeader (More.sdk_auth_header version key) = Some key.
Proof.
  intros Vc Vs Kc Ks Ke.
  unfold extractKeyFromAuthHeader, More.sdk_auth_header.
  change (js "Sentry sentry_version=") with (js "Sentry " ++ js "sentry_version=").
  rewrite <- !app_assoc. rewrite startsWith_app.
  change (skipn 7 (js "Sentry " ++ ?x)) with x.
  match goal with |- scan_auth_parts (split_on 44 ?b) = _ =>
    replace b with ((js "sentry_version=" ++ version) ++ 44 :: js " sentry_key=" ++ key)
      by (rewrite <- app_assoc; reflexivity)
  end.
  rewrite split_on_app.
  2:{ rewrite forallb_app. apply andb_true_iff. split; [reflexivity | exact Vc]. }
  rewrite split_on_none.
  2:{ rewrite forallb_app. apply andb_true_iff. split; [reflexivity | exact Kc]. }
  cbn [scan_auth_parts].
  rewrite trim_id.
  2:{ rewrite no_unit_app, Vs. reflexivity. }
  change (js "sentry_version=" ++ version)
    with (js "sentry_version" ++ 61 :: version).
  rewrite split_on_app by reflexivity.
  change (jseqb (js "sentry_version") (js "sentry_key")) with false.
  cbv iota.
  assert (T : trim (js " sentry_key=" ++ key) = js "sentry_key" ++ 61 :: key).
  { unfold trim. change (trimStart (js " sentry_key=" ++ key))
      with (js "sentry_key=" ++ key).
    rewrite trimStart_id; [rewrite rev_involutive; reflexivity|].
    unfold no_unit in *. rewrite forallb_forall in *.
    intros c Hc. apply in_rev in Hc. apply in_app_or in Hc.
    destruct Hc as [Hc|Hc]; [|apply Ks; exact Hc].
    revert c Hc. apply forallb_forall. reflexivity. }
  rewrite T. rewrite split_on_app by reflexivity.
  rewrite split_on_none by exact Ke.
  reflexivity.
Qed.

Lemma extractKeyFromAuthHeader_sdk_witness :
  extractKeyFromAuthHeader (More.sdk_auth_header (js "7") More.hex_key)
  = Some More.hex_key.
Proof.
  apply extractKeyFromAuthHeader_sdk; reflexivity.
Defined.

(** X5.  Without the [Sentry ] prefix no key is read, whatever the
    header lists; and the first [sentry_key] of the list decides. *)
Theorem extractKeyFromAuthHeader_prefix (header : jsstring) :
  (startsWith (js "Sentry ") header = false ->
   extractKeyFromAuthHeader header = None)
  /\ (forall first rest,
        no_unit is_comma first = true -> no_unit is_space first = true ->
        no_unit is_equals first = true ->
        header = js "Sentry sentry_key=" ++ first ++ 44 :: rest ->
        extractKeyFromAuthHeader header = Some first).
Proof.
  split.
  - intros H. unfold extractKeyFromAuthHeader. rewrite H. reflexivity.
  - intros first rest Fc Fs Fe ->.
    unfold extractKeyFromAuthHeader.
    change (js "Sentry sentry_key=") with (js "Sentry " ++ js "sentry_key=").
    rewrite <- !app_assoc. rewrite startsWith_app.
    change (skipn 7 (js "Sentry " ++ ?x)) with x.
    replace (js "sentry_key=" ++ first ++ 44 :: rest)
      with ((js "sentry_key=" ++ first) ++ 44 :: rest)
      by (rewrite <- app_assoc; reflexivity).
    rewrite split_on_app.
    2:{ rewrite forallb_app. apply andb_true_iff. split; [reflexivity | exact Fc]. }
    cbn [scan_auth_parts].
    rewrite trim_id.
    2:{ rewrite no_unit_app, Fs. reflexivity. }
    change (js "sentry_key=" ++ first) with (js "sentry_key" ++ 61 :: first).
    rewrite split_on_app by reflexivity.
    rewrite split_on_none by exact Fe.
    reflexivity.
Qed.

Lemma extractKeyFromAuthHeader_prefix_witness :
  extractKeyFromAuthHeader (js "Bearer sentry_key=abc") = None
  /\ extractKeyFromAuthHeader (js "Sentry sentry_key=abc,sentry_key=def") = Some (js "abc").
Proof.
  split.
  - apply (proj1 (extractKeyFromAuthHeader_prefix (js "Bearer sentry_key=abc"))).
    reflexivity.
  - apply (proj2 (extractKeyFromAuthHeader_prefix
                    (js "Sentry sentry_key=abc,sentry_key=def"))
             (js "abc") (js "sentry_key=def")); reflexivity.
Defined.

(** ** Events of an envelope *)

Lemma truthy_some_nonempty (x : jsstring) : x <> [] -> truthy (Some x) = true.
Proof. destruct x; [congruence | reflexivity]. Qed.

Lemma extractEvents_from_cons parse_drawn k it its :
  extractEvents_from k parse_drawn (it :: its) =
    if is_event_item it
    then completed parse_drawn k (EnvelopeItem.payload it)
         :: extractEvents_from (S k) parse_drawn its
    else extractEvents_from (S k) parse_drawn its.
Proof. reflexivity. Qed.

Lemma completed_id parse_drawn k event :
  truthy (event_id event) = true -> truthy (timestamp event) = true ->
  completed parse_drawn k event = event.
Proof. intros I T. unfold completed. rewrite I, T. reflexivity. Qed.

Lemma extractEvents_from_spec parse_drawn (its : list EnvelopeItem.t) :
  forall k,
    List.length (extractEvents_from k parse_drawn its)
    = List.length (filter is_event_item its)
    /\ (forall e, In e (extractEvents_from k parse_drawn its) ->
          exists j item, In item its /\ is_event_item item = true
                         /\ e = completed parse_drawn j (EnvelopeItem.payload item))
    /\ (Forall (fun item => truthy (event_id (EnvelopeItem.payload item)) = true
                            /\ truthy (timestamp (EnvelopeItem.payload item)) = true) its ->
        extractEvents_from k parse_drawn its
        = map EnvelopeItem.payload (filter is_event_item its)).
Proof.
  induction its as [|it its IH]; intros k.
  - simpl. repeat split; auto. intros e [].
  - rewrite extractEvents_from_cons. cbn [filter].
    destruct (IH (S k)) as [L [M U]].
    destruct (is_event_item it) eqn:T.
    + split; [|split].
      * cbn [List.length]. rewrite L. reflexivity.
      * intros e [<-|He].
        -- exists k, it. split; [left; reflexivity|]. split; [exact T|reflexivity].
        -- destruct (M e He) as [j [item [Hi [Ht Eq]]]].
           exists j, item. split; [right; exact Hi|]. split; assumption.
      * intros F. inversion F as [|? ? [Hid Hts] F']; subst.
        cbn [map]. rewrite (completed_id _ _ _ Hid Hts), (U F'). reflexivity.
    + split; [|split].
      * exact L.
      * intros e He. destruct (M e He) as [j [item [Hi [Ht Eq]]]].
        exists j, item. split; [right; exact Hi|]. split; assumption.
      * intros F. inversion F as [|? ? _ F']; subst. apply U. exact F'.
Qed.

Lemma completed_truthy parse_drawn k event :
  filter (fun c => negb (c =? 45)) (fst (parse_drawn k)) <> [] ->
  snd (parse_drawn k) <> [] ->
  truthy (event_id (completed parse_drawn k event)) = true
  /\ truthy (timestamp (completed parse_drawn k event)) = true.
Proof.
  intros U T. unfold completed.
  destruct (truthy (event_id event)) eqn:I; destruct (truthy (timestamp event)) eqn:S;
    cbn [with_event_id with_timestamp event_id timestamp]; rewrite ?I, ?S;
    cbn [with_event_id with_timestamp event_id timestamp];
    split; try reflexivity; try assumption;
    apply truthy_some_nonempty; assumption.
Qed.

(** X6.  [extractEvents] yields one event per item of type [event] or
    [transaction], in order, and nothing for other items; each comes out
    with an event id and a timestamp; and events that already carry both
    come out as they went in. *)
Theorem extractEvents_complete parse_drawn (envelope : ParsedEnvelope) :
  (forall k, filter (fun c => negb (c =? 45)) (fst (parse_drawn k)) <> []
             /\ snd (parse_drawn k) <> []) ->
  List.length (extractEvents parse_drawn envelope)
  = List.length (filter is_event_item (items envelope))
  /\ Forall (fun e => truthy (event_id e) = true /\ truthy (timestamp e) = true)
       (extractEvents parse_drawn envelope)
  /\ (Forall (fun item => truthy (event_id (EnvelopeItem.payload item)) = true
                          /\ truthy (timestamp (EnvelopeItem.payload item)) = true)
        (items envelope) ->
      extractEvents parse_drawn envelope
      = map EnvelopeItem.payload (filter is_event_item (items envelope))).
Proof.
  intros D. unfold extractEvents.
  destruct (extractEvents_from_spec parse_drawn (items envelope) O) as [L [M U]].
  split; [exact L|]. split; [|exact U].
  apply Forall_forall. intros e He.
  destruct (M e He) as [j [item [_ [_ ->]]]].
  apply completed_truthy; apply D.
Qed.

Lemma extractEvents_complete_witness :
  List.length
    (extractEvents Sample.parse_drawn
       {| items := [Sample.item "session" Sample.blank;
                    Sample.item "event" Sample.blank;
                    Sample.item "transaction" Sample.boom] |})
  = 2%nat.
Proof.
  destruct (extractEvents_complete Sample.parse_drawn
              {| items := [Sample.item "session" Sample.blank;
                           Sample.item "event" Sample.blank;
                           Sample.item "transaction" Sample.boom] |}) as [L _].
  - intros k. split.
    + unfold Sample.parse_drawn. cbn [fst]. rewrite filter_app.
      intros E. apply app_eq_nil in E. destruct E as [E _].
      vm_compute in E. discriminate.
    + discriminate.
  - rewrite L. reflexivity.
Defined.

(** ** The key of a request *)

(** X7.  The key of an ingestion request: a query parameter wins over
    both headers; without it the [X-Sentry-Auth] header is read; without
    either, basic authorization gives what stands before the colon; and
    with none of the three there is no key (401 [missing_auth]). *)
Theorem resolvePublicKey_order atob (q x a : option jsstring) :
  (truthy q = true -> resolvePublicKey atob q x a = q)
  /\ (truthy q = false -> truthy x = true ->
      truthy (extractKeyFromAuthHeader (or_default x [])) = true ->
      resolvePublicKey atob q x a = extractKeyFromAuthHeader (or_default x []))
  /\ (forall encoded key rest,
        truthy q = false -> truthy x = false ->
        a = Some (js "Basic " ++ encoded) ->
        atob encoded = Some (key ++ 58 :: rest) ->
        key <> [] -> no_unit is_colon key = true ->
        resolvePublicKey atob q x a = Some key)
  /\ (truthy q = false -> truthy x = false -> a = None ->
      resolvePublicKey atob q x a = None).
Proof.
  unfold resolvePublicKey. repeat split.
  - intros Q. rewrite Q. cbv zeta. rewrite Q. rewrite Q. rewrite Q. reflexivity.
  - intros Q X K. rewrite Q. cbn [truthy]. rewrite X. rewrite K. rewrite K. reflexivity.
  - intros encoded key rest Q X -> A Kn Kc. rewrite Q. cbn [truthy]. rewrite X.
    cbn [truthy]. rewrite startsWith_app.
    change (skipn 6 (js "Basic " ++ encoded)) with encoded. rewrite A.
    rewrite split_on_app by exact Kc. cbn [hd_error].
    rewrite (truthy_some_nonempty key Kn). reflexivity.
  - intros Q X ->. rewrite Q. cbn [truthy]. rewrite X. reflexivity.
Qed.

Lemma resolvePublicKey_order_witness :
  resolvePublicKey (fun _ => None) (Some More.hex_key)
    (Some (More.sdk_auth_header (js "7") (js "other"))) None
  = Some More.hex_key.
Proof.
  apply (proj1 (resolvePublicKey_order (fun _ => None) (Some More.hex_key)
                  (Some (More.sdk_auth_header (js "7") (js "other"))) None)).
  reflexivity.
Defined.

(** ** Keys and references *)

Lemma NoDup_map_snoc {X Y} (f : X -> Y) (l : list X) (x : X) :
  NoDup (map f l) -> ~ In (f x) (map f l) -> NoDup (map f (l ++ [x])).
Proof.
  intros N I. rewrite map_app. simpl.
  apply NoDup_app; [exact N | repeat constructor; intros [] | ].
  intros y Hy [<-|[]]. contradiction.
Qed.

Lemma NoDup_map_filter {X Y} (f : X -> Y) (p : X -> bool) (l : list X) :
  NoDup (map f l) -> NoDup (map f (filter p l)).
Proof.
  induction l as [|x l IH]; simpl; intros N; [constructor|].
  inversion N as [|? ? Hx N']; subst.
  destruct (p x); simpl; [|apply IH; exact N'].
  constructor; [|apply IH; exact N'].
  intros I. apply Hx. apply in_map_iff in I. destruct I as [y [E Hy]].
  apply filter_In in Hy. apply in_map_iff. exists y. tauto.
Qed.

Lemma existsb_false_key {X} (p : X -> bool) (l : list X) (x : X) :
  existsb p l = false -> In x l -> p x = false.
Proof.
  intros E I. destruct (p x) eqn:P; [|reflexivity].
  assert (T : existsb p l = true) by (apply existsb_exists; eauto). congruence.
Qed.

Lemma keeps_well_keyed_refl (s : Shard) : keeps_well_keyed s s.
Proof. intros H. exact H. Qed.

Lemma keeps_well_keyed_trans (a b c : Shard) :
  keeps_well_keyed a b -> keeps_well_keyed b c -> keeps_well_keyed a c.
Proof. unfold keeps_well_keyed. auto. Qed.

(** A rewrite of issue rows that leaves ids and fingerprints alone. *)
Lemma rewrite_issues_keyed (p : Issues.row -> bool) (f : Issues.row -> Issues.row) :
  (forall r, Issues.id (f r) = Issues.id r) ->
  (forall r, Issues.fingerprint (f r) = Issues.fingerprint r) ->
  keeps keeps_well_keyed (with_issues (update_where p f)).
Proof.
  intros Hi Hf s [[K1 [K2 [K3 [K4 K5]]]] [R1 [R2 R3]]].
  unfold with_issues; cbn [fst]. split; [split; [|split; [|split; [|split]]] | split; [|split]];
    cbn [issues events issue_stats issue_users];
    rewrite ?(map_update_where Issues.id p f (issues s) Hi),
            ?(map_update_where Issues.fingerprint p f (issues s) Hf); assumption.
Qed.

Lemma insert_issue_keyed (r : Issues.row) : keeps keeps_well_keyed (insert_issue r).
Proof.
  intros s [[K1 [K2 [K3 [K4 K5]]]] [R1 [R2 R3]]]. rewrite insert_issue_run.
  destruct (existsb _ (issues s)) eqn:E; [repeat split; assumption|].
  cbn [fst].
  assert (N : forall x, In x (issues s) ->
                        Issues.id x <> Issues.id r
                        /\ Issues.fingerprint x <> Issues.fingerprint r).
  { intros x Hx. pose proof (existsb_false_key _ _ x E Hx) as F.
    apply orb_false_iff in F. destruct F as [F1 F2].
    apply jseqb_neq in F1. apply jseqb_neq in F2. tauto. }
  split; [split; [|split; [|split; [|split]]] | split; [|split]];
    cbn [issues events issue_stats issue_users]; try assumption.
  - apply NoDup_map_snoc; [exact K1|]. intros I. apply in_map_iff in I.
    destruct I as [x [Ex Hx]]. destruct (N x Hx) as [N1 N2]. contradiction.
  - apply NoDup_map_snoc; [exact K2|]. intros I. apply in_map_iff in I.
    destruct I as [x [Ex Hx]]. destruct (N x Hx) as [N1 N2]. contradiction.
  - intros e He. rewrite map_app. apply in_or_app. left. apply R1. exact He.
  - intros e He. rewrite map_app. apply in_or_app. left. apply R2. exact He.
  - intros e He. rewrite map_app. apply in_or_app. left. apply R3. exact He.
Qed.

Lemma insert_event_keyed (r : Events.row) : keeps keeps_well_keyed (insert_event r).
Proof.
  intros s [[K1 [K2 [K3 [K4 K5]]]] [R1 [R2 R3]]]. rewrite insert_event_run.
  destruct (_ || _) eqn:E; [repeat split; assumption|].
  apply orb_false_iff in E. destruct E as [E1 E2]. apply negb_false_iff in E2.
  cbn [fst].
  split; [split; [|split; [|split; [|split]]] | split; [|split]];
    cbn [issues events issue_stats issue_users]; try assumption.
  - apply NoDup_map_snoc; [exact K3|]. intros I. apply in_map_iff in I.
    destruct I as [x [Ex Hx]]. pose proof (existsb_false_key _ _ x E1 Hx) as F.
    apply jseqb_neq in F. contradiction.
  - intros e He. apply in_app_or in He. destruct He as [He|[<-|[]]].
    + apply R1. exact He.
    + apply has_id_in. exact E2.
Qed.

Lemma upsert_stat_run (issueId bucket : jsstring) (s : Shard) :
  upsert_stat issueId bucket s =
    if negb (existsb (has_id issueId) (issues s))
    then (s, Threw StatsConstraint)
    else ({| issues := issues s; events := events s;
             issue_stats :=
               if existsb (stat_key issueId bucket) (issue_stats s)
               then update_where (stat_key issueId bucket) IssueStats.bump (issue_stats s)
               else issue_stats s ++ [{| IssueStats.issue_id := issueId;
                                         IssueStats.bucket := bucket;
                                         IssueStats.count := 1 |}];
             issue_users := issue_users s |},
          Returned tt).
Proof.
  unfold upsert_stat, select. rewrite bind_run.
  destruct (negb _); reflexivity.
Qed.

Lemma stat_key_id (i b : jsstring) (r : IssueStats.row) :
  stat_key i b r = true <-> stat_id r = (i, b).
Proof.
  unfold stat_key, stat_id. rewrite andb_true_iff, !jseqb_eq.
  split; [intros [-> ->]; reflexivity | intros E; injection E; auto].
Qed.

Lemma user_key_id (i h : jsstring) (r : IssueUsers.row) :
  user_key i h r = true <-> user_id_of r = (i, h).
Proof.
  unfold user_key, user_id_of. rewrite andb_true_iff, !jseqb_eq.
  split; [intros [-> ->]; reflexivity | intros E; injection E; auto].
Qed.

Lemma upsert_stat_keyed (issueId bucket : jsstring) :
  keeps keeps_well_keyed (upsert_stat issueId bucket).
Proof.
  intros s [[K1 [K2 [K3 [K4 K5]]]] [R1 [R2 R3]]]. rewrite upsert_stat_run.
  destruct (negb _) eqn:E; [repeat split; assumption|].
  apply negb_false_iff in E. cbn [fst].
  split; [split; [|split; [|split; [|split]]] | split; [|split]];
    cbn [issues events issue_stats issue_users]; try assumption.
  - destruct (existsb (stat_key issueId bucket) (issue_stats s)) eqn:X.
    + rewrite map_update_where by (intros r; reflexivity). exact K4.
    + apply NoDup_map_snoc; [exact K4|]. intros I. apply in_map_iff in I.
      destruct I as [x [Ex Hx]]. pose proof (existsb_false_key _ _ x X Hx) as F.
      assert (T : stat_key issueId bucket x = true) by (apply stat_key_id; exact Ex).
      congruence.
  - intros r Hr.
    destruct (existsb (stat_key issueId bucket) (issue_stats s)).
    + unfold update_where in Hr. apply in_map_iff in Hr.
      destruct Hr as [x [Ex Hx]]. specialize (R2 x Hx).
      destruct (stat_key issueId bucket x); subst r; exact R2.
    + apply in_app_or in Hr. destruct Hr as [Hr|[<-|[]]].
      * apply R2. exact Hr.
      * apply has_id_in. exact E.
Qed.

Lemma insert_user_run (r : IssueUsers.row) (s : Shard) :
  insert_user r s =
    if existsb (user_key (IssueUsers.issue_id r) (IssueUsers.user_hash r)) (issue_users s)
       || negb (existsb (has_id (IssueUsers.issue_id r)) (issues s))
    then (s, Threw UsersConstraint)
    else ({| issues := issues s; events := events s; issue_stats := issue_stats s;
             issue_users := issue_users s ++ [r] |},
          Returned tt).
Proof.
  unfold insert_user, select. rewrite bind_run.
  destruct (_ || _); reflexivity.
Qed.

Lemma insert_user_keyed (r : IssueUsers.row) : keeps keeps_well_keyed (insert_user r).
Proof.
  intros s [[K1 [K2 [K3 [K4 K5]]]] [R1 [R2 R3]]]. rewrite insert_user_run.
  destruct (_ || _) eqn:E; [repeat split; assumption|].
  apply orb_false_iff in E. destruct E as [E1 E2]. apply negb_false_iff in E2.
  cbn [fst].
  split; [split; [|split; [|split; [|split]]] | split; [|split]];
    cbn [issues events issue_stats issue_users]; try assumption.
  - apply NoDup_map_snoc; [exact K5|]. intros I. apply in_map_iff in I.
    destruct I as [x [Ex Hx]]. pose proof (existsb_false_key _ _ x E1 Hx) as F.
    assert (T : user_key (IssueUsers.issue_id r) (IssueUsers.user_hash r) x = true)
      by (apply user_key_id; exact Ex).
    congruence.
  - intros u Hu. apply in_app_or in Hu. destruct Hu as [Hu|[<-|[]]].
    + apply R3. exact Hu.
    + apply has_id_in. exact E2.
Qed.

Lemma update_user_seen_keyed (now issueId userHash : jsstring) :
  keeps keeps_well_keyed (update_user_seen now issueId userHash).
Proof.
  intros s [[K1 [K2 [K3 [K4 K5]]]] [R1 [R2 R3]]].
  unfold update_user_seen, with_users. cbn [fst].
  split; [split; [|split; [|split; [|split]]] | split; [|split]];
    cbn [issues events issue_stats issue_users]; try assumption.
  - rewrite map_update_where by (intros r; reflexivity). exact K5.
  - intros r Hr. unfold update_where in Hr. apply in_map_iff in Hr.
    destruct Hr as [x [Ex Hx]]. specialize (R3 x Hx).
    destruct (user_key issueId userHash x); subst r; exact R3.
Qed.

Lemma delete_issue_keyed (issueId : jsstring) :
  keeps keeps_well_keyed (delete_issue issueId).
Proof.
  intros s [[K1 [K2 [K3 [K4 K5]]]] [R1 [R2 R3]]].
  assert (G : forall j, In j (map Issues.id (issues s)) -> jseqb j issueId = false ->
                        In j (map Issues.id (delete_where (has_id issueId) (issues s)))).
  { intros j Hj Hn. apply in_map_iff in Hj. destruct Hj as [r [Er Hr]].
    apply in_map_iff. exists r. split; [exact Er|].
    apply filter_In. split; [exact Hr|]. unfold has_id. rewrite Er, Hn. reflexivity. }
  unfold delete_issue. cbn [fst].
  split; [split; [|split; [|split; [|split]]] | split; [|split]];
    cbn [issues events issue_stats issue_users];
    try (apply NoDup_map_filter; assumption).
  - intros e He. apply filter_In in He. destruct He as [He Hn].
    apply G; [apply R1; exact He|]. unfold of_issue in Hn.
    apply negb_true_iff in Hn. exact Hn.
  - intros e He. apply filter_In in He. destruct He as [He Hn].
    apply G; [apply R2; exact He|]. apply negb_true_iff in Hn. exact Hn.
  - intros e He. apply filter_In in He. destruct He as [He Hn].
    apply G; [apply R3; exact He|]. apply negb_true_iff in Hn. exact Hn.
Qed.

Ltac keyed_bind :=
  apply keeps_bind; [exact keeps_well_keyed_trans | |].

Ltac keyed_done :=
  first [ apply keeps_ret; exact keeps_well_keyed_refl
        | apply keeps_throw; exact keeps_well_keyed_refl
        | apply keeps_select; exact keeps_well_keyed_refl
        | apply keeps_one; exact keeps_well_keyed_refl
        | apply keeps_getHourBucket; exact keeps_well_keyed_refl ].

Lemma handleIngest_keyed sha date o event rt :
  keeps keeps_well_keyed (handleIngest sha date o event rt).
Proof.
  unfold handleIngest. keyed_bind.
  { unfold ingest_issue. keyed_bind; [keyed_done|]. intros [existing|].
    - keyed_bind; [|intros _; keyed_done].
      apply rewrite_issues_keyed; intros r; reflexivity.
    - keyed_bind; [apply insert_issue_keyed | intros _; keyed_done]. }
  intros i. keyed_bind; [apply insert_event_keyed|].
  intros _. keyed_bind.
  { unfold ingest_stats. keyed_bind; [keyed_done|]. intros b. apply upsert_stat_keyed. }
  intros _. keyed_bind; [|intros _; keyed_done].
  unfold ingest_user. destruct (user event) as [u|]; [|keyed_done].
  cbv zeta. destruct (truthy (hashUserIdentifier sha (Some u))); [|keyed_done].
  keyed_bind; [keyed_done|]. intros rows. keyed_bind; [keyed_done|].
  intros [x|].
  - apply update_user_seen_keyed.
  - keyed_bind; [apply insert_user_keyed|]. intros _.
    apply rewrite_issues_keyed; intros r; reflexivity.
Qed.

Lemma handleUpdateIssue_keyed o issueId status :
  keeps keeps_well_keyed (handleUpdateIssue o issueId status).
Proof.
  unfold handleUpdateIssue. destruct issueId as [|c i]; [keyed_done|].
  destruct (truthy status); [|keyed_done].
  keyed_bind; [apply rewrite_issues_keyed; intros r; reflexivity|].
  intros _. keyed_bind; [keyed_done|]. intros rows.
  keyed_bind; [keyed_done|]. intros row. keyed_done.
Qed.

Lemma handleDeleteIssue_keyed issueId : keeps keeps_well_keyed (handleDeleteIssue issueId).
Proof.
  unfold handleDeleteIssue. destruct issueId as [|c i]; [keyed_done|].
  keyed_bind; [apply delete_issue_keyed | intros _; keyed_done].
Qed.

Lemma step_keyed sha date o s op :
  well_keyed s -> well_keyed (step sha date o s op).
Proof.
  intros W. destruct op as [event rt|issueId status|issueId]; simpl.
  - apply handleIngest_keyed. exact W.
  - apply handleUpdateIssue_keyed. exact W.
  - apply handleDeleteIssue_keyed. exact W.
Qed.

Lemma empty_well_keyed : well_keyed empty_shard.
Proof.
  split; [repeat split; constructor | repeat split; intros x []].
Qed.

(** X8.  After any run of ingests, updates and deletes from the empty
    shard, whether its operations return or throw: issue ids, issue
    fingerprints, event ids, (issue, bucket) pairs and (issue, user)
    pairs are unique, and every event, bucket and user row belongs to an
    issue of the shard. *)
Theorem run_well_keyed sha date o (ops : list Op) :
  well_keyed (run sha date o ops empty_shard).
Proof.
  assert (G : forall ops s, well_keyed s -> well_keyed (run sha date o ops s)).
  { clear ops. induction ops as [|op ops IH]; intros s W; simpl; [exact W|].
    apply IH. apply step_keyed. exact W. }
  apply G. exact empty_well_keyed.
Qed.

(** ** User consistency *)

Lemma filter_map_length {X Y} (f : X -> Y) (p : Y -> bool) (l : list X) :
  List.length (filter (fun x => p (f x)) l) = List.length (filter p (map f l)).
Proof.
  induction l as [|x l IH]; simpl; [reflexivity|].
  destruct (p (f x)); simpl; rewrite IH; reflexivity.
Qed.

Lemma users_counted_view (s s' : Shard) :
  same_user_view s s' -> users_counted s -> users_counted s'.
Proof.
  intros [V1 V2] [C R].
  assert (I : forall l, map Issues.id l = map fst (map id_user_count l))
    by (intros l; rewrite map_map; reflexivity).
  split.
  - intros r' Hr'. apply (in_map id_user_count) in Hr'. rewrite V1 in Hr'.
    apply in_map_iff in Hr'. destruct Hr' as [r [Eq Hr]].
    injection Eq as Ei Ec. rewrite <- Ei, <- Ec, (C r Hr). unfold users_of.
    rewrite (filter_map_length IssueUsers.issue_id (fun j => jseqb j (Issues.id r))).
    rewrite (filter_map_length IssueUsers.issue_id (fun j => jseqb j (Issues.id r))
               (issue_users s')).
    rewrite V2. reflexivity.
  - intros u Hu. apply (in_map IssueUsers.issue_id) in Hu. rewrite V2 in Hu.
    apply in_map_iff in Hu. destruct Hu as [u0 [Eu Hu0]].
    rewrite <- Eu, (I (issues s')), V1, <- I. apply R. exact Hu0.
Qed.

Lemma same_user_view_refl (s : Shard) : same_user_view s s.
Proof. split; reflexivity. Qed.

Lemma same_user_view_trans (a b c : Shard) :
  same_user_view a b -> same_user_view b c -> same_user_view a c.
Proof. intros [A1 A2] [B1 B2]. split; congruence. Qed.

Lemma keeps_users_counted_refl (s : Shard) : keeps_users_counted s s.
Proof. intros H. exact H. Qed.

Lemma keeps_users_counted_trans (a b c : Shard) :
  keeps_users_counted a b -> keeps_users_counted b c -> keeps_users_counted a c.
Proof. unfold keeps_users_counted. auto. Qed.

Lemma keeps_view_counted {A} (m : Sql A) :
  keeps same_user_view m -> keeps keeps_users_counted m.
Proof. intros H s C. eapply users_counted_view; [apply H | exact C]. Qed.

Lemma rewrite_issues_view (p : Issues.row -> bool) (f : Issues.row -> Issues.row) :
  (forall r, id_user_count (f r) = id_user_count r) ->
  keeps same_user_view (with_issues (update_where p f)).
Proof.
  intros H s. split; cbn [fst with_issues issues issue_users]; [|reflexivity].
  apply map_update_where. exact H.
Qed.

Lemma insert_event_view (r : Events.row) : keeps same_user_view (insert_event r).
Proof.
  intros s. rewrite insert_event_run. destruct (_ || _); split; reflexivity.
Qed.

Lemma upsert_stat_view (i b : jsstring) : keeps same_user_view (upsert_stat i b).
Proof.
  intros s. rewrite upsert_stat_run. destruct (negb _); split; reflexivity.
Qed.

Lemma update_user_seen_view (now i h : jsstring) :
  keeps same_user_view (update_user_seen now i h).
Proof.
  intros s. split; cbn [fst update_user_seen with_users issues issue_users];
    [reflexivity|].
  apply map_update_where. intros r. reflexivity.
Qed.

Lemma insert_issue_counted (r : Issues.row) :
  Issues.user_count r = 0 -> keeps keeps_users_counted (insert_issue r).
Proof.
  intros Z0 s [C R]. rewrite insert_issue_run.
  destruct (existsb _ (issues s)) eqn:E; [split; assumption|].
  cbn [fst]. split.
  - intros x Hx. unfold users_of. cbn [issues issue_users] in *.
    apply in_app_or in Hx. destruct Hx as [Hx|[<-|[]]]; [apply C; exact Hx|].
    rewrite Z0, filter_none; [reflexivity|].
    intros u Hu. apply jseqb_neq. intros Eq. specialize (R u Hu). rewrite Eq in R.
    apply in_map_iff in R. destruct R as [y [Ey Hy]].
    pose proof (existsb_false_key _ _ y E Hy) as F.
    apply orb_false_iff in F. destruct F as [F _]. apply jseqb_neq in F. contradiction.
  - intros u Hu. cbn [issues issue_users] in *. rewrite map_app.
    apply in_or_app. left. apply R. exact Hu.
Qed.

(** A new user row and the bump of the count, taken together. *)
Lemma insert_user_bump_counted (u : IssueUsers.row) :
  keeps keeps_users_counted
    (insert_user u ;; bump_user_count (IssueUsers.issue_id u)).
Proof.
  intros s [C R]. rewrite bind_run, insert_user_run.
  destruct (_ || _) eqn:E; [split; assumption|].
  apply orb_false_iff in E. destruct E as [_ E2]. apply negb_false_iff in E2.
  cbn [fst bump_user_count with_issues]. split.
  - intros x Hx. unfold users_of. cbn [issues issue_users] in *.
    unfold update_where in Hx. apply in_map_iff in Hx. destruct Hx as [r [Er Hr]].
    specialize (C r Hr). unfold users_of in C.
    rewrite filter_app_one, length_app.
    destruct (has_id (IssueUsers.issue_id u) r) eqn:H; subst x; unfold has_id in H.
    + apply jseqb_eq in H.
      cbn [Issues.id Issues.user_count Issues.bump_user_count].
      rewrite H, jseqb_refl. simpl List.length. rewrite <- H. lia.
    + rewrite jseqb_sym, H. simpl List.length. lia.
  - intros x Hx. cbn [issues issue_users] in *.
    rewrite (map_update_where Issues.id) by (intros r; reflexivity).
    apply in_app_or in Hx. destruct Hx as [Hx|[<-|[]]]; [apply R; exact Hx|].
    apply has_id_in. exact E2.
Qed.

Lemma delete_issue_counted (issueId : jsstring) :
  keeps keeps_users_counted (delete_issue issueId).
Proof.
  intros s [C R]. unfold delete_issue. cbn [fst]. split.
  - intros r Hr. unfold users_of. cbn [issues issue_users] in *.
    unfold delete_where in *. apply filter_In in Hr. destruct Hr as [Hr Hn].
    rewrite filter_filter_implied; [apply C; exact Hr|].
    intros u Hu. apply jseqb_eq in Hu. rewrite Hu. exact Hn.
  - intros u Hu. cbn [issues issue_users] in *. unfold delete_where in *.
    apply filter_In in Hu. destruct Hu as [Hu Hn]. specialize (R u Hu).
    apply in_map_iff in R. destruct R as [r [Er Hr]].
    apply in_map_iff. exists r. split; [exact Er|].
    apply filter_In. split; [exact Hr|]. unfold has_id. rewrite Er. exact Hn.
Qed.

Ltac counted_bind :=
  apply keeps_bind; [exact keeps_users_counted_trans | |].

Ltac counted_done :=
  first [ apply keeps_ret; exact keeps_users_counted_refl
        | apply keeps_throw; exact keeps_users_counted_refl
        | apply keeps_select; exact keeps_users_counted_refl
        | apply keeps_one; exact keeps_users_counted_refl
        | apply keeps_getHourBucket; exact keeps_users_counted_refl ].

Lemma handleIngest_counted sha date o event rt :
  keeps keeps_users_counted (handleIngest sha date o event rt).
Proof.
  unfold handleIngest. counted_bind.
  { unfold ingest_issue. counted_bind; [counted_done|]. intros [existing|].
    - counted_bind; [|intros _; counted_done].
      apply keeps_view_counted. apply rewrite_issues_view. intros r; reflexivity.
    - counted_bind; [apply insert_issue_counted; reflexivity | intros _; counted_done]. }
  intros i. counted_bind; [apply keeps_view_counted, insert_event_view|].
  intros _. counted_bind.
  { unfold ingest_stats. counted_bind; [counted_done|]. intros b.
    apply keeps_view_counted, upsert_stat_view. }
  intros _. counted_bind; [|intros _; counted_done].
  unfold ingest_user. destruct (user event) as [u|]; [|counted_done].
  cbv zeta. destruct (truthy (hashUserIdentifier sha (Some u))); [|counted_done].
  counted_bind; [counted_done|]. intros rows. counted_bind; [counted_done|].
  intros [x|].
  - apply keeps_view_counted, update_user_seen_view.
  - apply (insert_user_bump_counted
             {| IssueUsers.issue_id := i;
                IssueUsers.user_hash := or_default (hashUserIdentifier sha (Some u)) [];
                IssueUsers.first_seen := now rt;
                IssueUsers.last_seen := now rt |}).
Qed.

Lemma handleUpdateIssue_counted o issueId status :
  keeps keeps_users_counted (handleUpdateIssue o issueId status).
Proof.
  unfold handleUpdateIssue. destruct issueId as [|c i]; [counted_done|].
  destruct (truthy status); [|counted_done].
  counted_bind.
  { apply keeps_view_counted. apply rewrite_issues_view. intros r; reflexivity. }
  intros _. counted_bind; [counted_done|]. intros rows.
  counted_bind; [counted_done|]. intros row. counted_done.
Qed.

Lemma handleDeleteIssue_counted issueId :
  keeps keeps_users_counted (handleDeleteIssue issueId).
Proof.
  unfold handleDeleteIssue. destruct issueId as [|c i]; [counted_done|].
  counted_bind; [apply delete_issue_counted | intros _; counted_done].
Qed.

(** X9.  User consistency holds after any run of ingests, updates and
    deletes from the empty shard, whether its operations return or
    throw, and under either reading of [one()]: the user count of every
    issue is the number of its rows in [issue_users]. *)
Theorem run_user_consistent sha date o (ops : list Op) :
  user_consistent (run sha date o ops empty_shard).
Proof.
  assert (G : forall ops s, users_counted s -> users_counted (run sha date o ops s)).
  { clear ops. induction ops as [|op ops IH]; intros s W; simpl; [exact W|].
    apply IH. destruct op as [event rt|issueId status|issueId]; simpl.
    - apply handleIngest_counted. exact W.
    - apply handleUpdateIssue_counted. exact W.
    - apply handleDeleteIssue_counted. exact W. }
  apply G. split; intros x [].
Qed.

(** ** Count and bucket consistency *)

(** X10.  Count consistency holds after every run from the empty shard
    in which no ingest has its event insert rejected. *)
Theorem run_count_consistent sha date o (ops : list Op) :
  no_event_rejected sha date o ops empty_shard = true ->
  count_consistent (run sha date o ops empty_shard).
Proof.
  intros N. apply (run_well_counted sha date o ops empty_shard empty_well_counted N).
Qed.

Lemma run_count_consistent_witness :
  count_consistent
    (run Sample.sha Sample.hour false
       [Ingest Sample.boom (Sample.at_ "2024-01-01T10:20:31.000Z" "issue-1");
        Ingest Sample.boom_again (Sample.at_ "2024-01-01T12:00:00.000Z" "issue-9");
        Ingest Sample.bang (Sample.at_ "2024-01-01T12:30:00.000Z" "issue-2");
        DeleteIssue (js "issue-2")]
       empty_shard).
Proof.
  apply (run_count_consistent Sample.sha Sample.hour false).
  vm_compute. reflexivity.
Defined.

Lemma sum_counts_app (a b : list IssueStats.row) :
  sum_counts (a ++ b) = sum_counts a + sum_counts b.
Proof.
  induction a as [|x a IH]; simpl; [reflexivity|]. rewrite IH. lia.
Qed.

Lemma update_where_none {X} (p : X -> bool) (f : X -> X) (rows : list X) :
  existsb p rows = false -> update_where p f rows = rows.
Proof.
  induction rows as [|x rows IH]; simpl; intros H; [reflexivity|].
  apply orb_false_iff in H. destruct H as [H1 H2].
  rewrite H1, (IH H2). reflexivity.
Qed.

Lemma update_where_cons {X} (p : X -> bool) (f : X -> X) (x : X) (rows : list X) :
  update_where p f (x :: rows) = (if p x then f x else x) :: update_where p f rows.
Proof. reflexivity. Qed.

Lemma sum_filter_cons (j : jsstring) (x : IssueStats.row) (rows : list IssueStats.row) :
  sum_counts (filter (in_issue j) (x :: rows))
  = (if in_issue j x then IssueStats.count x else 0)
    + sum_counts (filter (in_issue j) rows).
Proof. cbn [filter]. destruct (in_issue j x); reflexivity. Qed.

Lemma sum_bumped (i b j : jsstring) (rows : list IssueStats.row) :
  NoDup (map stat_id rows) ->
  existsb (stat_key i b) rows = true ->
  sum_counts (filter (in_issue j) (update_where (stat_key i b) IssueStats.bump rows))
  = sum_counts (filter (in_issue j) rows) + (if jseqb i j then 1 else 0).
Proof.
  induction rows as [|x rows IH]; intros N E; [discriminate|].
  cbn [map] in N. inversion N as [|? ? Hx N']; subst.
  rewrite update_where_cons, !sum_filter_cons.
  destruct (stat_key i b x) eqn:K.
  - assert (F : existsb (stat_key i b) rows = false).
    { destruct (existsb (stat_key i b) rows) eqn:F; [|reflexivity].
      apply existsb_exists in F. destruct F as [y [Hy Ky]].
      exfalso. apply Hx. apply stat_key_id in K. apply stat_key_id in Ky.
      rewrite K, <- Ky. apply in_map. exact Hy. }
    rewrite (update_where_none _ _ _ F).
    unfold in_issue. cbn [IssueStats.bump IssueStats.issue_id IssueStats.count].
    apply stat_key_id in K. injection K as Ki _. rewrite Ki.
    destruct (jseqb i j); lia.
  - cbn [existsb] in E. rewrite K in E. cbn [orb] in E.
    rewrite (IH N' E). lia.
Qed.

Lemma sum_upserted (i b j : jsstring) (rows : list IssueStats.row) :
  NoDup (map stat_id rows) ->
  sum_counts
    (filter (in_issue j)
       (if existsb (stat_key i b) rows
        then update_where (stat_key i b) IssueStats.bump rows
        else rows ++ [{| IssueStats.issue_id := i; IssueStats.bucket := b;
                         IssueStats.count := 1 |}]))
  = sum_counts (filter (in_issue j) rows) + (if jseqb i j then 1 else 0).
Proof.
  intros N. destruct (existsb (stat_key i b) rows) eqn:E.
  - apply sum_bumped; assumption.
  - rewrite filter_app_one, sum_counts_app. unfold in_issue at 2.
    cbn [IssueStats.issue_id]. destruct (jseqb i j); simpl; lia.
Qed.

Lemma bucket_consistent_view (s s' : Shard) :
  same_bucket_view s s' -> bucket_consistent s -> bucket_consistent s'.
Proof.
  intros [V1 V2] C r' Hr'. unfold buckets_of. rewrite V2.
  apply (in_map id_count) in Hr'. rewrite V1 in Hr'.
  apply in_map_iff in Hr'. destruct Hr' as [r [Eq Hr]].
  injection Eq as Ei Ec. rewrite <- Ei, <- Ec. apply C. exact Hr.
Qed.

Lemma same_bucket_view_refl (s : Shard) : same_bucket_view s s.
Proof. split; reflexivity. Qed.

Lemma same_bucket_view_trans (a b c : Shard) :
  same_bucket_view a b -> same_bucket_view b c -> same_bucket_view a c.
Proof. intros [A1 A2] [B1 B2]. split; congruence. Qed.

Lemma ingest_user_bucket_view sha o event rt i (res : IngestResult) :
  keeps same_bucket_view (ingest_user sha o event rt i ;; ret res).
Proof.
  assert (B : forall p f, (forall r, id_count (f r) = id_count r) ->
                          keeps same_bucket_view (with_issues (update_where p f))).
  { intros p f H s. split; cbn [fst with_issues issues issue_stats]; [|reflexivity].
    apply map_update_where. exact H. }
  apply keeps_bind; [exact same_bucket_view_trans | |
                     intros _; apply keeps_ret; exact same_bucket_view_refl].
  unfold ingest_user.
  destruct (user event) as [u|]; [|apply keeps_ret; exact same_bucket_view_refl].
  cbv zeta. destruct (truthy (hashUserIdentifier sha (Some u)));
    [|apply keeps_ret; exact same_bucket_view_refl].
  apply keeps_bind; [exact same_bucket_view_trans
                    | apply keeps_select; exact same_bucket_view_refl |].
  intros rows.
  apply keeps_bind; [exact same_bucket_view_trans
                    | apply keeps_one; exact same_bucket_view_refl |].
  intros [x|].
  - intros s. split; reflexivity.
  - apply keeps_bind; [exact same_bucket_view_trans | |].
    + intros s. rewrite insert_user_run. destruct (_ || _); split; reflexivity.
    + intros _. apply B. intros r. reflexivity.
Qed.

(** The issue bumped and its bucket upserted. *)
Lemma bucket_consistent_bumped (s : Shard) (now i b : jsstring)
      (evs : list Events.row) :
  bucket_consistent s -> NoDup (map stat_id (issue_stats s)) ->
  bucket_consistent
    {| issues := update_where (has_id i) (Issues.set_seen now) (issues s);
       events := evs;
       issue_stats :=
         if existsb (stat_key i b) (issue_stats s)
         then update_where (stat_key i b) IssueStats.bump (issue_stats s)
         else issue_stats s ++ [{| IssueStats.issue_id := i; IssueStats.bucket := b;
                                   IssueStats.count := 1 |}];
       issue_users := issue_users s |}.
Proof.
  intros C N r' Hr'. unfold buckets_of. cbn [issues issue_stats] in *.
  rewrite sum_upserted by exact N.
  unfold update_where in Hr'. apply in_map_iff in Hr'. destruct Hr' as [r [Eq Hr]].
  specialize (C r Hr). unfold buckets_of in C.
  destruct (has_id i r) eqn:H; subst r'; unfold has_id in H.
  - apply jseqb_eq in H. cbn [Issues.id Issues.count Issues.set_seen].
    rewrite H, jseqb_refl. rewrite <- H. lia.
  - rewrite jseqb_sym, H. lia.
Qed.

(** The issue created and its bucket upserted. *)
Lemma bucket_consistent_created (s : Shard) (r : Issues.row) (b : jsstring)
      (evs : list Events.row) :
  bucket_consistent s -> NoDup (map stat_id (issue_stats s)) ->
  (forall x, In x (issue_stats s) ->
             In (IssueStats.issue_id x) (map Issues.id (issues s))) ->
  ~ In (Issues.id r) (map Issues.id (issues s)) ->
  Issues.count r = 1 ->
  bucket_consistent
    {| issues := issues s ++ [r];
       events := evs;
       issue_stats :=
         if existsb (stat_key (Issues.id r) b) (issue_stats s)
         then update_where (stat_key (Issues.id r) b) IssueStats.bump (issue_stats s)
         else issue_stats s ++ [{| IssueStats.issue_id := Issues.id r;
                                   IssueStats.bucket := b;
                                   IssueStats.count := 1 |}];
       issue_users := issue_users s |}.
Proof.
  intros C N Rf Hnew H1 x Hx. unfold buckets_of. cbn [issues issue_stats] in *.
  rewrite sum_upserted by exact N.
  apply in_app_or in Hx. destruct Hx as [Hx|[<-|[]]].
  - assert (F : jseqb (Issues.id r) (Issues.id x) = false).
    { apply jseqb_neq. intros Eq. apply Hnew. rewrite Eq. apply in_map. exact Hx. }
    rewrite F. specialize (C x Hx). unfold buckets_of in C. lia.
  - rewrite jseqb_refl, H1. rewrite filter_none; [reflexivity|].
    intros y Hy. unfold in_issue. apply jseqb_neq. intros Eq.
    apply Hnew. rewrite <- Eq. apply Rf. exact Hy.
Qed.

Lemma ingest_stats_run date event rt i s :
  ingest_stats date event rt i s =
    match date (or_default (timestamp event) (now rt)) with
    | Some b => upsert_stat i b s
    | None => (s, Threw InvalidDate)
    end.
Proof.
  unfold ingest_stats, getHourBucket. rewrite bind_run.
  destruct (date _); reflexivity.
Qed.

Lemma ingest_bucket_consistent sha date o event rt s :
  bucket_consistent s -> well_keyed s ->
  stats_missed (snd (handleIngest sha date o event rt s)) = false ->
  bucket_consistent (fst (handleIngest sha date o event rt s)).
Proof.
  intros C [[_ [_ [_ [K4 _]]]] [_ [R2 _]]].
  destruct (find (fun r => jseqb (Issues.fingerprint r) (generateFingerprint event))
              (issues s)) as [existing|] eqn:F.
  - rewrite (handleIngest_known sha date o event rt s existing F).
    rewrite bind_run. cbn [update_issue_seen with_issues].
    rewrite bind_run, insert_event_run.
    match goal with |- context [if ?c then _ else _] => destruct c end;
      [simpl; discriminate|].
    rewrite bind_run, ingest_stats_run.
    destruct (date _) as [b|]; [|simpl; discriminate].
    rewrite upsert_stat_run.
    match goal with |- context [if ?c then _ else _] => destruct c end;
      [simpl; discriminate|].
    intros _. cbn [issues events issue_stats issue_users].
    eapply bucket_consistent_view; [apply ingest_user_bucket_view|].
    apply bucket_consistent_bumped; assumption.
  - rewrite (handleIngest_new sha date o event rt s F).
    rewrite bind_run, insert_issue_run.
    destruct (existsb _ (issues s)) eqn:K; [intros _; exact C|].
    rewrite bind_run, insert_event_run.
    match goal with |- context [if ?c then _ else _] => destruct c end;
      [simpl; discriminate|].
    rewrite bind_run, ingest_stats_run.
    destruct (date _) as [b|]; [|simpl; discriminate].
    rewrite upsert_stat_run.
    match goal with |- context [if ?c then _ else _] => destruct c end;
      [simpl; discriminate|].
    intros _. cbn [issues events issue_stats issue_users].
    eapply bucket_consistent_view; [apply ingest_user_bucket_view|].
    apply (bucket_consistent_created s (new_issue event rt) b);
      [exact C | exact K4 | exact R2 | | reflexivity].
    intros I. apply in_map_iff in I. destruct I as [x [Ex Hx]].
    pose proof (existsb_false_key _ _ x K Hx) as Fx.
    apply orb_false_iff in Fx. destruct Fx as [Fx _].
    apply jseqb_neq in Fx. contradiction.
Qed.

Lemma update_bucket_consistent o issueId status s :
  bucket_consistent s -> bucket_consistent (fst (handleUpdateIssue o issueId status s)).
Proof.
  revert s.
  change (keeps (fun s s' => bucket_consistent s -> bucket_consistent s')
            (handleUpdateIssue o issueId status)).
  assert (Rr : forall s : Shard, bucket_consistent s -> bucket_consistent s) by auto.
  assert (Rt : forall a b c : Shard,
            (bucket_consistent a -> bucket_consistent b) ->
            (bucket_consistent b -> bucket_consistent c) ->
            bucket_consistent a -> bucket_consistent c) by auto.
  unfold handleUpdateIssue.
  destruct issueId as [|c i]; [apply keeps_ret; exact Rr|].
  destruct (truthy status); [|apply keeps_ret; exact Rr].
  apply keeps_bind; [exact Rt | |].
  { intros s. apply bucket_consistent_view. split; [|reflexivity].
    simpl. apply map_update_where. intros r. reflexivity. }
  intros _. apply keeps_bind; [exact Rt | apply keeps_select; exact Rr |].
  intros rows. apply keeps_bind; [exact Rt | apply keeps_one; exact Rr |].
  intros row. apply keeps_ret; exact Rr.
Qed.

Lemma delete_bucket_consistent issueId s :
  bucket_consistent s -> bucket_consistent (fst (handleDeleteIssue issueId s)).
Proof.
  intros C. unfold handleDeleteIssue.
  destruct issueId as [|c i]; [exact C|].
  assert (D : bucket_consistent (fst (delete_issue (c :: i) s))).
  { unfold delete_issue. cbn [fst].
    intros r Hr. unfold buckets_of. cbn [issues issue_stats] in *.
    unfold delete_where in *. apply filter_In in Hr. destruct Hr as [Hr Hn].
    rewrite filter_filter_implied; [apply C; exact Hr|].
    intros x Hx. unfold in_issue in Hx. apply jseqb_eq in Hx. rewrite Hx. exact Hn. }
  rewrite bind_run.
  destruct (delete_issue (c :: i) s) as [s' [[]|e]]; exact D.
Qed.

(** X11.  Bucket consistency holds after every run from the empty shard
    in which no ingest stops between the bump of its issue and the
    upsert of its bucket (a rejected event, a timestamp that is no
    date): the count of every issue is the sum of its hourly buckets. *)
Theorem run_bucket_consistent sha date o (ops : list Op) :
  no_bucket_missed sha date o ops empty_shard = true ->
  bucket_consistent (run sha date o ops empty_shard).
Proof.
  assert (G : forall ops s, bucket_consistent s -> well_keyed s ->
                            no_bucket_missed sha date o ops s = true ->
                            bucket_consistent (run sha date o ops s)).
  { clear ops. induction ops as [|op ops IH]; intros s C W N; simpl in *; [exact C|].
    apply andb_true_iff in N. destruct N as [N1 N2]. apply negb_true_iff in N1.
    apply IH; [|apply step_keyed; exact W | exact N2].
    destruct op as [event rt|issueId status|issueId]; simpl in *.
    - apply ingest_bucket_consistent; assumption.
    - apply update_bucket_consistent. exact C.
    - apply delete_bucket_consistent. exact C. }
  intros N. apply G; [intros r [] | exact empty_well_keyed | exact N].
Qed.

Lemma run_bucket_consistent_witness :
  bucket_consistent
    (run Sample.sha Sample.hour false
       [Ingest Sample.boom (Sample.at_ "2024-01-01T10:20:31.000Z" "issue-1");
        Ingest Sample.boom_again (Sample.at_ "2024-01-01T12:00:00.000Z" "issue-9");
        Ingest Sample.bang (Sample.at_ "2024-01-01T12:30:00.000Z" "issue-2");
        DeleteIssue (js "issue-2")]
       empty_shard).
Proof.
  apply (run_bucket_consistent Sample.sha Sample.hour false).
  vm_compute. reflexivity.
Defined.

(** ** Round trips through the shard *)

Lemma ingest_issue_events event rt :
  keeps (fun s s' => events s' = events s) (ingest_issue event rt).
Proof.
  assert (Rt : forall a b c : Shard,
            events b = events a -> events c = events b -> events c = events a)
    by (intros; congruence).
  unfold ingest_issue.
  apply keeps_bind; [exact Rt | apply keeps_select; reflexivity |].
  intros [existing|].
  - apply keeps_bind; [exact Rt | intros s; reflexivity
                      | intros _; apply keeps_ret; reflexivity].
  - apply keeps_bind; [exact Rt | | intros _; apply keeps_ret; reflexivity].
    intros s. rewrite insert_issue_run. destruct (existsb _ _); reflexivity.
Qed.

(** What an ingest that returns has done to the events. *)
Lemma handleIngest_returned sha date o event rt s r :
  snd (handleIngest sha date o event rt s) = Returned r ->
  eventId r = or_default (event_id event) (randomUUID_event rt)
  /\ events (fst (handleIngest sha date o event rt s))
     = events s ++ [event_row event rt (issueId r)]
  /\ existsb (fun x => jseqb (Events.id x) (eventId r)) (events s) = false.
Proof.
  unfold handleIngest. rewrite bind_run.
  pose proof (ingest_issue_events event rt s) as E1.
  destruct (ingest_issue event rt s) as [s1 [i|e]]; [|discriminate].
  cbn [fst] in E1. rewrite bind_run, insert_event_run.
  destruct (existsb (fun x => jseqb (Events.id x) (Events.id (event_row event rt i)))
              (events s1)) eqn:C1; [discriminate|].
  cbn [orb].
  destruct (negb _); [discriminate|].
  pose proof (ingest_rest_core sha date o event rt i
                {| eventId := or_default (event_id event) (randomUUID_event rt);
                   issueId := i |}
                {| issues := issues s1; events := events s1 ++ [event_row event rt i];
                   issue_stats := issue_stats s1; issue_users := issue_users s1 |})
    as [E2 _].
  cbn [events] in E2.
  destruct ((ingest_stats date event rt i;;
             ingest_user sha o event rt i;;
             ret {| eventId := or_default (event_id event) (randomUUID_event rt);
                    issueId := i |}) _) as [s4 [r'|e]] eqn:Rest; [|discriminate].
  cbn [fst snd] in *. intros H. injection H as <-.
  assert (Er : r' = {| eventId := or_default (event_id event) (randomUUID_event rt);
                       issueId := i |}).
  { revert Rest. rewrite bind_run.
    destruct (ingest_stats date event rt i _) as [s3 [[]|e]]; [|discriminate].
    rewrite bind_run.
    destruct (ingest_user sha o event rt i s3) as [s5 [[]|e]]; [|discriminate].
    unfold ret. intros H. injection H as _ <-. reflexivity. }
  subst r'. cbn [eventId issueId].
  split; [reflexivity|]. split; [rewrite E2, E1; reflexivity|].
  rewrite <- E1. exact C1.
Qed.

(** X12.  An event the shard has accepted is found again under the id
    the ingest returned, with its payload as it was sent and the issue
    it was filed under. *)
Theorem ingest_then_get_event sha date o event rt s r :
  snd (handleIngest sha date o event rt s) = Returned r ->
  handleGetEvent (eventId r) (fst (handleIngest sha date o event rt s))
  = EventFound event (issueId r).
Proof.
  intros H. destruct (handleIngest_returned sha date o event rt s r H) as [Ei [Ev Ex]].
  unfold handleGetEvent. rewrite Ev, filter_app_one.
  rewrite filter_none.
  2:{ intros x Hx. apply (existsb_false_key _ _ x Ex Hx). }
  cbn [event_row Events.id]. rewrite <- Ei, jseqb_refl. reflexivity.
Qed.

Lemma ingest_then_get_event_witness :
  handleGetEvent (js "e1") Sample.after_boom = EventFound Sample.boom (js "issue-1").
Proof.
  apply (ingest_then_get_event Sample.sha Sample.hour true Sample.boom
           (Sample.at_ "2024-01-01T10:20:31.000Z" "issue-1") empty_shard
           {| eventId := js "e1"; issueId := js "issue-1" |}).
  vm_compute. reflexivity.
Defined.


Lemma filter_update_same (i : jsstring) (f : Issues.row -> Issues.row)
      (l : list Issues.row) :
  (forall r, Issues.id (f r) = Issues.id r) ->
  filter (has_id i) (update_where (has_id i) f l) = map f (filter (has_id i) l).
Proof.
  intros H. induction l as [|x l IH]; [reflexivity|].
  rewrite update_where_cons. cbn [filter].
  destruct (has_id i x) eqn:K.
  - unfold has_id at 1. rewrite H. fold (has_id i x). rewrite K.
    cbn [map]. rewrite IH. reflexivity.
  - rewrite K. exact IH.
Qed.

Lemma map_filter_commute {X Y} (g : X -> Y) (p : X -> bool) (q : Y -> bool)
      (l : list X) :
  (forall x, p x = q (g x)) -> map g (filter p l) = filter q (map g l).
Proof.
  intros H. induction l as [|x l IH]; simpl; [reflexivity|].
  rewrite <- H. destruct (p x); simpl; rewrite IH; reflexivity.
Qed.







Lemma handleUpdateIssue_state o (c : Z) (i st : jsstring) (s : Shard) :
  st <> [] ->
  fst (handleUpdateIssue o (c :: i) (Some st) s)
  = {| issues := update_where (has_id (c :: i)) (Issues.set_status st) (issues s);
       events := events s; issue_stats := issue_stats s;
       issue_users := issue_users s |}.
Proof.
  intros Hs. unfold handleUpdateIssue. rewrite (truthy_some_nonempty st Hs).
  rewrite (or_default_some st [] Hs).
  rewrite bind_run. cbn [update_issue_status with_issues].
  rewrite bind_run. cbn [select]. rewrite bind_run.
  match goal with |- context [one o ?rows ?st0] =>
    assert (K : fst (one o rows st0) = st0)
      by (unfold one; destruct rows as [|x [|y rows']]; destruct o; reflexivity);
    destruct (one o rows st0) as [s1 [row|e]]
  end; cbn [fst] in K; subst s1; reflexivity.
Qed.

(** X14.  A status written by [update_issue] is the status read by
    [get_issue], and the rest of the issue and its buckets read as
    before. *)
Theorem update_then_get_issue o (issueId st : jsstring) s issue stats :
  issueId <> [] -> st <> [] ->
  handleGetIssue issueId s = IssueFound issue stats ->
  handleGetIssue issueId (fst (handleUpdateIssue o issueId (Some st) s))
  = IssueFound (Issue_with_status st issue) stats.
Proof.
  intros Hi Hs G. destruct issueId as [|c i]; [congruence|].
  rewrite handleUpdateIssue_state by exact Hs.
  unfold handleGetIssue in *. cbn [issues issue_stats].
  rewrite filter_update_same by (intros r; reflexivity).
  destruct (filter (has_id (c :: i)) (issues s)) as [|row more]; [discriminate|].
  injection G as <- <-. reflexivity.
Qed.

Lemma update_then_get_issue_witness :
  exists issue stats,
    handleGetIssue (js "issue-1") Sample.resolved_boom = IssueFound issue stats
    /\ Issue.status issue = js "resolved".
Proof.
  destruct (handleGetIssue (js "issue-1") Sample.after_boom) as [|issue stats] eqn:G.
  - vm_compute in G. discriminate.
  - exists (Issue_with_status (js "resolved") issue), stats. split; [|reflexivity].
    apply (update_then_get_issue true (js "issue-1") (js "resolved")
             Sample.after_boom issue stats); [discriminate | discriminate | exact G].
Defined.

(** X15.  [update_issue] touches nothing but the status of the issue it
    names: events, buckets and user rows are as before, every issue row
    keeps all its other columns, and rows of other issues are not
    changed at all; without an id or without a status nothing changes. *)
Theorem handleUpdateIssue_frame o (issueId : jsstring) (status : option jsstring) s :
  events (fst (handleUpdateIssue o issueId status s)) = events s
  /\ issue_stats (fst (handleUpdateIssue o issueId status s)) = issue_stats s
  /\ issue_users (fst (handleUpdateIssue o issueId status s)) = issue_users s
  /\ map but_status (issues (fst (handleUpdateIssue o issueId status s)))
     = map but_status (issues s)
  /\ filter (fun r => negb (has_id issueId r))
       (issues (fst (handleUpdateIssue o issueId status s)))
     = filter (fun r => negb (has_id issueId r)) (issues s)
  /\ (issueId = [] \/ truthy status = false ->
      fst (handleUpdateIssue o issueId status s) = s).
Proof.
  destruct issueId as [|c i].
  { simpl. repeat split; auto. }
  destruct status as [[|d st]|].
  - simpl. repeat split; auto.
  - rewrite (handleUpdateIssue_state o c i (d :: st) s) by discriminate.
    cbn [issues events issue_stats issue_users]. repeat split.
    + apply map_update_where. intros r. reflexivity.
    + induction (issues s) as [|x l IH]; [reflexivity|].
      rewrite update_where_cons. cbn [filter].
      destruct (has_id (c :: i) x) eqn:K.
      * unfold has_id at 1. cbn [Issues.set_status Issues.id].
        fold (has_id (c :: i) x). rewrite K. exact IH.
      * rewrite K. cbn [negb]. rewrite IH. reflexivity.
    + intros [H|H]; discriminate.
  - simpl. repeat split; auto.
Qed.

Lemma delete_state (c : Z) (i : jsstring) (s : Shard) :
  fst (handleDeleteIssue (c :: i) s) = fst (delete_issue (c :: i) s).
Proof.
  unfold handleDeleteIssue. rewrite bind_run.
  destruct (delete_issue (c :: i) s) as [s' [[]|e]]; reflexivity.
Qed.

(** X16.  Deleting an issue cascades and touches nothing else: the
    issue is no longer found, none of its events, buckets or user rows
    is left, and any other issue reads exactly as before. *)
Theorem delete_cascades (issueId : jsstring) s :
  issueId <> [] ->
  handleGetIssue issueId (fst (handleDeleteIssue issueId s)) = IssueNotFound
  /\ events_of (fst (handleDeleteIssue issueId s)) issueId = []
  /\ buckets_of (fst (handleDeleteIssue issueId s)) issueId = []
  /\ users_of (fst (handleDeleteIssue issueId s)) issueId = []
  /\ (forall other, other <> issueId ->
        handleGetIssue other (fst (handleDeleteIssue issueId s)) = handleGetIssue other s
        /\ events_of (fst (handleDeleteIssue issueId s)) other = events_of s other
        /\ users_of (fst (handleDeleteIssue issueId s)) other = users_of s other).
Proof.
  intros Hi. destruct issueId as [|c i]; [congruence|].
  rewrite delete_state. unfold delete_issue. cbn [fst].
  assert (Gone : forall X (p : X -> bool) (l : list X),
            filter p (filter (fun r => negb (p r)) l) = []).
  { intros X p l. apply filter_none. intros x Hx. apply filter_In in Hx.
    destruct Hx as [_ Hx]. apply negb_true_iff in Hx. exact Hx. }
  assert (Kept : forall X (f : X -> jsstring) (l : list X) other, other <> c :: i ->
            filter (fun r => jseqb (f r) other)
              (filter (fun r => negb (jseqb (f r) (c :: i))) l)
            = filter (fun r => jseqb (f r) other) l).
  { intros X f l other Ho. apply filter_filter_implied. intros x Hx.
    apply jseqb_eq in Hx. rewrite Hx. apply negb_true_iff. apply jseqb_neq. exact Ho. }
  split; [|split; [|split; [|split]]].
  - unfold handleGetIssue. cbn [issues]. unfold delete_where. rewrite Gone. reflexivity.
  - unfold events_of. cbn [events]. apply Gone.
  - unfold buckets_of. cbn [issue_stats]. apply Gone.
  - unfold users_of. cbn [issue_users]. apply Gone.
  - intros other Ho. split; [|split].
    + unfold handleGetIssue. cbn [issues issue_stats]. unfold delete_where, has_id.
      rewrite (Kept _ Issues.id (issues s) other Ho).
      rewrite (Kept _ IssueStats.issue_id (issue_stats s) other Ho). reflexivity.
    + unfold events_of. cbn [events]. unfold delete_where, of_issue.
      apply (Kept _ Events.issue_id). exact Ho.
    + unfold users_of. cbn [issue_users]. unfold delete_where.
      apply (Kept _ IssueUsers.issue_id). exact Ho.
Qed.

Lemma delete_cascades_witness :
  handleGetIssue (js "issue-2")
    (fst (handleDeleteIssue (js "issue-2") Sample.two_issues)) = IssueNotFound
  /\ handleGetIssue (js "issue-1")
       (fst (handleDeleteIssue (js "issue-2") Sample.two_issues))
     = handleGetIssue (js "issue-1") Sample.two_issues.
Proof.
  destruct (delete_cascades (js "issue-2") Sample.two_issues) as [G [_ [_ [_ O]]]].
  - discriminate.
  - split; [exact G|]. apply (O (js "issue-1")). discriminate.
Defined.

(** ** Order of what is listed *)

Lemma text_compare_antisym (a b : jsstring) :
  text_compare b a = CompOpp (text_compare a b).
Proof.
  revert b. induction a as [|x a IH]; intros [|y b]; simpl; try reflexivity.
  rewrite (Z.compare_antisym x y).
  destruct (x ?= y); simpl; [apply IH | reflexivity | reflexivity].
Qed.

Lemma text_compare_eq (a b : jsstring) : text_compare a b = Eq <-> a = b.
Proof.
  split.
  - revert b. induction a as [|x a IH]; intros [|y b]; simpl; try discriminate;
      [reflexivity|].
    destruct (x ?= y) eqn:C; try discriminate.
    apply Z.compare_eq in C. subst y. intros H. f_equal. apply IH. exact H.
  - intros ->. induction b as [|y b IH]; simpl; [reflexivity|].
    rewrite Z.compare_refl. exact IH.
Qed.

Lemma sql_compare_antisym (a b : SqlValue) :
  sql_compare b a = CompOpp (sql_compare a b).
Proof.
  destruct a, b; simpl; try reflexivity.
  - apply Z.compare_antisym.
  - apply text_compare_antisym.
Qed.

Section Sorting.

Context {R : Type} (key : R -> SqlValue).

Lemma place_desc_in (r : R) (l : list R) (x : R) :
  In x (place_desc key r l) <-> x = r \/ In x l.
Proof.
  induction l as [|y l IH]; simpl.
  - split; [intros [<-|[]]; auto | intros [->|[]]; auto].
  - destruct (sql_compare (key y) (key r)); simpl; rewrite ?IH;
      intuition (subst; auto).
Qed.

Lemma sort_desc_in (l : list R) (x : R) : In x (sort_desc key l) <-> In x l.
Proof.
  unfold sort_desc.
  assert (G : forall acc, In x (fold_left (fun acc r => place_desc key r acc) l acc)
                          <-> In x l \/ In x acc).
  { induction l as [|y l IH]; intros acc; simpl; [tauto|].
    rewrite IH, place_desc_in. intuition (subst; auto). }
  rewrite G. simpl. tauto.
Qed.

Lemma place_desc_sorted (r : R) (l : list R) :
  Sorted (key_not_below key) l -> Sorted (key_not_below key) (place_desc key r l).
Proof.
  induction l as [|y l IH]; intros S; simpl.
  - repeat constructor.
  - inversion S as [|? ? S' Hd]; subst.
    destruct (sql_compare (key y) (key r)) eqn:C.
    + constructor; [apply IH; exact S'|].
      destruct l as [|z l]; simpl.
      * constructor. unfold key_not_below, not_below. congruence.
      * destruct (sql_compare (key z) (key r));
          constructor; try (unfold key_not_below, not_below; congruence);
          inversion Hd; assumption.
    + constructor; [exact S|]. constructor.
      unfold key_not_below, not_below. rewrite (sql_compare_antisym (key y) (key r)), C.
      discriminate.
    + constructor; [apply IH; exact S'|].
      destruct l as [|z l]; simpl.
      * constructor. unfold key_not_below, not_below. congruence.
      * destruct (sql_compare (key z) (key r));
          constructor; try (unfold key_not_below, not_below; congruence);
          inversion Hd; assumption.
Qed.

Lemma sort_desc_sorted (l : list R) : Sorted (key_not_below key) (sort_desc key l).
Proof.
  unfold sort_desc.
  assert (G : forall acc, Sorted (key_not_below key) acc ->
                          Sorted (key_not_below key)
                            (fold_left (fun acc r => place_desc key r acc) l acc)).
  { induction l as [|y l IH]; intros acc S; simpl; [exact S|].
    apply IH. apply place_desc_sorted. exact S. }
  apply G. constructor.
Qed.

End Sorting.

Lemma firstn_sorted {X} (P : X -> X -> Prop) (n : nat) (l : list X) :
  Sorted P l -> Sorted P (firstn n l).
Proof.
  revert l. induction n as [|n IH]; intros l S; [constructor|].
  destruct l as [|x l]; [constructor|].
  inversion S as [|? ? S' Hd]; subst. simpl. constructor; [apply IH; exact S'|].
  destruct n; [constructor|]. destruct l as [|y l]; [constructor|].
  simpl. constructor. inversion Hd. assumption.
Qed.

Lemma sql_limit_sorted {X} (P : X -> X -> Prop) (n : Z) (l : list X) :
  Sorted P l -> Sorted P (sql_limit n l).
Proof.
  intros S. unfold sql_limit. destruct (n <? 0); [exact S|].
  apply firstn_sorted. exact S.
Qed.

Lemma firstn_in {X} (n : nat) (l : list X) (x : X) : In x (firstn n l) -> In x l.
Proof.
  revert l. induction n as [|n IH]; intros [|y l]; simpl; try tauto.
  intros [H|H]; [left; exact H | right; apply IH; exact H].
Qed.

Lemma sql_limit_in {X} (n : Z) (l : list X) (x : X) : In x (sql_limit n l) -> In x l.
Proof.
  unfold sql_limit. destruct (n <? 0); [auto|]. apply firstn_in.
Qed.







(** X18.  The cap of a page: without a limit at most 25 issues are
    listed, and for limit 0 and every limit from -1 up at most
    min(limit, 100). *)
Theorem handleGetIssues_cap (req : GetIssues.request) (s : Shard) resp :
  handleGetIssues req s = Some resp ->
  -1 <= pageLimit_of (GetIssues.limit req) ->
  (List.length (GetIssues.issues resp)
   <= Z.to_nat (Z.max 0 (pageLimit_of (GetIssues.limit req))))%nat
  /\ (List.length (GetIssues.issues resp) <= 100)%nat
  /\ (GetIssues.limit req = None \/ GetIssues.limit req = Some 0 ->
      (List.length (GetIssues.issues resp) <= 25)%nat).
Proof.
  intros H L. destruct (page_within_cap req s resp H L) as [A B].
  split; [exact A|]. split; [exact B|].
  intros [E|E]; rewrite E in A; simpl in A; exact A.
Qed.

Lemma handleGetIssues_cap_witness :
  exists resp,
    handleGetIssues Sample.first_page Sample.crowded = Some resp
    /\ (List.length (GetIssues.issues resp) <= 1)%nat.
Proof.
  destruct (handleGetIssues Sample.first_page Sample.crowded) as [resp|] eqn:H.
  - exists resp. split; [reflexivity|].
    destruct (handleGetIssues_cap Sample.first_page Sample.crowded resp H) as [A _].
    + vm_compute. discriminate.
    + exact A.
  - vm_compute in H. discriminate.
Defined.



(** X21.  [get_issue] answers not-found exactly when no issue has the
    id; otherwise it gives an issue of that id with at most 168 buckets,
    each a bucket stored for that issue, latest first. *)
Theorem handleGetIssue_shape (issueId : jsstring) (s : Shard) :
  (handleGetIssue issueId s = IssueNotFound
   <-> ~ In issueId (map Issues.id (issues s)))
  /\ (forall issue stats, handleGetIssue issueId s = IssueFound issue stats ->
        Issue.id issue = issueId
        /\ (List.length stats <= 168)%nat
        /\ exists rows,
             stats = map (fun r => (IssueStats.bucket r, IssueStats.count r)) rows
             /\ Sorted (key_not_below (fun r => SqlText (IssueStats.bucket r))) rows
             /\ forall r, In r rows ->
                  In r (issue_stats s) /\ IssueStats.issue_id r = issueId).
Proof.
  unfold handleGetIssue. split.
  - destruct (filter (has_id issueId) (issues s)) as [|row more] eqn:F.
    + split; [|reflexivity]. intros _ I. apply has_id_in in I.
      apply existsb_exists in I. destruct I as [x [Hx Kx]].
      assert (X : In x (filter (has_id issueId) (issues s)))
        by (apply filter_In; auto).
      rewrite F in X. destruct X.
    + split; [discriminate|]. intros N. exfalso. apply N.
      assert (X : In row (filter (has_id issueId) (issues s)))
        by (rewrite F; left; reflexivity).
      apply filter_In in X. destruct X as [Hin K]. apply has_id_in.
      apply existsb_exists. eauto.
  - intros issue stats H.
    destruct (filter (has_id issueId) (issues s)) as [|row more] eqn:F; [discriminate|].
    injection H as <- <-.
    assert (X : In row (filter (has_id issueId) (issues s)))
      by (rewrite F; left; reflexivity).
    apply filter_In in X. destruct X as [_ K]. unfold has_id in K.
    apply jseqb_eq in K. split; [exact K|]. split.
    + rewrite length_map.
      change (sql_limit 168) with (@firstn IssueStats.row 168).
      apply firstn_le_length.
    + eexists. split; [reflexivity|]. split.
      * apply sql_limit_sorted, sort_desc_sorted.
      * intros r Hr. apply sql_limit_in in Hr. apply sort_desc_in in Hr.
        apply filter_In in Hr. destruct Hr as [Hin Hk].
        apply jseqb_eq in Hk. auto.
Qed.

(** ** Statistics *)







(** ** The RPC entry point beside the HTTP one *)

Lemma results_head_thrown (answers : list (Outcome IngestResult)) :
  hd_error (results_of answers) = None -> forallb is_thrown answers = true.
Proof.
  induction answers as [|[r|e] answers IH]; simpl; intros H;
    [reflexivity | discriminate | apply IH; exact H].
Qed.

Lemma capture_each_kept sha date o drawn first :
  truthy first = true ->
  forall evs k s,
    capture_each sha date o k drawn evs first s
    = (fst (ingest_each sha date o k drawn evs s), first).
Proof.
  intros T. induction evs as [|event rest IH]; intros k s; [reflexivity|].
  rewrite ingest_each_run. cbn [capture_each fst].
  destruct (handleIngest sha date o event (drawn k) s) as [s1 [r|e]];
    cbn [fst]; rewrite ?T; apply IH.
Qed.

Lemma capture_each_spec sha date o drawn :
  (forall k, randomUUID_event (drawn k) <> []) ->
  forall evs k s,
    capture_each sha date o k drawn evs None s
    = (fst (ingest_each sha date o k drawn evs s),
       option_map eventId
         (hd_error (results_of (snd (ingest_each sha date o k drawn evs s))))).
Proof.
  intros U. induction evs as [|event rest IH]; intros k s; [reflexivity|].
  rewrite ingest_each_run. cbn [capture_each fst snd].
  destruct (handleIngest sha date o event (drawn k) s) as [s1 [r|e]] eqn:H;
    cbn [fst snd results_of hd_error option_map truthy].
  - assert (N : eventId r <> []).
    { rewrite (handleIngest_eventId sha date o event (drawn k) s r)
        by (rewrite H; reflexivity).
      apply or_default_nonempty, U. }
    apply capture_each_kept. destruct (eventId r); [congruence | reflexivity].
  - apply IH.
Qed.

(** X23.  The RPC entry point and the HTTP route leave the same shard
    for the same envelope.  The RPC answers 200 with the id of the first
    accepted event, and then the route answers that id too; it carries
    no id only when the shard accepted no event at all. *)
Theorem captureEnvelope_as_handleIngestion sha date o (envelope : ParsedEnvelope)
        pd drawn (s : Shard) :
  (forall k, randomUUID_event (drawn k) <> []) ->
  fst (captureEnvelope sha date o envelope pd drawn s)
  = fst (handleIngestion sha date o (Envelope envelope) pd drawn s)
  /\ Rpc.status (snd (captureEnvelope sha date o envelope pd drawn s)) = 200
  /\ match Rpc.eventId (snd (captureEnvelope sha date o envelope pd drawn s)) with
     | Some x =>
         IngestionResponse.id
           (snd (handleIngestion sha date o (Envelope envelope) pd drawn s)) = Some x
     | None =>
         forallb is_thrown
           (snd (ingest_each sha date o 0 drawn (extractEvents pd envelope) s)) = true
     end.
Proof.
  intros U. unfold captureEnvelope, handleIngestion. cbn [events_of_body].
  destruct (extractEvents pd envelope) as [|e es] eqn:E.
  - repeat split.
  - rewrite (capture_each_spec sha date o drawn U (e :: es) O s).
    destruct (ingest_each sha date o 0 drawn (e :: es) s) as [s' answers] eqn:I.
    cbn [fst snd Rpc.status Rpc.eventId IngestionResponse.id].
    split; [reflexivity|]. split; [reflexivity|].
    destruct (hd_error (results_of answers)) as [r|] eqn:R; cbn [option_map].
    + unfold response_id. rewrite R. cbn [option_map].
      assert (N : eventId r <> []).
      { destruct answers as [|a answers]; [discriminate|].
        assert (X : exists pre post, a :: answers = pre ++ Returned r :: post
                                     /\ forallb is_thrown pre = true).
        { clear I. revert R. generalize (a :: answers). intros l.
          induction l as [|[r'|e'] l IH]; simpl; intros R; [discriminate| |].
          - injection R as ->. exists [], l. split; reflexivity.
          - destruct (IH R) as [pre [post [-> T]]].
            exists (Threw e' :: pre), post. split; [reflexivity | exact T]. }
        destruct X as [pre [post [X T]]].
        assert (Y : nth_error (snd (ingest_each sha date o 0 drawn (e :: es) s))
                      (List.length pre) = Some (Returned r)).
        { rewrite I. cbn [snd]. rewrite X.
          rewrite nth_error_app2 by lia. rewrite Nat.sub_diag. reflexivity. }
        apply ingest_each_nth in Y. destruct Y as [e1 [_ Y]]. rewrite Y.
        apply or_default_nonempty, U. }
      unfold or_else, or_null. destruct (eventId r) as [|c t]; [congruence|].
      reflexivity.
    + apply results_head_thrown. exact R.
Qed.

Lemma captureEnvelope_as_handleIngestion_witness :
  Rpc.eventId (snd (captureEnvelope Sample.sha Sample.hour true More.retry_then_bang
                      Sample.parse_drawn Sample.drawn Sample.after_boom))
  = Some (js "e2")
  /\ IngestionResponse.id
       (snd (handleIngestion Sample.sha Sample.hour true (Envelope More.retry_then_bang)
               Sample.parse_drawn Sample.drawn Sample.after_boom))
     = Some (js "e2").
Proof.
  assert (U : forall k, randomUUID_event (Sample.drawn k) <> [])
    by (intros k; discriminate).
  assert (R : Rpc.eventId
                (snd (captureEnvelope Sample.sha Sample.hour true More.retry_then_bang
                        Sample.parse_drawn Sample.drawn Sample.after_boom))
              = Some (js "e2")) by (vm_compute; reflexivity).
  split; [exact R|].
  destruct (captureEnvelope_as_handleIngestion Sample.sha Sample.hour true
              More.retry_then_bang Sample.parse_drawn Sample.drawn Sample.after_boom U)
    as [_ [_ H]].
  rewrite R in H. exact H.
Defined.
